(* ===================================================================== *)
(*  TrafficIngestor: the container-pool job scheduler of                   *)
(*  trafficIngestor/base_traffic_ingestor_yjn.py, embedded in Rocq.        *)
(*                                                                         *)
(*  Part I gives the model (one definition per source function, with the   *)
(*  source's names); Part II states and proves the properties.             *)
(*                                                                         *)
(*  Conventions of the embedding                                           *)
(*   - Python str  : Stdlib string (a sequence of code points below 256).  *)
(*   - Python int  : Z.                                                    *)
(*   - Python float: Q. Timestamps and durations are exact rationals; the  *)
(*     rounding of IEEE doubles is not modelled.                           *)
(*   - None        : option.                                               *)
(*   - the clock, docker, the file system and the callbacks are supplied   *)
(*     by the environment: every reading or answer is an input of the      *)
(*     step that uses it, every effect is appended to a trace.             *)
(* ===================================================================== *)

From Stdlib Require Import ZArith QArith Qminmax String Ascii List Lia Lqa.
From Stdlib Require Import DecimalString.
From Stdlib Require DecimalZ DecimalPos.
From stdpp Require Import base list gmap strings.

Import ListNotations.
Set Warnings "-register-all,-clear-no-such-hyp".
Local Open Scope string_scope.
Local Open Scope Z_scope.

(* ===================================================================== *)
(*  PART I.  THE MODEL                                                     *)
(* ===================================================================== *)

(* --------------------------------------------------------------------- *)
(*  Class attributes of BaseTrafficIngestor (lines 52-66): the             *)
(*  configuration every method reads through self.                          *)
(* --------------------------------------------------------------------- *)

Record config := {
  CONTAINER_PREFIX : string;
  HOST_CODE_PATH : string;
  BASE_DST : string;
  CONTAINER_COUNT : Z;
  CONTAINER_CODE_PATH : string;
  DOCKER_EXEC_TIMEOUT : Z;
  RETRY : Z;
  FIRST_EXEC_INTERVAL : Q;
  DEFAULT_UID : Z;
  DEFAULT_GID : Z
}.

(* --------------------------------------------------------------------- *)
(*  Python string helpers                                                  *)
(* --------------------------------------------------------------------- *)

(* s.startswith(p) *)
Fixpoint startswith (p s : string) : bool :=
  match p, s with
  | EmptyString, _ => true
  | String a p', String b s' => if Ascii.eqb a b then startswith p' s' else false
  | String _ _, EmptyString => false
  end.

(* the last character of a string, if any *)
Fixpoint last_char (s : string) : option ascii :=
  match s with
  | EmptyString => None
  | String c EmptyString => Some c
  | String _ s' => last_char s'
  end.

(* s.endswith("/") *)
Definition ends_with_sep (s : string) : bool :=
  match last_char s with
  | Some c => Ascii.eqb c "/"%char
  | None => false
  end.

(* posixpath.join(a, b): an absolute b replaces a; otherwise b is appended
   to a, with a separator unless a is empty or already ends with one. *)
Definition path_join2 (a b : string) : string :=
  if startswith "/" b then b
  else if orb (String.eqb a "") (ends_with_sep a) then a ++ b
  else a ++ "/" ++ b.

(* os.path.join(a, *p) *)
Definition path_join (a : string) (p : list string) : string :=
  fold_left path_join2 p a.

(* str.isspace() on the code points below 256: TAB..CR, FS..US, space,
   NEL (0x85) and NBSP (0xA0). *)
Definition is_space (c : ascii) : bool :=
  let n := N_of_ascii c in
  (((9 <=? n) && (n <=? 13)) || ((28 <=? n) && (n <=? 32))
   || (n =? 133) || (n =? 160))%N.

(* s.lstrip() *)
Fixpoint lstrip (s : string) : string :=
  match s with
  | EmptyString => EmptyString
  | String c s' => if is_space c then lstrip s' else s
  end.

(* s.rstrip(): a character is kept when something non-blank follows it *)
Fixpoint rstrip (s : string) : string :=
  match s with
  | EmptyString => EmptyString
  | String c s' =>
      match rstrip s' with
      | EmptyString => if is_space c then EmptyString else String c EmptyString
      | r => String c r
      end
  end.

(* s.strip() *)
Definition strip (s : string) : string := lstrip (rstrip s).

(* str.lower() on the code points below 256: A-Z and the accented capitals
   0xC0-0xDE (without the multiplication sign 0xD7) move up by 32. *)
Definition lower_char (c : ascii) : ascii :=
  let n := N_of_ascii c in
  if (((65 <=? n) && (n <=? 90))
      || ((192 <=? n) && (n <=? 222) && negb (n =? 215)))%N
  then ascii_of_N (n + 32) else c.

Fixpoint lower (s : string) : string :=
  match s with
  | EmptyString => EmptyString
  | String c s' => String (lower_char c) (lower s')
  end.

(* s[k:] *)
Fixpoint str_drop (k : nat) (s : string) : string :=
  match k, s with
  | S k', String _ s' => str_drop k' s'
  | _, _ => s
  end.

(* str(n), and an int in an f-string *)
Definition str_of_int (n : Z) : string := NilZero.string_of_int (Z.to_int n).

(* the double quote character, as a string *)
Definition dquote : string := String (ascii_of_nat 34) EmptyString.

(* s[:n] *)
Fixpoint str_take (n : nat) (s : string) : string :=
  match n, s with
  | S k, String c s' => String c (str_take k s')
  | _, _ => EmptyString
  end.

(* --------------------------------------------------------------------- *)
(*  Exceptions                                                             *)
(* --------------------------------------------------------------------- *)

(* The exception classes the source distinguishes in its except clauses
   (TimeoutExpired; JSONDecodeError, FileNotFoundError, OSError) and the
   ones the library calls it makes can raise besides. *)
Inductive exn_class :=
| TimeoutExpired
| JSONDecodeError
| FileNotFoundError
| OSError
| AttributeError
| ValueError
| OtherException.

(* An exception object: its class, str(e) and repr(e). *)
Record py_exn := { exn_class_of : exn_class; exn_str : string; exn_repr : string }.

(* A computation that returns or raises. *)
Inductive py (A : Type) :=
| Ret (a : A)
| Raise (e : py_exn).
Arguments Ret {A} a.
Arguments Raise {A} e.

Definition py_bind {A B : Type} (m : py A) (k : A -> py B) : py B :=
  match m with
  | Ret a => k a
  | Raise e => Raise e
  end.

Notation "'do' x <- m ; k" := (py_bind m (fun x => k))
  (at level 10, x name, m at level 100, k at level 200).

(* --------------------------------------------------------------------- *)
(*  chown_recursive (lines 247-268)                                        *)
(* --------------------------------------------------------------------- *)

(* The part of the host file system the walk looks at.  A symbolic link
   carries what it points to (None when it dangles). *)
Inductive fsnode :=
| FsFile
| FsDir (entries : list (string * fsnode))
| FsSymlink (target : option fsnode).

(* os.path.isdir / DirEntry.is_dir(): follows symbolic links. *)
Fixpoint is_dir (n : fsnode) : bool :=
  match n with
  | FsFile => false
  | FsDir _ => true
  | FsSymlink (Some t) => is_dir t
  | FsSymlink None => false
  end.

(* the entries scandir lists for a directory, or for a link to one *)
Fixpoint dir_entries (n : fsnode) : list (string * fsnode) :=
  match n with
  | FsDir es => es
  | FsSymlink (Some t) => dir_entries t
  | _ => []
  end.

(* One iteration of os.walk at [root] yields (root, dirs, files); the loop
   body chowns every name of dirs, then every name of files.  With
   followlinks=False the walk then descends into the entries that are
   real directories, in order. *)
Fixpoint walk_entries (root : string) (n : fsnode) : list string :=
  match n with
  | FsDir es =>
      map (fun e => path_join2 root (fst e)) (List.filter (fun e => is_dir (snd e)) es)
      ++ map (fun e => path_join2 root (fst e)) (List.filter (fun e => negb (is_dir (snd e))) es)
      ++ flat_map (fun e => match snd e with
                            | FsDir _ => walk_entries (path_join2 root (fst e)) (snd e)
                            | _ => []
                            end) es
  | _ => []
  end.

(* os.walk(path, followlinks=False) started at path: the top is scanned
   even when it is a link to a directory. *)
Definition os_walk (path : string) (n : fsnode) : list string :=
  walk_entries path (FsDir (dir_entries n)).

(* uid = uid or self.DEFAULT_UID: None and 0 are the falsy values of an
   Optional[int]. *)
Definition int_or (x : option Z) (dflt : Z) : Z :=
  match x with
  | Some v => if v =? 0 then dflt else v
  | None => dflt
  end.

(* One call os.chown(path, uid, gid, follow_symlinks=False).  A failing
   call is swallowed by the source (except Exception: pass), so the model
   records the calls that are attempted. *)
Record chown_call := { chown_path : string; chown_uid : Z; chown_gid : Z }.

Definition chown_recursive (cfg : config) (n : fsnode) (path : string)
    (uid gid : option Z) : list chown_call :=
  let uid := int_or uid (DEFAULT_UID cfg) in
  let gid := int_or gid (DEFAULT_GID cfg) in
  let call p := {| chown_path := p; chown_uid := uid; chown_gid := gid |} in
  call path :: (if is_dir n then map call (os_walk path n) else []).

(* --------------------------------------------------------------------- *)
(*  remove_from_csv (lines 308-357)                                        *)
(* --------------------------------------------------------------------- *)

(* The content of a CSV file, at the level csv.reader and csv.writer work
   at: one record (a list of cells) per line, a blank line being the empty
   record.  Quoting, the line terminator and the BOM are below this level.
   The first record is the header line. *)
Definition csv_record := list string.
Definition csv_content := list csv_record.

(* One row as csv.DictReader returns it: an insertion-ordered dict from
   the header names to the cells, None (restval) standing for the cells a
   short line lacks; the cells a long line has beyond the header are kept
   as a list under the key None (restkey), which is inserted last. *)
Record row_dict := {
  items : list (string * option string);
  rest : option (list string)
}.

(* d[k] = v on an insertion-ordered dict: an existing key keeps its place *)
Fixpoint dict_set {V : Type} (d : list (string * V)) (k : string) (v : V)
    : list (string * V) :=
  match d with
  | [] => [(k, v)]
  | (k', v') :: d' =>
      if String.eqb k k' then (k, v) :: d' else (k', v') :: dict_set d' k v
  end.

(* d.get(k) *)
Fixpoint dict_get {V : Type} (d : list (string * V)) (k : string) : option V :=
  match d with
  | [] => None
  | (k', v) :: d' => if String.eqb k k' then Some v else dict_get d' k
  end.

(* dict(pairs) *)
Definition dict_of {V : Type} (pairs : list (string * V)) : list (string * V) :=
  fold_left (fun d kv => dict_set d (fst kv) (snd kv)) pairs [].

(* csv.DictReader.__next__ on one non-blank record:
     d = dict(zip(self.fieldnames, row))
     if lf < lr: d[self.restkey] = row[lf:]
     elif lf > lr: for key in self.fieldnames[lr:]: d[key] = self.restval *)
Definition dictreader_row (fieldnames : list string) (row : csv_record) : row_dict :=
  let d := dict_of (combine fieldnames (map Some row)) in
  let lf := length fieldnames in
  let lr := length row in
  if (lf <? lr)%nat then {| items := d; rest := Some (skipn lf row) |}
  else {| items := fold_left (fun d key => dict_set d key None) (skipn lr fieldnames) d;
          rest := None |}.

(* list(reader): blank records are skipped (while row == []: ...) *)
Definition dictreader_rows (fieldnames : list string) (records : csv_content)
    : list row_dict :=
  map (dictreader_row fieldnames)
      (List.filter (fun r => match r with [] => false | _ => true end) records).

(* get_id, the closure of remove_from_csv:
     for k, v in row.items():
         if k.lower() == "id": return (v or "").strip()
     return ""
   The key None of a long row has no method lower. *)
Fixpoint get_id_items (its : list (string * option string)) : option string :=
  match its with
  | [] => None
  | (k, v) :: its' =>
      if String.eqb (lower k) "id"
      then Some (strip (match v with Some s => s | None => "" end))
      else get_id_items its'
  end.

Definition none_has_no_lower : py_exn :=
  {| exn_class_of := AttributeError;
     exn_str := "'NoneType' object has no attribute 'lower'";
     exn_repr := "AttributeError(" ++ dquote
                 ++ "'NoneType' object has no attribute 'lower'" ++ dquote ++ ")" |}.

Definition get_id (row : row_dict) : py string :=
  match get_id_items (items row) with
  | Some s => Ret s
  | None =>
      match rest row with
      | Some _ => Raise none_has_no_lower
      | None => Ret ""
      end
  end.

(* The loop that drops the first matching row:
     for r in rows:
         if not removed and get_id(r) == target_id: removed = True
         else: remaining_rows.append(r)                                   *)
Fixpoint drop_first_match (target_id : string) (rows : list row_dict)
    (removed : bool) (remaining_rows : list row_dict)
    : py (bool * list row_dict) :=
  match rows with
  | [] => Ret (removed, remaining_rows)
  | r :: rows' =>
      if removed
      then drop_first_match target_id rows' removed (remaining_rows ++ [r])
      else
        do id <- get_id r ;
        if String.eqb id target_id
        then drop_first_match target_id rows' true remaining_rows
        else drop_first_match target_id rows' removed (remaining_rows ++ [r])
  end.

Definition fields_not_in_fieldnames : py_exn :=
  {| exn_class_of := ValueError;
     exn_str := "dict contains fields not in fieldnames";
     exn_repr := "ValueError('dict contains fields not in fieldnames')" |}.

(* csv.DictWriter._dict_to_list with the default extrasaction='raise' and
   restval='': a key outside fieldnames raises ValueError; a missing key and
   a None value are both written as the empty cell. *)
Definition dict_to_list (fieldnames : list string) (row : row_dict) : py csv_record :=
  match rest row with
  | Some _ => Raise fields_not_in_fieldnames
  | None =>
      if forallb (fun kv => existsb (String.eqb (fst kv)) fieldnames) (items row)
      then Ret (map (fun key => match dict_get (items row) key with
                                | Some (Some s) => s
                                | _ => ""
                                end) fieldnames)
      else Raise fields_not_in_fieldnames
  end.

(* writer.writerows(rows) *)
Fixpoint writerows (fieldnames : list string) (rows : list row_dict)
    : py csv_content :=
  match rows with
  | [] => Ret []
  | r :: rows' =>
      do rec <- dict_to_list fieldnames r ;
      do recs <- writerows fieldnames rows' ;
      Ret (rec :: recs)
  end.

(* remove_from_csv(csv_path, row_id) on the file at csv_path: None when the
   path does not exist.  The result is the outcome of the call and the file
   afterwards.  The rewritten content goes to a temporary file that replaces
   csv_path only when it was written completely; on an exception the
   temporary file is unlinked and csv_path is as before.  The model has no
   I/O faults: mkstemp, the write and os.replace themselves succeed. *)
Definition remove_from_csv (file : option csv_content) (row_id : string)
    : py unit * option csv_content :=
  let target_id := strip row_id in
  if String.eqb target_id "" then (Ret tt, file)
  else
    match file with
    | None => (Ret tt, file)
    | Some [] => (Ret tt, file)                 (* reader.fieldnames is None *)
    | Some (header_fields :: records) =>
        let rows := dictreader_rows header_fields records in
        match drop_first_match target_id rows false [] with
        | Raise e => (Raise e, file)
        | Ret (false, _) => (Ret tt, file)
        | Ret (true, remaining_rows) =>
            match writerows header_fields remaining_rows with
            | Raise e => (Raise e, file)
            | Ret recs => (Ret tt, Some (header_fields :: recs))
            end
        end
    end.

(* The reading of the claim about remove_from_csv, on records: the id
   column is the first header name that lower-cases to "id"; the id of a
   record is its cell in that column, stripped. *)
Fixpoint id_of_record (header : list string) (row : csv_record) : string :=
  match header, row with
  | k :: header', c :: row' =>
      if String.eqb (lower k) "id" then strip c else id_of_record header' row'
  | _, _ => ""
  end.

(* the records without the first one whose id is target; None when no
   record has that id *)
Fixpoint delete_first_id (header : list string) (target : string)
    (rows : csv_content) : option csv_content :=
  match rows with
  | [] => None
  | r :: rows' =>
      if String.eqb (id_of_record header r) target then Some rows'
      else option_map (cons r) (delete_first_id header target rows')
  end.

(* --------------------------------------------------------------------- *)
(*  _wait_before_first_exec (lines 359-372)                                *)
(* --------------------------------------------------------------------- *)

(* self._first_exec_next_ts and self._first_exec_done_containers, the two
   fields guarded by self._first_exec_lock. *)
Record throttle := {
  _first_exec_next_ts : Q;
  _first_exec_done_containers : gset string
}.

(* the fields as __init__ sets them (lines 72-74) *)
Definition throttle_init : throttle :=
  {| _first_exec_next_ts := 0%Q; _first_exec_done_containers := ∅ |}.

(* One call.  [now] is the reading of time.monotonic() the call makes.
   The result is the state afterwards and the argument of time.sleep, None
   when the call returns without sleeping.  max(a, b) of Python returns a
   unless b is greater, which is Qmax. *)
Definition _wait_before_first_exec (cfg : config) (st : throttle)
    (container : string) (now : Q) : throttle * option Q :=
  let interval := Qmax (FIRST_EXEC_INTERVAL cfg) 0 in
  if decide (container ∈ _first_exec_done_containers st) then (st, None)
  else
    let scheduled := Qmax now (_first_exec_next_ts st) in
    let st' := {| _first_exec_next_ts := (scheduled + interval)%Q;
                  _first_exec_done_containers :=
                    {[container]} ∪ _first_exec_done_containers st |} in
    let wait := (scheduled - now)%Q in
    (st', if Qlt_le_dec 0 wait then Some wait else None).

(* A sequence of calls, each with the container it is made for and the
   clock reading it makes; the result lists what every call slept. *)
Fixpoint gate_calls (cfg : config) (st : throttle) (calls : list (string * Q))
    : throttle * list (string * option Q) :=
  match calls with
  | [] => (st, [])
  | (container, now) :: calls' =>
      let '(st1, slept) := _wait_before_first_exec cfg st container now in
      let '(st2, log) := gate_calls cfg st1 calls' in
      (st2, (container, slept) :: log)
  end.

(* the seconds one call slept *)
Definition slept_seconds (slept : option Q) : Q :=
  match slept with
  | Some w => w
  | None => 0%Q
  end.

(* the throttle-induced delay one container accumulated over a log *)
Fixpoint total_delay (container : string) (log : list (string * option Q)) : Q :=
  match log with
  | [] => 0%Q
  | (c, slept) :: log' =>
      if String.eqb c container
      then (slept_seconds slept + total_delay container log')%Q
      else total_delay container log'
  end.

(* the clock readings of a call sequence never go back and start at or
   after [t0], as those of time.monotonic() do *)
Fixpoint monotonic_from (t0 : Q) (calls : list (string * Q)) : Prop :=
  match calls with
  | [] => True
  | (_, now) :: calls' => (t0 <= now)%Q /\ monotonic_from now calls'
  end.

(* --------------------------------------------------------------------- *)
(*  Tasks                                                                  *)
(* --------------------------------------------------------------------- *)

(* A task dict, with the keys the scheduler reads and writes.  fetch_jobs
   builds it with row_id, url and domain; worker_loop adds container,
   _retry_count and _start_time.  A missing key is None. *)
Record task := {
  row_id : option string;
  url : option string;
  domain : option string;
  container : option string;
  _retry_count : option Z;
  _start_time : option Q
}.

(* task.get(key, default) *)
Definition get_or {A : Type} (field : option A) (default : A) : A :=
  match field with
  | Some v => v
  | None => default
  end.

(* {"row_id": rid, "url": url, "domain": dom}, as fetch_jobs returns it *)
Definition new_job (rid u dom : string) : task :=
  {| row_id := Some rid; url := Some u; domain := Some dom;
     container := None; _retry_count := None; _start_time := None |}.

(* --------------------------------------------------------------------- *)
(*  str.replace and the path rewriting of process_result (lines 438-443)   *)
(* --------------------------------------------------------------------- *)

(* s.replace(old, new) for a non-empty old: the string is scanned from the
   left; where old starts, new is emitted and the scan resumes behind the
   occurrence ([skip] counts the characters of the occurrence still to be
   passed over); elsewhere the character is copied. *)
Fixpoint replace_from (old new : string) (skip : nat) (s : string) : string :=
  match s with
  | EmptyString => EmptyString
  | String c s' =>
      match skip with
      | S k => replace_from old new k s'
      | O =>
          if startswith old s
          then new ++ replace_from old new (String.length old - 1) s'
          else String c (replace_from old new 0 s')
      end
  end.

Definition str_replace (old new s : string) : string :=
  replace_from old new 0 s.

(* path.replace("/app", self.HOST_CODE_PATH) *)
Definition to_host_path (cfg : config) (path : string) : string :=
  str_replace "/app" (HOST_CODE_PATH cfg) path.

(* old in s *)
Fixpoint occurs (old s : string) : bool :=
  match s with
  | EmptyString => startswith old s
  | String _ s' => startswith old s || occurs old s'
  end.

(* No non-empty suffix of s begins with old or is the beginning of old:
   s contains no occurrence of old and does not end in a proper, non-empty
   prefix of old.  For old = "/app": s contains no "/app" and does not end
   in "/", "/a" or "/ap". *)
Fixpoint no_overlap (old s : string) : bool :=
  match s with
  | EmptyString => true
  | String _ s' =>
      negb (startswith old s) && negb (startswith s old) && no_overlap old s'
  end.

(* a host code path after which the rewriting leaves no "/app" behind *)
Definition host_path_ok (host : string) : bool :=
  startswith "/" host && no_overlap "/app" host.

(* --------------------------------------------------------------------- *)
(*  process_result (lines 420-466) and exec_once (lines 400-418)           *)
(* --------------------------------------------------------------------- *)

(* What json.load returns. A dict is insertion-ordered with unique keys. *)
Inductive pyjson :=
| JNull
| JBool (b : bool)
| JInt (n : Z)
| JFloat (q : Q)
| JStr (s : string)
| JList (items : list pyjson)
| JDict (fields : list (string * pyjson)).

(* bool(v), for the value result.get(key) returns *)
Definition truthy (v : option pyjson) : bool :=
  match v with
  | None | Some JNull => false
  | Some (JBool b) => b
  | Some (JInt n) => negb (n =? 0)
  | Some (JFloat q) => negb (Qeq_bool q 0)
  | Some (JStr s) => negb (String.eqb s "")
  | Some (JList l) => match l with [] => false | _ => true end
  | Some (JDict d) => match d with [] => false | _ => true end
  end.

(* the five artifact paths process_result requires, in its order *)
Definition required_paths : list string :=
  ["pcap_path"; "ssl_key_file_path"; "content_path"; "html_path";
   "screenshot_path"].

(* The final paths handed to on_task_success. *)
Record result_paths := {
  new_pcap : string;
  new_ssl : string;
  new_content : string;
  new_html : string;
  new_screenshot : string;
  current_url : pyjson
}.

(* What process_result does to the outside, in order. *)
Inductive fs_effect :=
| FxLogResult (result : pyjson)                   (* self.log('result', result) *)
| FxMoveAndChown (src dst_dir : string)           (* self.move_and_chown(src, dst_dir) *)
| FxOnTaskSuccess (t : task) (paths : result_paths). (* self.on_task_success(task, {...}) *)

(* subprocess.CompletedProcess *)
Record completed_process := { returncode : Z; stdout : string; stderr : string }.

(* What the environment answers during one exec_once: the docker exec
   command, the reading of meta/<container>_last.json, the date, and
   move_and_chown (makedirs, shutil.move, chown_recursive), which returns
   the new path or raises. *)
Record exec_env := {
  docker_exec : py completed_process;
  meta_json : py pyjson;
  date_str : string;
  move_and_chown : string -> string -> py string
}.

Definition no_attribute (obj attr : string) : py_exn :=
  let msg := "'" ++ obj ++ "' object has no attribute '" ++ attr ++ "'" in
  {| exn_class_of := AttributeError; exn_str := msg;
     exn_repr := "AttributeError(" ++ dquote ++ msg ++ dquote ++ ")" |}.

(* type(v).__name__ *)
Definition type_name (v : pyjson) : string :=
  match v with
  | JNull => "NoneType"
  | JBool _ => "bool"
  | JInt _ => "int"
  | JFloat _ => "float"
  | JStr _ => "str"
  | JList _ => "list"
  | JDict _ => "dict"
  end.

(* v.replace("/app", self.HOST_CODE_PATH) on a truthy value: only a str has
   the method *)
Definition host_path_of (cfg : config) (v : option pyjson) : py string :=
  match v with
  | Some (JStr s) => Ret (to_host_path cfg s)
  | Some v => Raise (no_attribute (type_name v) "replace")
  | None => Raise (no_attribute "NoneType" "replace")
  end.

(* A computation that returns or raises and leaves effects behind. *)
Definition acting (A : Type) : Type := py A * list fs_effect.

Definition act_bind {A B : Type} (m : acting A) (k : A -> acting B) : acting B :=
  match m with
  | (Raise e, fx) => (Raise e, fx)
  | (Ret a, fx) => let '(r, fx') := k a in (r, (fx ++ fx')%list)
  end.

Notation "'act' x <- m ; k" := (act_bind m (fun x => k))
  (at level 10, x name, m at level 100, k at level 200).

(* a step that cannot raise *)
Definition act_do (fx : fs_effect) : acting unit := (Ret tt, [fx]).

(* a pure step *)
Definition act_pure {A : Type} (m : py A) : acting A := (m, []).

(* self.move_and_chown(src, os.path.join(self.BASE_DST, kind, date_str, domain)) *)
Definition move_to_store (cfg : config) (env : exec_env) (dom src kind : string)
    : acting string :=
  let dst_dir := path_join (BASE_DST cfg) [kind; date_str env; dom] in
  (move_and_chown env src dst_dir, [FxMoveAndChown src dst_dir]).

(* process_result(task, container): what it returns or raises, and what it
   did, in order. *)
Definition process_result (cfg : config) (env : exec_env) (t : task)
    : acting (bool * string) :=
  act result <- act_pure (meta_json env) ;
  act _ <- act_do (FxLogResult result) ;
  match result with
  | JDict d =>
      let pcap_path := dict_get d "pcap_path" in
      let ssl_key_file_path := dict_get d "ssl_key_file_path" in
      let content_path := dict_get d "content_path" in
      let html_path := dict_get d "html_path" in
      let screenshot_path := dict_get d "screenshot_path" in
      let current_url := get_or (dict_get d "current_url") (JStr "") in
      if negb (forallb truthy [pcap_path; ssl_key_file_path; content_path;
                               html_path; screenshot_path])
      then act_pure (Ret (false, "result JSON missing required paths"))
      else
        act pcap_path <- act_pure (host_path_of cfg pcap_path) ;
        act ssl_key_file_path <- act_pure (host_path_of cfg ssl_key_file_path) ;
        act content_path <- act_pure (host_path_of cfg content_path) ;
        act html_path <- act_pure (host_path_of cfg html_path) ;
        act screenshot_path <- act_pure (host_path_of cfg screenshot_path) ;
        let dom := get_or (domain t) "unknown" in
        act new_pcap <- move_to_store cfg env dom pcap_path "pcap" ;
        act new_ssl <- move_to_store cfg env dom ssl_key_file_path "ssl_key" ;
        act new_content <- move_to_store cfg env dom content_path "content" ;
        act new_html <- move_to_store cfg env dom html_path "html" ;
        act new_screenshot <- move_to_store cfg env dom screenshot_path "screenshot" ;
        act _ <- act_do (FxOnTaskSuccess t
                   {| new_pcap := new_pcap; new_ssl := new_ssl;
                      new_content := new_content; new_html := new_html;
                      new_screenshot := new_screenshot;
                      current_url := current_url |}) ;
        act_pure (Ret (true, ""))
  | _ => act_pure (Raise (no_attribute (type_name result) "get"))
  end.

(* except (json.JSONDecodeError, FileNotFoundError, OSError) *)
Definition caught_by_exec_once (c : exn_class) : bool :=
  match c with
  | JSONDecodeError | FileNotFoundError | OSError => true
  | _ => false
  end.

(* exec_once(task), behind the throttle gate: the docker exec command,
   then the post-processing of a zero exit status. *)
Definition exec_once (cfg : config) (env : exec_env) (t : task)
    : acting (bool * string) :=
  match docker_exec env with
  | Raise e => (Raise e, [])
  | Ret cp =>
      if returncode cp =? 0 then
        match process_result cfg env t with
        | (Raise e, fx) =>
            if caught_by_exec_once (exn_class_of e)
            then (Ret (false, "post-processing error: " ++ exn_str e), fx)
            else (Raise e, fx)
        | r => r
        end
      else
        (Ret (false, if String.eqb (strip (stderr cp)) "" then strip (stdout cp)
                     else strip (stderr cp)), [])
  end.

(* --------------------------------------------------------------------- *)
(*  worker_loop (lines 491-553), _handle_final_failure (476-489),          *)
(*  _update_progress (375-397), run_once (572-586), run (588-650)          *)
(* --------------------------------------------------------------------- *)

(* The task dicts are shared objects: the queue, the workers and
   stats["errors"] hold references to them and worker_loop updates them in
   place.  A reference is the index of the dict in the store. *)

(* The lines worker_loop and _handle_final_failure log. *)
Inductive log_line :=
| LStart (container row url : string)              (* -> start [row_id] url *)
| LRetry (container : string) (attempt retry : Z)
         (row url : string)                        (* -> retry a/r [row_id] url *)
| LDone (container row url : string) (task_elapsed : Q)   (* -> done *)
| LFail (container row err : string)               (* -> fail [row_id] err[:200] *)
| LTimeout (container row url : string)            (* -> timeout *)
| LError (container row err : string)              (* -> error [row_id] repr(e) *)
| LGiveUp (container row url : string) (attempts : Z).    (* -> give up ... after n attempts *)

(* What a worker does to the outside while it handles a task. *)
Inductive action :=
| Log (line : log_line)                    (* self.log(...) *)
| SetStartTime (t : Q)                     (* task["_start_time"] = time.time() *)
| Sleep (secs : Q)                         (* time.sleep(secs) *)
| Exec (fx : fs_effect)                    (* an effect of exec_once *)
| OnTaskFailed (err : string)              (* self.on_task_failed(task, err) *)
| Progress (is_ok : bool) (task_elapsed : Q)  (* self._update_progress(ok, task_elapsed) *)
| Put                                      (* q.put(task) *)
| TaskDone.                                (* q.task_done() *)

(* One entry of the trace: the action, with the wall-clock time of the
   step that made it, the worker thread and the task it had in hand. *)
Record entry := {
  at_time : Q;
  by_worker : nat;
  on_task : nat;
  what : action
}.

(* stats = {"ok": 0, "fail": 0, "errors": []}; an element of errors is
   (task, err), the task being the shared dict. *)
Record stats := {
  ok : Z;
  fail : Z;
  errors : list (nat * string)
}.

(* self._global_ok, self._global_fail, self._global_task_time *)
Record progress := {
  _global_ok : Z;
  _global_fail : Z;
  _global_task_time : Q
}.

(* Where a worker thread stands in worker_loop. The local variables
   attempt and task_start_time are read when the task is taken. *)
Inductive wstate :=
| AtLoopHead                                    (* before q.get_nowait() *)
| AtGate (j : nat) (attempt : Z) (task_start_time : Q)
                                                (* in exec_once, before the throttle gate *)
| InExec (j : nat) (attempt : Z) (task_start_time : Q)
                                                (* behind the gate: docker exec and after *)
| Returned.                                     (* worker_loop returned *)

Record worker := { w_container : string; w_state : wstate }.

(* The state one batch runs on. *)
Record sched := {
  store : list task;            (* the task dicts *)
  queue : list nat;             (* q, first in first out *)
  unfinished_tasks : Z;         (* q.unfinished_tasks, what q.join() waits for *)
  workers : list worker;        (* the calls of worker_loop submitted to the pool *)
  batch_stats : stats;          (* stats *)
  global_progress : progress;
  gate : throttle;
  trace : list entry            (* what the workers did, in order *)
}.

(* What the environment supplies to one step: the thread the operating
   system runs, the readings of time.time() and time.monotonic(), and the
   answers to exec_once. *)
Record tick := {
  who : nat;
  wall : Q;
  mono : Q;
  env : exec_env
}.

(* field updates *)
Definition with_store (s : sched) (v : list task) : sched :=
  {| store := v; queue := queue s; unfinished_tasks := unfinished_tasks s;
     workers := workers s; batch_stats := batch_stats s;
     global_progress := global_progress s; gate := gate s; trace := trace s |}.

Definition with_queue (s : sched) (v : list nat) : sched :=
  {| store := store s; queue := v; unfinished_tasks := unfinished_tasks s;
     workers := workers s; batch_stats := batch_stats s;
     global_progress := global_progress s; gate := gate s; trace := trace s |}.

Definition with_unfinished (s : sched) (v : Z) : sched :=
  {| store := store s; queue := queue s; unfinished_tasks := v;
     workers := workers s; batch_stats := batch_stats s;
     global_progress := global_progress s; gate := gate s; trace := trace s |}.

Definition with_workers (s : sched) (v : list worker) : sched :=
  {| store := store s; queue := queue s; unfinished_tasks := unfinished_tasks s;
     workers := v; batch_stats := batch_stats s;
     global_progress := global_progress s; gate := gate s; trace := trace s |}.

Definition with_stats (s : sched) (v : stats) : sched :=
  {| store := store s; queue := queue s; unfinished_tasks := unfinished_tasks s;
     workers := workers s; batch_stats := v;
     global_progress := global_progress s; gate := gate s; trace := trace s |}.

Definition with_progress (s : sched) (v : progress) : sched :=
  {| store := store s; queue := queue s; unfinished_tasks := unfinished_tasks s;
     workers := workers s; batch_stats := batch_stats s;
     global_progress := v; gate := gate s; trace := trace s |}.

Definition with_gate (s : sched) (v : throttle) : sched :=
  {| store := store s; queue := queue s; unfinished_tasks := unfinished_tasks s;
     workers := workers s; batch_stats := batch_stats s;
     global_progress := global_progress s; gate := v; trace := trace s |}.

Definition with_trace (s : sched) (v : list entry) : sched :=
  {| store := store s; queue := queue s; unfinished_tasks := unfinished_tasks s;
     workers := workers s; batch_stats := batch_stats s;
     global_progress := global_progress s; gate := gate s; trace := v |}.

(* the worker thread [who tk] does [a] while handling task j *)
Definition entry_of (tk : tick) (j : nat) (a : action) : entry :=
  {| at_time := wall tk; by_worker := who tk; on_task := j; what := a |}.

Definition emit (tk : tick) (j : nat) (a : action) (s : sched) : sched :=
  with_trace s (trace s ++ [entry_of tk j a])%list.

Definition emit_all (tk : tick) (j : nat) (acts : list action) (s : sched) : sched :=
  fold_left (fun s a => emit tk j a s) acts s.

(* the worker thread moves on in worker_loop *)
Definition goto (i : nat) (w : worker) (st : wstate) (s : sched) : sched :=
  with_workers s (<[i := {| w_container := w_container w; w_state := st |}]> (workers s)).

(* task[key] = value on the dict j *)
Definition set_container (c : string) (t : task) : task :=
  {| row_id := row_id t; url := url t; domain := domain t;
     container := Some c; _retry_count := _retry_count t;
     _start_time := _start_time t |}.

Definition set_retry_count (n : Z) (t : task) : task :=
  {| row_id := row_id t; url := url t; domain := domain t;
     container := container t; _retry_count := Some n;
     _start_time := _start_time t |}.

Definition set_start_time (x : Q) (t : task) : task :=
  {| row_id := row_id t; url := url t; domain := domain t;
     container := container t; _retry_count := _retry_count t;
     _start_time := Some x |}.

Definition update_task (j : nat) (f : task -> task) (s : sched) : sched :=
  match store s !! j with
  | Some t => with_store s (<[j := f t]> (store s))
  | None => s
  end.

(* q.put(task) *)
Definition q_put (tk : tick) (j : nat) (s : sched) : sched :=
  emit tk j Put
    (with_unfinished (with_queue s (queue s ++ [j])%list) (unfinished_tasks s + 1)).

(* q.task_done() *)
Definition q_task_done (tk : tick) (j : nat) (s : sched) : sched :=
  emit tk j TaskDone (with_unfinished s (unfinished_tasks s - 1)).

(* self._update_progress(ok, task_elapsed): the counters; the rendering of
   the progress bar is the trace entry. *)
Definition _update_progress (tk : tick) (j : nat) (is_ok : bool)
    (task_elapsed : Q) (s : sched) : sched :=
  let p := global_progress s in
  emit tk j (Progress is_ok task_elapsed)
    (with_progress s
       {| _global_ok := if is_ok then _global_ok p + 1 else _global_ok p;
          _global_fail := if is_ok then _global_fail p else _global_fail p + 1;
          _global_task_time := (_global_task_time p + task_elapsed)%Q |}).

(* the task dict j as the worker holds it; the empty dict stands in for a
   reference outside the store, which no run builds *)
Definition task_of (s : sched) (j : nat) : task :=
  match store s !! j with
  | Some t => t
  | None => {| row_id := None; url := None; domain := None; container := None;
               _retry_count := None; _start_time := None |}
  end.

(* self._handle_final_failure(task, err, stats, task_start_time) *)
Definition _handle_final_failure (cfg : config) (tk : tick) (j : nat)
    (err : string) (task_start_time : Q) (s : sched) : sched :=
  let t := task_of s j in
  let row := get_or (row_id t) "" in
  let u := get_or (url t) "" in
  let c := get_or (container t) "unknown" in
  let task_elapsed := (wall tk - task_start_time)%Q in
  let s := emit tk j (Log (LGiveUp c row u (RETRY cfg + 1))) s in
  let s := emit tk j (OnTaskFailed err) s in
  let st := batch_stats s in
  let s := with_stats s {| ok := ok st; fail := fail st + 1;
                           errors := (errors st ++ [(j, err)])%list |} in
  _update_progress tk j false task_elapsed s.

(* f"timeout>{self.DOCKER_EXEC_TIMEOUT}s" *)
Definition timeout_error (cfg : config) : string :=
  "timeout>" ++ str_of_int (DOCKER_EXEC_TIMEOUT cfg) ++ "s".

(* worker_loop, from q.get_nowait() to the call of exec_once.  On an empty
   queue the worker returns. *)
Definition worker_loop_get (i : nat) (w : worker) (retry : Z) (tk : tick)
    (s : sched) : sched :=
  match queue s with
  | [] => goto i w Returned s
  | j :: q' =>
      let s := with_queue s q' in
      let row := get_or (row_id (task_of s j)) "" in
      let u := get_or (url (task_of s j)) "" in
      let s := update_task j (set_container (w_container w)) s in
      let attempt := get_or (_retry_count (task_of s j)) 0 in
      let s := match _start_time (task_of s j) with
               | Some _ => s
               | None => emit tk j (SetStartTime (wall tk))
                           (update_task j (set_start_time (wall tk)) s)
               end in
      let task_start_time := get_or (_start_time (task_of s j)) (wall tk) in
      let s := if attempt =? 0
               then emit tk j (Log (LStart (w_container w) row u)) s
               else emit tk j (Log (LRetry (w_container w) attempt retry row u)) s in
      goto i w (AtGate j attempt task_start_time) s
  end.

(* exec_once, first statement: self._wait_before_first_exec(container) *)
Definition worker_loop_gate (cfg : config) (i : nat) (w : worker)
    (j : nat) (attempt : Z) (task_start_time : Q) (tk : tick) (s : sched) : sched :=
  let '(g, slept) := _wait_before_first_exec cfg (gate s) (w_container w) (mono tk) in
  let s := with_gate s g in
  let s := match slept with
           | Some secs => emit tk j (Sleep secs) s
           | None => s
           end in
  goto i w (InExec j attempt task_start_time) s.

(* worker_loop, from the docker exec of exec_once to q.task_done().  The
   three failure branches are written out as the source has them. *)
Definition worker_loop_exec (cfg : config) (i : nat) (w : worker) (retry : Z)
    (j : nat) (attempt : Z) (task_start_time : Q) (tk : tick) (s : sched) : sched :=
  let c := w_container w in
  let row := get_or (row_id (task_of s j)) "" in
  let u := get_or (url (task_of s j)) "" in
  let '(r, fx) := exec_once cfg (env tk) (task_of s j) in
  let s := emit_all tk j (map Exec fx) s in
  let s :=
    match r with
    | Ret (true, _) =>
        let task_elapsed := (wall tk - task_start_time)%Q in
        let s := emit tk j (Log (LDone c row u task_elapsed)) s in
        let st := batch_stats s in
        let s := with_stats s {| ok := ok st + 1; fail := fail st;
                                 errors := errors st |} in
        _update_progress tk j true task_elapsed s
    | Ret (false, err) =>
        let s := emit tk j (Log (LFail c row (str_take 200 err))) s in
        if attempt <? retry then
          let s := update_task j (set_retry_count (attempt + 1)) s in
          let s := emit tk j (Sleep 2) s in
          q_put tk j s
        else
          _handle_final_failure cfg tk j err task_start_time s
    | Raise e =>
        match exn_class_of e with
        | TimeoutExpired =>
            let err := timeout_error cfg in
            let s := emit tk j (Log (LTimeout c row u)) s in
            if attempt <? retry then
              let s := update_task j (set_retry_count (attempt + 1)) s in
              let s := emit tk j (Sleep 2) s in
              q_put tk j s
            else
              _handle_final_failure cfg tk j err task_start_time s
        | _ =>
            let err := exn_repr e in
            let s := emit tk j (Log (LError c row err)) s in
            if attempt <? retry then
              let s := update_task j (set_retry_count (attempt + 1)) s in
              let s := emit tk j (Sleep 2) s in
              q_put tk j s
            else
              _handle_final_failure cfg tk j err task_start_time s
        end
    end in
  goto i w AtLoopHead (q_task_done tk j s).

(* one step of the worker thread the tick names *)
Definition worker_loop (cfg : config) (retry : Z) (s : sched) (tk : tick) : sched :=
  match workers s !! who tk with
  | None => s
  | Some w =>
      match w_state w with
      | AtLoopHead => worker_loop_get (who tk) w retry tk s
      | AtGate j attempt t0 => worker_loop_gate cfg (who tk) w j attempt t0 tk s
      | InExec j attempt t0 => worker_loop_exec cfg (who tk) w retry j attempt t0 tk s
      | Returned => s
      end
  end.

(* the pool runs the threads in the order the ticks give *)
Definition run_ticks (cfg : config) (retry : Z) (s : sched) (ticks : list tick) : sched :=
  fold_left (worker_loop cfg retry) ticks s.

(* run_once, up to the pool: the queue filled with the jobs, the stats
   zeroed, one call of worker_loop submitted per container name *)
Definition batch_start (g : throttle) (p : progress) (names : list string)
    (jobs : list task) : sched :=
  {| store := jobs;
     queue := seq 0 (length jobs);
     unfinished_tasks := Z.of_nat (length jobs);
     workers := map (fun n => {| w_container := n; w_state := AtLoopHead |}) names;
     batch_stats := {| ok := 0; fail := 0; errors := [] |};
     global_progress := p;
     gate := g;
     trace := [] |}.

Definition is_returned (w : worker) : bool :=
  match w_state w with
  | Returned => true
  | _ => false
  end.

(* q.join() returned and the pool has shut down: no task is unfinished and
   every call of worker_loop returned *)
Definition batch_finished (s : sched) : bool :=
  (unfinished_tasks s =? 0) && forallb is_returned (workers s).

(* run_once(names, jobs) under the schedule [ticks]: the stats, once the
   batch has finished.  None when the schedule ends before the batch does,
   and for an empty pool, where ThreadPoolExecutor(max_workers=0) raises
   ValueError. *)
Definition run_once (cfg : config) (g : throttle) (p : progress)
    (names : list string) (jobs : list task) (ticks : list tick) : option stats :=
  match names with
  | [] => None
  | _ =>
      let s := run_ticks cfg (RETRY cfg) (batch_start g p names jobs) ticks in
      if batch_finished s then Some (batch_stats s) else None
  end.

(* the failure samples run logs after a batch:
     for task, err in stats["errors"][:10]: ... err[:200] *)
Definition error_samples (s : sched) : list (string * string * string) :=
  map (fun je => (get_or (row_id (task_of s (fst je))) "",
                  get_or (url (task_of s (fst je))) "",
                  str_take 200 (snd je)))
      (firstn 10 (errors (batch_stats s))).

(* --------------------------------------------------------------------- *)
(*  Reading the trace                                                      *)
(* --------------------------------------------------------------------- *)

(* what the entries made on task j amount to, in order *)
Definition per_task {X : Type} (g : Q -> action -> list X) (j : nat)
    (tr : list entry) : list X :=
  flat_map (fun e => if Nat.eqb (on_task e) j then g (at_time e) (what e) else []) tr.

(* a dispatch is logged as "start" (attempt 0) or "retry attempt/retry" *)
Definition dispatch_attempt (a : action) : list Z :=
  match a with
  | Log (LStart _ _ _) => [0]
  | Log (LRetry _ attempt _ _ _) => [attempt]
  | _ => []
  end.

(* the attempt numbers task j was dispatched with, in order *)
Definition dispatches (j : nat) (tr : list entry) : list Z :=
  per_task (fun _ a => dispatch_attempt a) j tr.

(* the times of these dispatches *)
Definition dispatch_time (now : Q) (a : action) : list Q :=
  map (fun _ => now) (dispatch_attempt a).

Definition dispatch_times (j : nat) (tr : list entry) : list Q :=
  per_task dispatch_time j tr.

(* a terminal outcome is recorded by _update_progress: True for a success,
   False for a terminal failure *)
Definition outcome_of (a : action) : list bool :=
  match a with
  | Progress is_ok _ => [is_ok]
  | _ => []
  end.

(* the terminal outcomes of task j, in order *)
Definition outcomes (j : nat) (tr : list entry) : list bool :=
  per_task (fun _ a => outcome_of a) j tr.

(* the terminal outcomes of all tasks *)
Definition all_outcomes (tr : list entry) : list bool :=
  flat_map (fun e => outcome_of (what e)) tr.

(* (time of the step, elapsed time recorded) of the outcomes of task j *)
Definition elapsed_of (now : Q) (a : action) : list (Q * Q) :=
  match a with
  | Progress _ task_elapsed => [(now, task_elapsed)]
  | _ => []
  end.

Definition recorded_elapsed (j : nat) (tr : list entry) : list (Q * Q) :=
  per_task elapsed_of j tr.

(* the values _start_time of task j was set to *)
Definition start_time_set (a : action) : list Q :=
  match a with
  | SetStartTime t => [t]
  | _ => []
  end.

Definition start_time_sets (j : nat) (tr : list entry) : list Q :=
  per_task (fun _ a => start_time_set a) j tr.

(* the trace without its log lines *)
Definition without_logs (tr : list entry) : list entry :=
  List.filter (fun e => match what e with Log _ => false | _ => true end) tr.

(* --------------------------------------------------------------------- *)
(*  The steps of worker_loop, one state per outcome                        *)
(* --------------------------------------------------------------------- *)

(* the task a worker holds *)
Definition holding (w : worker) : option nat :=
  match w_state w with
  | AtGate j _ _ | InExec j _ _ => Some j
  | _ => None
  end.

(* the references to task j: in the queue, and in the hands of workers *)
Definition held_by (j : nat) (w : worker) : nat :=
  match holding w with
  | Some j' => if Nat.eqb j' j then 1 else 0
  | None => 0
  end.

Definition holders (j : nat) (ws : list worker) : nat :=
  list_sum (map (held_by j) ws).

Definition queued (j : nat) (q : list nat) : nat :=
  count_occ Nat.eq_dec q j.

(* the workers that hold a task *)
Definition busy (ws : list worker) : nat :=
  list_sum (map (fun w => match holding w with Some _ => 1 | None => 0 end) ws)%nat.

(* worker i at another point of worker_loop *)
Definition moved_on (s : sched) (i : nat) (w : worker) (st : wstate) : list worker :=
  <[i := {| w_container := w_container w; w_state := st |}]> (workers s).

(* the trace with what worker [who tk] did on task j in this step *)
Definition logged (s : sched) (tk : tick) (j : nat) (acts : list action) : list entry :=
  (trace s ++ map (entry_of tk j) acts)%list.

(* the task dict after worker_loop took it from the queue *)
Definition taken (c : string) (now : Q) (t : task) : task :=
  {| row_id := row_id t; url := url t; domain := domain t;
     container := Some c; _retry_count := _retry_count t;
     _start_time := Some (get_or (_start_time t) now) |}.

Definition dispatch_line (c : string) (retry : Z) (t : task) : log_line :=
  let attempt := get_or (_retry_count t) 0 in
  if attempt =? 0 then LStart c (get_or (row_id t) "") (get_or (url t) "")
  else LRetry c attempt retry (get_or (row_id t) "") (get_or (url t) "").

Definition after_return (s : sched) (tk : tick) (w : worker) : sched :=
  with_workers s (moved_on s (who tk) w Returned).

Definition after_get (retry : Z) (s : sched) (tk : tick) (w : worker)
    (j : nat) (q' : list nat) (t : task) : sched :=
  {| store := <[j := taken (w_container w) (wall tk) t]> (store s);
     queue := q';
     unfinished_tasks := unfinished_tasks s;
     workers := moved_on s (who tk) w
                  (AtGate j (get_or (_retry_count t) 0)
                     (get_or (_start_time t) (wall tk)));
     batch_stats := batch_stats s;
     global_progress := global_progress s;
     gate := gate s;
     trace := logged s tk j
                (match _start_time t with
                 | None => [SetStartTime (wall tk)]
                 | Some _ => []
                 end ++ [Log (dispatch_line (w_container w) retry t)]) |}.

Definition after_gate (cfg : config) (s : sched) (tk : tick) (w : worker)
    (j : nat) (attempt : Z) (t0 : Q) : sched :=
  let r := _wait_before_first_exec cfg (gate s) (w_container w) (mono tk) in
  {| store := store s;
     queue := queue s;
     unfinished_tasks := unfinished_tasks s;
     workers := moved_on s (who tk) w (InExec j attempt t0);
     batch_stats := batch_stats s;
     global_progress := global_progress s;
     gate := fst r;
     trace := logged s tk j (match snd r with
                             | Some secs => [Sleep secs]
                             | None => []
                             end) |}.

Definition progressed (p : progress) (is_ok : bool) (task_elapsed : Q) : progress :=
  {| _global_ok := if is_ok then _global_ok p + 1 else _global_ok p;
     _global_fail := if is_ok then _global_fail p else _global_fail p + 1;
     _global_task_time := (_global_task_time p + task_elapsed)%Q |}.

Definition after_success (s : sched) (tk : tick) (w : worker) (j : nat)
    (t0 : Q) (fx : list fs_effect) : sched :=
  let t := task_of s j in
  let task_elapsed := (wall tk - t0)%Q in
  {| store := store s;
     queue := queue s;
     unfinished_tasks := unfinished_tasks s - 1;
     workers := moved_on s (who tk) w AtLoopHead;
     batch_stats := {| ok := ok (batch_stats s) + 1; fail := fail (batch_stats s);
                       errors := errors (batch_stats s) |};
     global_progress := progressed (global_progress s) true task_elapsed;
     gate := gate s;
     trace := logged s tk j
                (map Exec fx ++
                 [Log (LDone (w_container w) (get_or (row_id t) "")
                         (get_or (url t) "") task_elapsed);
                  Progress true task_elapsed; TaskDone]) |}.

Definition after_requeue (s : sched) (tk : tick) (w : worker) (j : nat)
    (attempt : Z) (fx : list fs_effect) (line : log_line) : sched :=
  {| store := <[j := set_retry_count (attempt + 1) (task_of s j)]> (store s);
     queue := (queue s ++ [j])%list;
     unfinished_tasks := unfinished_tasks s + 1 - 1;
     workers := moved_on s (who tk) w AtLoopHead;
     batch_stats := batch_stats s;
     global_progress := global_progress s;
     gate := gate s;
     trace := logged s tk j (map Exec fx ++ [Log line; Sleep 2; Put; TaskDone]) |}.

Definition after_final (cfg : config) (s : sched) (tk : tick) (w : worker)
    (j : nat) (t0 : Q) (fx : list fs_effect) (line : log_line) (err : string)
    : sched :=
  let t := task_of s j in
  let task_elapsed := (wall tk - t0)%Q in
  {| store := store s;
     queue := queue s;
     unfinished_tasks := unfinished_tasks s - 1;
     workers := moved_on s (who tk) w AtLoopHead;
     batch_stats := {| ok := ok (batch_stats s); fail := fail (batch_stats s) + 1;
                       errors := (errors (batch_stats s) ++ [(j, err)])%list |};
     global_progress := progressed (global_progress s) false task_elapsed;
     gate := gate s;
     trace := logged s tk j
                (map Exec fx ++
                 [Log line;
                  Log (LGiveUp (get_or (container t) "unknown")
                         (get_or (row_id t) "") (get_or (url t) "")
                         (RETRY cfg + 1));
                  OnTaskFailed err; Progress false task_elapsed; TaskDone]) |}.

(* How worker_loop reports what exec_once returned or raised: nothing for
   a success, else the line it logs and the error text it keeps. *)
Definition failure_report (cfg : config) (c : string) (t : task)
    (r : py (bool * string)) : option (log_line * string) :=
  let row := get_or (row_id t) "" in
  let u := get_or (url t) "" in
  match r with
  | Ret (true, _) => None
  | Ret (false, err) => Some (LFail c row (str_take 200 err), err)
  | Raise e =>
      match exn_class_of e with
      | TimeoutExpired => Some (LTimeout c row u, timeout_error cfg)
      | _ => Some (LError c row (exn_repr e), exn_repr e)
      end
  end.

(* The steps a batch is made of. *)
Inductive transition (cfg : config) (retry : Z) (s : sched) (tk : tick)
    : sched -> Prop :=
| T_stay :
    workers s !! who tk = None \/
    (exists w, workers s !! who tk = Some w /\ w_state w = Returned) ->
    transition cfg retry s tk s
| T_return w :
    workers s !! who tk = Some w -> w_state w = AtLoopHead ->
    queue s = [] ->
    transition cfg retry s tk (after_return s tk w)
| T_get w j q' t :
    workers s !! who tk = Some w -> w_state w = AtLoopHead ->
    queue s = j :: q' -> store s !! j = Some t ->
    transition cfg retry s tk (after_get retry s tk w j q' t)
| T_gate w j attempt t0 :
    workers s !! who tk = Some w -> w_state w = AtGate j attempt t0 ->
    transition cfg retry s tk (after_gate cfg s tk w j attempt t0)
| T_success w j attempt t0 r fx :
    workers s !! who tk = Some w -> w_state w = InExec j attempt t0 ->
    exec_once cfg (env tk) (task_of s j) = (r, fx) ->
    failure_report cfg (w_container w) (task_of s j) r = None ->
    transition cfg retry s tk (after_success s tk w j t0 fx)
| T_requeue w j attempt t0 r fx line err :
    workers s !! who tk = Some w -> w_state w = InExec j attempt t0 ->
    exec_once cfg (env tk) (task_of s j) = (r, fx) ->
    failure_report cfg (w_container w) (task_of s j) r = Some (line, err) ->
    attempt < retry ->
    transition cfg retry s tk (after_requeue s tk w j attempt fx line)
| T_final w j attempt t0 r fx line err :
    workers s !! who tk = Some w -> w_state w = InExec j attempt t0 ->
    exec_once cfg (env tk) (task_of s j) = (r, fx) ->
    failure_report cfg (w_container w) (task_of s j) r = Some (line, err) ->
    retry <= attempt ->
    transition cfg retry s tk (after_final cfg s tk w j t0 fx line err).

(* --------------------------------------------------------------------- *)
(*  What holds of every state a batch goes through                         *)
(* --------------------------------------------------------------------- *)

(* the references of the queue point into the store *)
Definition queue_valid (s : sched) : Prop :=
  Forall (fun j => j < length (store s))%nat (queue s).

(* the number of successes (True) or terminal failures (False) recorded *)
Definition count_outcomes (b : bool) (tr : list entry) : nat :=
  count_occ Bool.bool_dec (all_outcomes tr) b.

(* The accounting of a batch of n jobs: every job is referenced exactly
   once, from the queue or by the worker that holds it, until its one
   terminal outcome is recorded; the counters of stats count the recorded
   outcomes; q.unfinished_tasks counts the references. *)
Record batch_inv (n : nat) (s : sched) : Prop := {
  inv_store : length (store s) = n;
  inv_refs : forall j,
    (queued j (queue s) + holders j (workers s) + length (outcomes j (trace s))
     = if j <? n then 1 else 0)%nat;
  inv_unfinished :
    unfinished_tasks s = Z.of_nat (length (queue s) + busy (workers s));
  inv_total :
    (length (all_outcomes (trace s)) + length (queue s) + busy (workers s) = n)%nat;
  inv_ok : ok (batch_stats s) = Z.of_nat (count_outcomes true (trace s));
  inv_fail : fail (batch_stats s) = Z.of_nat (count_outcomes false (trace s));
  inv_errors : length (errors (batch_stats s)) = count_outcomes false (trace s)
}.

(* the attempt numbers 0, 1, ..., m-1 *)
Definition attempts_upto (m : nat) : list Z := map Z.of_nat (seq 0 m).

(* task.get("_retry_count", 0) *)
Definition attempt_of (t : task) : Z := get_or (_retry_count t) 0.

(* the task a worker has in hand, with its local variables attempt and
   task_start_time *)
Definition in_hand (w : worker) : option (nat * Z * Q) :=
  match w_state w with
  | AtGate j a t0 | InExec j a t0 => Some (j, a, t0)
  | _ => None
  end.

(* The retry counter of a batch run with budget retry: _retry_count stays
   within the budget; the attempt a worker read is still the one of the
   dict it holds; the task has been dispatched once per attempt number up
   to its counter (the last one is pending while the task waits in the
   queue); a terminal failure is recorded only with the budget spent. *)
Record retry_inv (retry : Z) (s : sched) : Prop := {
  ri_count : forall j t, store s !! j = Some t -> 0 <= attempt_of t <= retry;
  ri_local : forall i w j a t0,
    workers s !! i = Some w -> in_hand w = Some (j, a, t0) ->
    exists t, store s !! j = Some t /\ attempt_of t = a;
  ri_dispatches : forall j t, store s !! j = Some t ->
    dispatches j (trace s)
    = attempts_upto (Z.to_nat (attempt_of t) + 1 - queued j (queue s));
  ri_failed : forall j t, store s !! j = Some t ->
    In false (outcomes j (trace s)) -> attempt_of t = retry
}.

(* two states that differ at most in the lines logged *)
Definition same_but_logs (a b : sched) : Prop :=
  store a = store b /\ queue a = queue b
  /\ unfinished_tasks a = unfinished_tasks b /\ workers a = workers b
  /\ batch_stats a = batch_stats b /\ global_progress a = global_progress b
  /\ gate a = gate b /\ without_logs (trace a) = without_logs (trace b).

(* The start time of a batch: a dict without _start_time was never
   dispatched; a dict with _start_time was given it once, at the time of its
   first dispatch; the task_start_time a worker read is the one of the dict
   it holds; every elapsed time recorded was measured from it. *)
Record start_inv (s : sched) : Prop := {
  si_unset : forall j t, store s !! j = Some t -> _start_time t = None ->
    dispatch_times j (trace s) = [] /\ start_time_sets j (trace s) = [];
  si_set : forall j t t0, store s !! j = Some t -> _start_time t = Some t0 ->
    hd_error (dispatch_times j (trace s)) = Some t0
    /\ start_time_sets j (trace s) = [t0];
  si_local : forall i w j a t0,
    workers s !! i = Some w -> in_hand w = Some (j, a, t0) ->
    exists t, store s !! j = Some t /\ _start_time t = Some t0;
  si_elapsed : forall j now el, In (now, el) (recorded_elapsed j (trace s)) ->
    exists t t0, store s !! j = Some t /\ _start_time t = Some t0
                 /\ el = (now - t0)%Q
}.

(* the state of a batch of run_once after the steps [ticks] *)
Definition batch_state (cfg : config) (g : throttle) (p : progress)
    (names : list string) (jobs : list task) (ticks : list tick) : sched :=
  run_ticks cfg (RETRY cfg) (batch_start g p names jobs) ticks.

(* --------------------------------------------------------------------- *)
(*  A concrete configuration, used by the examples of Part II              *)
(* --------------------------------------------------------------------- *)

Definition sample_cfg : config :=
  {| CONTAINER_PREFIX := "traffic"; HOST_CODE_PATH := "/srv/capture";
     BASE_DST := "/netdisk/out"; CONTAINER_COUNT := 3;
     CONTAINER_CODE_PATH := "/app"; DOCKER_EXEC_TIMEOUT := 6000; RETRY := 5;
     FIRST_EXEC_INTERVAL := 1%Q; DEFAULT_UID := 1000; DEFAULT_GID := 1001 |}.


(* A run of the capture script that exits with status 0 and leaves a
   manifest without content_path; every move would succeed. *)
Definition env_missing_content : exec_env :=
  {| docker_exec := Ret {| returncode := 0; stdout := ""; stderr := "" |};
     meta_json :=
       Ret (JDict [("pcap_path", JStr "/app/data/a.pcap");
                   ("ssl_key_file_path", JStr "/app/data/a.log");
                   ("html_path", JStr "/app/data/a.html");
                   ("screenshot_path", JStr "/app/data/a.png");
                   ("current_url", JStr "http://example.org/")]);
     date_str := "20261104";
     move_and_chown := fun src dst_dir => Ret (path_join2 dst_dir "moved") |}.

(* A run of the capture script that succeeds: status 0 and a complete
   manifest. *)
Definition env_ok : exec_env :=
  {| docker_exec := Ret {| returncode := 0; stdout := ""; stderr := "" |};
     meta_json :=
       Ret (JDict [("pcap_path", JStr "/app/data/a.pcap");
                   ("ssl_key_file_path", JStr "/app/data/a.log");
                   ("content_path", JStr "/app/data/a.txt");
                   ("html_path", JStr "/app/data/a.html");
                   ("screenshot_path", JStr "/app/data/a.png");
                   ("current_url", JStr "http://example.org/")]);
     date_str := "20261104";
     move_and_chown := fun src dst_dir => Ret (path_join2 dst_dir "moved") |}.

(* A run that exits with status 1. *)
Definition env_fail : exec_env :=
  {| docker_exec := Ret {| returncode := 1; stdout := ""; stderr := "boom" |};
     meta_json := meta_json env_ok;
     date_str := "20261104";
     move_and_chown := move_and_chown env_ok |}.

(* A run that exceeds DOCKER_EXEC_TIMEOUT. *)
Definition env_timeout : exec_env :=
  {| docker_exec := Raise {| exn_class_of := TimeoutExpired;
                             exn_str := "Command timed out";
                             exn_repr := "TimeoutExpired()" |};
     meta_json := meta_json env_ok;
     date_str := "20261104";
     move_and_chown := move_and_chown env_ok |}.

(* the tick that runs worker i at time t (both clocks read t) *)
Definition tick_at (i : nat) (t : Q) (e : exec_env) : tick :=
  {| who := i; wall := t; mono := t; env := e |}.

(* the three steps that take a task through worker i, from time t on *)
Definition one_task (i : nat) (t : Q) (e : exec_env) : list tick :=
  [tick_at i t e; tick_at i (t + 1) e; tick_at i (t + 2) e].

(* the configuration with another retry budget *)
Definition with_retry (cfg : config) (r : Z) : config :=
  {| CONTAINER_PREFIX := CONTAINER_PREFIX cfg; HOST_CODE_PATH := HOST_CODE_PATH cfg;
     BASE_DST := BASE_DST cfg; CONTAINER_COUNT := CONTAINER_COUNT cfg;
     CONTAINER_CODE_PATH := CONTAINER_CODE_PATH cfg;
     DOCKER_EXEC_TIMEOUT := DOCKER_EXEC_TIMEOUT cfg; RETRY := r;
     FIRST_EXEC_INTERVAL := FIRST_EXEC_INTERVAL cfg;
     DEFAULT_UID := DEFAULT_UID cfg; DEFAULT_GID := DEFAULT_GID cfg |}.

Definition no_progress : progress :=
  {| _global_ok := 0; _global_fail := 0; _global_task_time := 0%Q |}.

(* Pool of two, three jobs, retry budget 1.  Job 0 fails on A, is put back
   and fails again on A after B ran jobs 1 and 2; then both workers find
   the queue empty. *)
Definition three_jobs : list task :=
  [new_job "10" "http://a.example/" "a.example";
   new_job "11" "http://b.example/" "b.example";
   new_job "12" "http://c.example/" "c.example"].

Definition scenario_ticks : list tick :=
  (one_task 0 0 env_fail ++ one_task 1 3 env_ok ++ one_task 1 6 env_ok
   ++ one_task 0 9 env_fail
   ++ [tick_at 0 12 env_ok; tick_at 1 13 env_ok])%list.

(* Pool of one, eleven jobs, no retry: every job fails on its only
   attempt; then the worker finds the queue empty. *)
Definition eleven_jobs : list task :=
  map (fun k => new_job (str_of_int (Z.of_nat k)) "http://a.example/" "a.example")
      (seq 0 11).

Definition eleven_failures : list tick :=
  (flat_map (fun k => one_task 0 (inject_Z (3 * Z.of_nat k)) env_fail) (seq 0 11)
   ++ [tick_at 0 33 env_ok])%list.

(* a state with worker 0 behind the gate, task 0 in hand, on its first
   attempt *)
Definition in_exec_sample : sched :=
  run_ticks sample_cfg (RETRY sample_cfg)
    (batch_start throttle_init no_progress ["A"] three_jobs)
    [tick_at 0 0 env_ok; tick_at 0 1 env_ok].

(* A run that succeeds in the container, but the content file is gone
   when process_result comes to move it. *)
Definition env_content_gone : exec_env :=
  {| docker_exec := docker_exec env_ok;
     meta_json := meta_json env_ok;
     date_str := "20261104";
     move_and_chown := fun src dst_dir =>
       if String.eqb src "/srv/capture/data/a.txt"
       then Raise {| exn_class_of := FileNotFoundError;
                     exn_str := "[Errno 2] No such file or directory";
                     exn_repr := "FileNotFoundError(2, 'No such file or directory')" |}
       else Ret (path_join2 dst_dir "moved") |}.

(* --------------------------------------------------------------------- *)
(*  Reading the effects of exec_once                                       *)
(* --------------------------------------------------------------------- *)

(* os.path.join(self.BASE_DST, kind, date_str, domain), the directory
   process_result moves an artifact of that kind to *)
Definition store_dir (cfg : config) (env : exec_env) (t : task) (kind : string)
    : string :=
  path_join (BASE_DST cfg) [kind; date_str env; get_or (domain t) "unknown"].

(* the calls of on_task_success among the effects *)
Definition success_callback (fx : fs_effect) : list (task * result_paths) :=
  match fx with
  | FxOnTaskSuccess t paths => [(t, paths)]
  | _ => []
  end.

(* the files moved: (source, destination directory) *)
Definition moved_file (fx : fs_effect) : list (string * string) :=
  match fx with
  | FxMoveAndChown src dst_dir => [(src, dst_dir)]
  | _ => []
  end.

(* exec_once reported a success *)
Definition succeeded (r : py (bool * string)) : bool :=
  match r with
  | Ret (true, _) => true
  | _ => false
  end.

(* the five moves of process_result, in its order, for the manifest paths
   [ps] (pcap, ssl key, content, html, screenshot) *)
Definition artifact_kinds : list string :=
  ["pcap"; "ssl_key"; "content"; "html"; "screenshot"].

Definition expected_moves (cfg : config) (env : exec_env) (t : task)
    (ps : list string) : list (string * string) :=
  map (fun pk => (to_host_path cfg (fst pk), store_dir cfg env t (snd pk)))
      (combine ps artifact_kinds).

(* --------------------------------------------------------------------- *)
(*  Callbacks and the global counters, read off the trace                  *)
(* --------------------------------------------------------------------- *)

(* the calls of on_task_success (made by process_result) *)
Definition success_call (a : action) : list (task * result_paths) :=
  match a with
  | Exec fx => success_callback fx
  | _ => []
  end.

Definition on_task_success_calls (j : nat) (tr : list entry)
    : list (task * result_paths) :=
  per_task (fun _ a => success_call a) j tr.

(* the calls of on_task_failed (made by _handle_final_failure) *)
Definition failed_call (a : action) : list string :=
  match a with
  | OnTaskFailed err => [err]
  | _ => []
  end.

Definition on_task_failed_calls (j : nat) (tr : list entry) : list string :=
  per_task (fun _ a => failed_call a) j tr.

(* the elapsed times handed to _update_progress, in order *)
Definition elapsed_arg (a : action) : list Q :=
  match a with
  | Progress _ task_elapsed => [task_elapsed]
  | _ => []
  end.

Definition all_elapsed (tr : list entry) : list Q :=
  flat_map (fun e => elapsed_arg (what e)) tr.

(* Every job gets the callback of its outcome, once. *)
Record callback_inv (s : sched) : Prop := {
  ci_success : forall j,
    length (on_task_success_calls j (trace s))
    = count_occ Bool.bool_dec (outcomes j (trace s)) true;
  ci_failed : forall j,
    length (on_task_failed_calls j (trace s))
    = count_occ Bool.bool_dec (outcomes j (trace s)) false;
  ci_task : forall j t paths,
    In (t, paths) (on_task_success_calls j (trace s)) ->
    row_id t = row_id (task_of s j) /\ url t = url (task_of s j)
    /\ domain t = domain (task_of s j)
}.

(* The counters of the progress bar follow the counters of the batch. *)
Record progress_inv (p : progress) (s : sched) : Prop := {
  pi_ok : _global_ok (global_progress s) = _global_ok p + ok (batch_stats s);
  pi_fail : _global_fail (global_progress s) = _global_fail p + fail (batch_stats s);
  pi_time : _global_task_time (global_progress s)
            = fold_left Qplus (all_elapsed (trace s)) (_global_task_time p)
}.

(* --------------------------------------------------------------------- *)
(*  Another configuration of the throttle gate                             *)
(* --------------------------------------------------------------------- *)

(* the configuration with another FIRST_EXEC_INTERVAL *)
Definition with_interval (cfg : config) (i : Q) : config :=
  {| CONTAINER_PREFIX := CONTAINER_PREFIX cfg; HOST_CODE_PATH := HOST_CODE_PATH cfg;
     BASE_DST := BASE_DST cfg; CONTAINER_COUNT := CONTAINER_COUNT cfg;
     CONTAINER_CODE_PATH := CONTAINER_CODE_PATH cfg;
     DOCKER_EXEC_TIMEOUT := DOCKER_EXEC_TIMEOUT cfg; RETRY := RETRY cfg;
     FIRST_EXEC_INTERVAL := i;
     DEFAULT_UID := DEFAULT_UID cfg; DEFAULT_GID := DEFAULT_GID cfg |}.

(* --------------------------------------------------------------------- *)
(*  read_jobs_from_csv (lines 278-306)                                     *)
(* --------------------------------------------------------------------- *)

(* get_case_insensitive, the closure of read_jobs_from_csv:
     for k, v in row.items():
         if k.lower() == key: return (v or "").strip()
     return ""
   The key None of a long row has no method lower. *)
Fixpoint get_ci_items (its : list (string * option string)) (key : string)
    : option string :=
  match its with
  | [] => None
  | (k, v) :: its' =>
      if String.eqb (lower k) key
      then Some (strip (match v with Some s => s | None => "" end))
      else get_ci_items its' key
  end.

Definition get_case_insensitive (row : row_dict) (key : string) : py string :=
  match get_ci_items (items row) key with
  | Some s => Ret s
  | None =>
      match rest row with
      | Some _ => Raise none_has_no_lower
      | None => Ret ""
      end
  end.

(* the loop over the reader:
     for r in reader:
         rid = ...; url = ...; dom = ...
         if not url: continue
         jobs.append({"row_id": rid, "url": url, "domain": dom})          *)
Fixpoint read_rows (rows : list row_dict) (jobs : list task) : py (list task) :=
  match rows with
  | [] => Ret jobs
  | r :: rows' =>
      do rid <- get_case_insensitive r "id" ;
      do u <- get_case_insensitive r "url" ;
      do dom <- get_case_insensitive r "domain" ;
      if String.eqb u "" then read_rows rows' jobs
      else read_rows rows' (jobs ++ [new_job rid u dom])%list
  end.

(* read_jobs_from_csv(csv_path) on the file at csv_path (None when the
   path does not exist): the jobs and the header fields. *)
Definition read_jobs_from_csv (file : option csv_content)
    : py (list task * list string) :=
  match file with
  | None => Ret ([], ["id"; "url"; "domain"])
  | Some [] => Ret ([], ["id"; "url"; "domain"])    (* reader.fieldnames is None *)
  | Some (fieldnames :: records) =>
      let header_fields := map strip fieldnames in
      do jobs <- read_rows (dictreader_rows fieldnames records) [] ;
      Ret (jobs, header_fields)
  end.

(* On records: the cell of a record in the first column whose name
   lower-cases to key, stripped; empty without such a column or cell. *)
Fixpoint ci_cell (key : string) (header : list string) (row : csv_record) : string :=
  match header, row with
  | k :: header', c :: row' =>
      if String.eqb (lower k) key then strip c else ci_cell key header' row'
  | _, _ => ""
  end.

(* the job a record gives, none when its url is blank *)
Definition job_of_record (header : list string) (r : csv_record) : list task :=
  let u := ci_cell "url" header r in
  if String.eqb u "" then []
  else [new_job (ci_cell "id" header r) u (ci_cell "domain" header r)].

(* the jobs without the first one with this row_id *)
Fixpoint drop_job (target : string) (jobs : list task) : list task :=
  match jobs with
  | [] => []
  | t :: jobs' =>
      if String.eqb (get_or (row_id t) "") target then jobs'
      else t :: drop_job target jobs'
  end.

(* the header has a column for key *)
Definition has_column (key : string) (fieldnames : list string) : bool :=
  existsb (fun k => String.eqb (lower k) key) fieldnames.

(* --------------------------------------------------------------------- *)
(*  The container pool: container_exists (lines 109-115),                  *)
(*  container_running (117-120), build_container_names (186-188)           *)
(* --------------------------------------------------------------------- *)

(* container_exists(name), from what
   docker inspect -f {{.State.Running}} name answered: None when the
   command failed, else whether it printed true or false. *)
Definition container_exists (cp : completed_process) : option bool :=
  if negb (returncode cp =? 0) then None
  else
    let out := lower (strip (stdout cp)) in
    Some (String.eqb out "true" || String.eqb out "false").

(* container_running(name), from the answer of the same command *)
Definition container_running (cp : completed_process) : bool :=
  (returncode cp =? 0) && String.eqb (lower (strip (stdout cp))) "true".

(* [f"{self.CONTAINER_PREFIX}{i}" for i in range(self.CONTAINER_COUNT)] *)
Definition build_container_names (cfg : config) : list string :=
  map (fun i => CONTAINER_PREFIX cfg ++ str_of_int (Z.of_nat i))
      (seq 0 (Z.to_nat (CONTAINER_COUNT cfg))).

(* --------------------------------------------------------------------- *)
(*  The tree chown_recursive walks                                         *)
(* --------------------------------------------------------------------- *)




(* --------------------------------------------------------------------- *)
(*  How many steps a batch has left                                        *)
(* --------------------------------------------------------------------- *)

(* the steps the retries of a task at attempt a can still take *)
Definition budget (retry a : Z) : nat := 3 * Z.to_nat (retry - a).

(* a queued task is three steps (get, gate, exec) from its next outcome *)
Definition queue_weight (retry : Z) (s : sched) : nat :=
  list_sum (map (fun j => budget retry (attempt_of (task_of s j)) + 3)%nat (queue s)).

(* a worker that has not returned has one step to return, and the steps
   of the task it holds *)
Definition worker_weight (retry : Z) (w : worker) : nat :=
  match w_state w with
  | AtLoopHead => 1
  | AtGate _ a _ => budget retry a + 3
  | InExec _ a _ => budget retry a + 2
  | Returned => 0
  end.

Definition steps_left (retry : Z) (s : sched) : nat :=
  queue_weight retry s + list_sum (map (worker_weight retry) (workers s)).

(* the steps a batch can take at most: one per worker to return, and for
   every job three per attempt it has left *)
Definition initial_budget (retry : Z) (names : list string) (jobs : list task)
    : nat :=
  length names
  + list_sum (map (fun t => budget retry (attempt_of t) + 3)%nat jobs).

(* a stretch of a schedule in which each of the W worker threads runs at
   least once *)
Definition covers (W : nat) (round : list tick) : bool :=
  forallb (fun i => existsb (fun tk => Nat.eqb (who tk) i) round) (seq 0 W).

(* when every worker has returned, the queue is empty *)
Definition drained (s : sched) : Prop :=
  forallb is_returned (workers s) = true -> queue s = [].

(* every worker runs once, at time t, with the answers e *)
Definition round_robin (W : nat) (t : Q) (e : exec_env) : list tick :=
  map (fun i => tick_at i t e) (seq 0 W).

(* --------------------------------------------------------------------- *)
(*  prepare_pool_once (lines 190-228), with ensure_docker_available        *)
(*  (101-107), create_container (122-145), start_container (147-153) and   *)
(*  disable_offload_once (155-177)                                         *)
(* --------------------------------------------------------------------- *)

(* What the environment answers while the pool is prepared: run_cmd
   returns a CompletedProcess or raises.  The container names of a pool are
   distinct, so every command is issued at most once per name and pass, and
   an answer per name covers whatever docker may answer. *)
Record pool_env := {
  docker_version : py completed_process;          (* docker version *)
  host_code_exists : py bool;                     (* host_code.exists() *)
  inspect_first : string -> py completed_process; (* docker inspect, pass 1 *)
  docker_run : string -> py completed_process;    (* docker run ... --name name *)
  inspect_second : string -> py completed_process;(* docker inspect, pass 2 *)
  docker_start : string -> py completed_process;  (* docker start name *)
  offload_exec : string -> py completed_process   (* docker exec name sh -lc ... *)
}.

(* The commands prepare_pool_once issues and its sleep; the lines it logs
   are left out. *)
Inductive pool_action :=
| DockerVersion
| DockerInspect (name : string)
| DockerRun (name : string)
| DockerStart (name : string)
| DisableOffload (name : string)
| PoolSleep (secs : Z).

(* How a call ends. *)
Inductive ending (A : Type) :=
| Finished (a : A)          (* it returns a *)
| SysExit (code : Z)        (* sys.exit(code) *)
| Raised (e : py_exn).      (* an exception of run_cmd comes out of it *)
Arguments Finished {A} a.
Arguments SysExit {A} code.
Arguments Raised {A} e.

(* ensure_docker_available(): True when it returns.  check_returncode()
   raises on a status other than 0, and every Exception ends in
   sys.exit(2). *)
Definition ensure_docker_available (e : pool_env) : bool :=
  match docker_version e with
  | Ret cp => returncode cp =? 0
  | Raise _ => false
  end.

(* create_container(name, host_code_path, image) *)
Definition create_container (e : pool_env) (name : string) : ending unit :=
  match docker_run e name with
  | Raise x => Raised x
  | Ret cp => if negb (returncode cp =? 0) then SysExit 2 else Finished tt
  end.

(* start_container(name) *)
Definition start_container (e : pool_env) (name : string) : ending unit :=
  match docker_start e name with
  | Raise x => Raised x
  | Ret cp => if negb (returncode cp =? 0) then SysExit 2 else Finished tt
  end.

(* disable_offload_once(name): a status other than 0 is logged as a
   warning *)
Definition disable_offload_once (e : pool_env) (name : string) : ending unit :=
  match offload_exec e name with
  | Raise x => Raised x
  | Ret _ => Finished tt
  end.

(* check_and_create(name), run in a thread of the pool: the commands it
   issues, and whether it appended name to created.  What the call raises,
   the SystemExit of create_container included, is kept in its future,
   which pool.map(...) without a reader of its results never raises. *)
Definition check_and_create (e : pool_env) (name : string)
    : list pool_action * bool :=
  match inspect_first e name with
  | Raise _ => ([DockerInspect name], false)
  | Ret cp =>
      match container_exists cp with
      | None =>
          match create_container e name with
          | Finished _ => ([DockerInspect name; DockerRun name], true)
          | _ => ([DockerInspect name; DockerRun name], false)
          end
      | Some _ => ([DockerInspect name], false)
      end
  end.

(* Pass 2: for n in names: if not container_running(n): start_container(n) *)
Fixpoint start_stopped (e : pool_env) (names : list string)
    : ending unit * list pool_action :=
  match names with
  | [] => (Finished tt, [])
  | n :: names' =>
      match inspect_second e n with
      | Raise x => (Raised x, [DockerInspect n])
      | Ret cp =>
          if container_running cp then
            let '(r, acts) := start_stopped e names' in
            (r, DockerInspect n :: acts)
          else
            match start_container e n with
            | Finished _ =>
                let '(r, acts) := start_stopped e names' in
                (r, DockerInspect n :: DockerStart n :: acts)
            | SysExit c => (SysExit c, [DockerInspect n; DockerStart n])
            | Raised x => (Raised x, [DockerInspect n; DockerStart n])
            end
      end
  end.

(* Pass 3: for n in created: disable_offload_once(n) *)
Fixpoint disable_offload_all (e : pool_env) (created : list string)
    : ending unit * list pool_action :=
  match created with
  | [] => (Finished tt, [])
  | n :: created' =>
      match disable_offload_once e n with
      | Finished _ =>
          let '(r, acts) := disable_offload_all e created' in
          (r, DisableOffload n :: acts)
      | SysExit c => (SysExit c, [DisableOffload n])
      | Raised x => (Raised x, [DisableOffload n])
      end
  end.

(* How prepare_pool_once ends. *)
Inductive pool_outcome :=
| PoolReady (names : list string)     (* return names *)
| PoolExit (code : Z)                 (* sys.exit(code) *)
| PoolIndexError                      (* names[0] of an empty list *)
| PoolRaise (e : py_exn).

Definition pool_end (r : ending unit) (names : list string) : pool_outcome :=
  match r with
  | Finished _ => PoolReady names
  | SysExit c => PoolExit c
  | Raised x => PoolRaise x
  end.

(* the list created after pass 1 *)
Definition created_in (e : pool_env) (finished : list string) : list string :=
  List.filter (fun n => snd (check_and_create e n)) finished.

(* prepare_pool_once().  Pass 1 runs check_and_create on every name in up
   to 20 threads; [finished] lists the names in the order in which these
   calls finish, which is the order of created.  The trace keeps the
   commands of one call of pass 1 together, where the threads may
   interleave them. *)
Definition prepare_pool_once (cfg : config) (e : pool_env)
    (finished : list string) : pool_outcome * list pool_action :=
  if negb (ensure_docker_available e) then (PoolExit 2, [DockerVersion])
  else
    match host_code_exists e with
    | Raise x => (PoolRaise x, [DockerVersion])
    | Ret _ =>
        let names := build_container_names cfg in
        match names with
        | [] => (PoolIndexError, [DockerVersion])
        | _ =>
            let pass1 := flat_map (fun n => fst (check_and_create e n)) finished in
            let created := created_in e finished in
            let '(r2, pass2) := start_stopped e names in
            match r2 with
            | Finished _ =>
                let '(r3, pass3) := disable_offload_all e created in
                (pool_end r3 names,
                 DockerVersion :: pass1 ++ pass2 ++ PoolSleep 5 :: pass3)
            | _ => (pool_end r2 names, DockerVersion :: pass1 ++ pass2)
            end
        end
    end.

(* docker: every command succeeds; the containers whose name [missing]
   holds of do not exist before pass 1, the others exist and are stopped *)
Definition docker_up (missing : string -> bool) : pool_env :=
  let done := Ret {| returncode := 0; stdout := ""; stderr := "" |} in
  {| docker_version := done;
     host_code_exists := Ret true;
     inspect_first := fun n =>
       if missing n
       then Ret {| returncode := 1; stdout := ""; stderr := "No such object" |}
       else Ret {| returncode := 0; stdout := "false"; stderr := "" |};
     docker_run := fun _ => done;
     inspect_second := fun n =>
       if missing n
       then Ret {| returncode := 0; stdout := "true"; stderr := "" |}
       else Ret {| returncode := 0; stdout := "false"; stderr := "" |};
     docker_start := fun _ => done;
     offload_exec := fun _ => done |}.

(* the same, but docker run fails for every container *)
Definition docker_run_fails : pool_env :=
  {| docker_version := docker_version (docker_up (fun _ => true));
     host_code_exists := Ret true;
     inspect_first := inspect_first (docker_up (fun _ => true));
     docker_run := fun _ =>
       Ret {| returncode := 125; stdout := ""; stderr := "no space left" |};
     inspect_second := fun _ =>
       Ret {| returncode := 1; stdout := ""; stderr := "No such object" |};
     docker_start := fun _ =>
       Ret {| returncode := 1; stdout := ""; stderr := "No such container" |};
     offload_exec := offload_exec (docker_up (fun _ => true)) |}.

(* --------------------------------------------------------------------- *)
(*  run (lines 588-650): the loop over the batches                         *)
(* --------------------------------------------------------------------- *)

(* What the environment supplies to one round of the loop: what
   fetch_jobs() returns or raises, the schedule of the pool while run_once
   runs the batch, an exception that comes out of
   clear_host_code_subdirs(), and what should_continue() answers. *)
Record round := {
  fetch_jobs : py (list task);
  schedule : list tick;
  clear_raises : option py_exn;
  should_continue : bool
}.

(* The lines run logs in the loop. *)
Inductive run_line :=
| RNoJobs                                           (* no jobs left, exit *)
| RBatch (batch_num : Z) (n_jobs : nat)             (* ===== batch n: k jobs ===== *)
| RSummary (batch_num : Z) (success failed : Z) (total : nat)
| RSamples                                          (* the head line of the samples *)
| RSample (row url err : string)                    (* - id=.. url=.. err=.. *)
| RWarn (msg : string).                             (* WARN: ... {e} *)

(* self._first_exec_*, the global counters, batch_num and the lines logged *)
Record run_state := {
  r_gate : throttle;
  r_progress : progress;
  r_batch_num : Z;
  r_log : list run_line
}.

Definition run_logged (st : run_state) (lines : list run_line) : run_state :=
  {| r_gate := r_gate st; r_progress := r_progress st;
     r_batch_num := r_batch_num st; r_log := (r_log st ++ lines)%list |}.

(* the lines logged after run_once returned stats *)
Definition batch_report (batch_num : Z) (n_jobs : nat) (s : sched) : list run_line :=
  RSummary batch_num (ok (batch_stats s)) (fail (batch_stats s)) n_jobs
  :: match errors (batch_stats s) with
     | [] => []
     | _ => RSamples
            :: map (fun x => RSample (fst (fst x)) (snd (fst x)) (snd x))
                   (error_samples s)
     end.

(* ThreadPoolExecutor(max_workers=0) *)
Definition no_workers : py_exn :=
  {| exn_class_of := ValueError;
     exn_str := "max_workers must be greater than 0";
     exn_repr := "ValueError('max_workers must be greater than 0')" |}.

(* The while loop of run with its except clause, from the state [st] on.
   None when the rounds end before the loop does, or when the schedule of a
   round ends before its batch does. *)
Fixpoint run_loop (cfg : config) (names : list string) (st : run_state)
    (rounds : list round) : option run_state :=
  match rounds with
  | [] => None
  | r :: rounds' =>
      match fetch_jobs r with
      | Raise e => Some (run_logged st [RWarn (exn_str e)])
      | Ret [] => Some (run_logged st [RNoJobs])
      | Ret jobs =>
          let n := r_batch_num st + 1 in
          match names with
          | [] =>
              Some {| r_gate := r_gate st; r_progress := r_progress st;
                      r_batch_num := n;
                      r_log := (r_log st ++ [RBatch n (length jobs);
                                             RWarn (exn_str no_workers)])%list |}
          | _ =>
              let s := batch_state cfg (r_gate st) (r_progress st) names jobs
                         (schedule r) in
              if batch_finished s then
                let st' :=
                  {| r_gate := gate s; r_progress := global_progress s;
                     r_batch_num := n;
                     r_log := (r_log st ++ RBatch n (length jobs)
                                 :: batch_report n (length jobs) s)%list |} in
                match clear_raises r with
                | Some e => Some (run_logged st' [RWarn (exn_str e)])
                | None =>
                    if should_continue r then run_loop cfg names st' rounds'
                    else Some st'
                end
              else None
          end
      end
  end.

(* How run ends: with its final summary, or where prepare_pool_once
   ended. *)
Inductive run_end :=
| RunSummary (st : run_state)
| RunNoPool (o : pool_outcome).

(* run(), from prepare_pool_once on.  The throttle gate is the one of the
   object; the global counters and batch_num start from zero. *)
Definition run (cfg : config) (e : pool_env) (finished : list string)
    (g : throttle) (rounds : list round) : option run_end :=
  match fst (prepare_pool_once cfg e finished) with
  | PoolReady names =>
      option_map RunSummary
        (run_loop cfg names
           {| r_gate := g;
              r_progress := {| _global_ok := 0; _global_fail := 0;
                               _global_task_time := 0 |};
              r_batch_num := 0; r_log := [] |}
           rounds)
  | o => Some (RunNoPool o)
  end.

(* total_done = self._global_ok + self._global_fail *)
Definition total_done (p : progress) : Z := _global_ok p + _global_fail p.

(* avg_time = self._global_task_time / total_done if total_done > 0 else 0 *)
Definition avg_time (p : progress) : Q :=
  if 0 <? total_done p then (_global_task_time p / inject_Z (total_done p))%Q
  else 0%Q.

(* The batches the loop runs, read off what fetch_jobs, should_continue
   and clear_host_code_subdirs answer. *)
Fixpoint batches_run (rounds : list round) : list (list task) :=
  match rounds with
  | [] => []
  | r :: rounds' =>
      match fetch_jobs r with
      | Ret (t :: jobs) =>
          (t :: jobs)
          :: match clear_raises r with
             | Some _ => []
             | None => if should_continue r then batches_run rounds' else []
             end
      | _ => []
      end
  end.

(* the summary lines of a log: (success, failed, total) *)
Definition summary_of (l : run_line) : list (Z * Z * nat) :=
  match l with
  | RSummary _ success failed total => [(success, failed, total)]
  | _ => []
  end.

Definition summaries (log : list run_line) : list (Z * Z * nat) :=
  flat_map summary_of log.

(* whether a round ends the loop once its batch is done *)
Definition last_round (r : round) : bool :=
  match fetch_jobs r with
  | Ret (_ :: _) =>
      match clear_raises r with
      | Some _ => true
      | None => negb (should_continue r)
      end
  | _ => true
  end.

(* the schedule of a round lets every worker run, stretch after stretch,
   for as long as its batch can take *)
Definition fair_round (cfg : config) (names : list string) (r : round) : Prop :=
  match fetch_jobs r with
  | Ret (t :: jobs) =>
      exists stretches,
        schedule r = concat stretches
        /\ Forall (fun x => covers (length names) x = true) stretches
        /\ (initial_budget (RETRY cfg) names (t :: jobs) <= length stretches)%nat
  | _ => True
  end.

(* two batches: the three jobs, then one job; then fetch_jobs returns
   nothing *)
Definition two_batches : list round :=
  [ {| fetch_jobs := Ret three_jobs;
       schedule := concat (repeat (round_robin 3 0 env_ok) 57);
       clear_raises := None; should_continue := true |};
    {| fetch_jobs := Ret [new_job "13" "http://d.example/" "d.example"];
       schedule := concat (repeat (round_robin 3 50 env_fail) 21);
       clear_raises := None; should_continue := true |};
    {| fetch_jobs := Ret []; schedule := [];
       clear_raises := None; should_continue := true |} ].

(* a summary line adds up: success + failed = total, none negative *)
Definition adds_up (x : Z * Z * nat) : Prop :=
  fst (fst x) + snd (fst x) = Z.of_nat (snd x)
  /\ 0 <= fst (fst x) /\ 0 <= snd (fst x).

Definition sum_Z (l : list Z) : Z := fold_right Z.add 0 l.

(* What the loop adds to a state when it logs the summary lines [new]:
   one batch per line, and the successes and failures of the lines on the
   global counters. *)
Record run_adds (st st' : run_state) (new : list (Z * Z * nat)) : Prop := {
  ra_log : summaries (r_log st') = (summaries (r_log st) ++ new)%list;
  ra_sums : Forall adds_up new;
  ra_batches : r_batch_num st' = r_batch_num st + Z.of_nat (length new);
  ra_ok : _global_ok (r_progress st')
          = _global_ok (r_progress st) + sum_Z (map (fun x => fst (fst x)) new);
  ra_fail : _global_fail (r_progress st')
            = _global_fail (r_progress st) + sum_Z (map (fun x => snd (fst x)) new)
}.

(* --------------------------------------------------------------------- *)
(*  The container a task is executed in                                    *)
(* --------------------------------------------------------------------- *)


(* ===================================================================== *)
(*  PART II.  PROPERTIES                                                   *)
(* ===================================================================== *)

Local Open Scope list_scope.

Lemma int_or_falsy (x : option Z) (dflt : Z) :
  x = None \/ x = Some 0 -> int_or x dflt = dflt.
Proof. intros [-> | ->]; reflexivity. Qed.

Lemma int_or_zero (x : option Z) (dflt : Z) :
  int_or x dflt = 0 -> dflt = 0.
Proof.
  unfold int_or. destruct x as [v|]; [|tauto].
  destruct (Z.eqb_spec v 0); congruence.
Qed.

Lemma chown_recursive_calls cfg n path uid gid c :
  In c (chown_recursive cfg n path uid gid) ->
  chown_uid c = int_or uid (DEFAULT_UID cfg) /\
  chown_gid c = int_or gid (DEFAULT_GID cfg).
Proof.
  unfold chown_recursive. intros [<- | Hin]; [split; reflexivity|].
  destruct (is_dir n); [|destruct Hin].
  apply in_map_iff in Hin as (p & <- & _). split; reflexivity.
Qed.

(** C10: chown_recursive(path, uid, gid) applies DEFAULT_UID whenever uid is
    None or 0 and DEFAULT_GID whenever gid is None or 0; a non-zero argument
    is applied as given.  Hence an ownership of 0 in any chown call it makes
    never comes from the parameters: it can only be the configured default. *)
Theorem chown_recursive_default_ids (cfg : config) (n : fsnode) (path : string)
    (uid gid : option Z) :
  let calls := chown_recursive cfg n path uid gid in
  In {| chown_path := path;
        chown_uid := int_or uid (DEFAULT_UID cfg);
        chown_gid := int_or gid (DEFAULT_GID cfg) |} calls /\
  (uid = None \/ uid = Some 0 ->
     forall c, In c calls -> chown_uid c = DEFAULT_UID cfg) /\
  (gid = None \/ gid = Some 0 ->
     forall c, In c calls -> chown_gid c = DEFAULT_GID cfg) /\
  (forall u, uid = Some u -> u <> 0 ->
     forall c, In c calls -> chown_uid c = u) /\
  (forall g, gid = Some g -> g <> 0 ->
     forall c, In c calls -> chown_gid c = g) /\
  (forall c, In c calls -> chown_uid c = 0 -> DEFAULT_UID cfg = 0) /\
  (forall c, In c calls -> chown_gid c = 0 -> DEFAULT_GID cfg = 0).
Proof.
  cbv zeta. repeat split.
  - left. reflexivity.
  - intros Hu c Hc. apply chown_recursive_calls in Hc as [-> _].
    now apply int_or_falsy.
  - intros Hg c Hc. apply chown_recursive_calls in Hc as [_ ->].
    now apply int_or_falsy.
  - intros u -> Hu c Hc. apply chown_recursive_calls in Hc as [-> _].
    cbn. destruct (Z.eqb_spec u 0); congruence.
  - intros g -> Hg c Hc. apply chown_recursive_calls in Hc as [_ ->].
    cbn. destruct (Z.eqb_spec g 0); congruence.
  - intros c Hc H0. apply chown_recursive_calls in Hc as [Hu _].
    rewrite Hu in H0. now apply int_or_zero in H0.
  - intros c Hc H0. apply chown_recursive_calls in Hc as [_ Hg].
    rewrite Hg in H0. now apply int_or_zero in H0.
Qed.

(* move_and_chown calls chown_recursive(new_path) with both ids omitted: a
   directory with a file, a sub-directory and a link to a directory, under
   the defaults 1000:1001.  The link is chowned but not entered. *)
Example chown_recursive_sample :
  map chown_path
    (chown_recursive sample_cfg
       (FsDir [("a.pcap", FsFile);
               ("sub", FsDir [("k.log", FsFile)]);
               ("ln", FsSymlink (Some (FsDir [("hidden", FsFile)])))])
       "/netdisk/out/pcap" None (Some 0))
  = ["/netdisk/out/pcap"; "/netdisk/out/pcap/sub"; "/netdisk/out/pcap/ln";
     "/netdisk/out/pcap/a.pcap"; "/netdisk/out/pcap/sub/k.log"].
Proof. reflexivity. Qed.

(* --------------------------------------------------------------------- *)
(*  remove_from_csv                                                        *)
(* --------------------------------------------------------------------- *)

Lemma dict_get_notin {V : Type} (d : list (string * V)) (k : string) :
  ~ In k (map fst d) -> dict_get d k = None.
Proof.
  induction d as [|[k' v] d IH]; cbn; [reflexivity|].
  intros Hn. destruct (String.eqb_spec k k') as [->|Hne]; [tauto|].
  apply IH. tauto.
Qed.

Lemma dict_set_fresh {V : Type} (d : list (string * V)) (k : string) (v : V) :
  ~ In k (map fst d) -> dict_set d k v = d ++ [(k, v)].
Proof.
  induction d as [|[k' v'] d IH]; cbn; [reflexivity|].
  intros Hn. destruct (String.eqb_spec k k') as [->|Hne]; [tauto|].
  rewrite IH; [reflexivity|tauto].
Qed.

Lemma dict_of_fresh {V : Type} (pairs acc : list (string * V)) :
  List.NoDup (map fst (acc ++ pairs)) ->
  fold_left (fun d kv => dict_set d (fst kv) (snd kv)) pairs acc = acc ++ pairs.
Proof.
  revert acc. induction pairs as [|[k v] pairs IH]; intros acc Hnd; cbn.
  - now rewrite app_nil_r.
  - rewrite dict_set_fresh.
    + rewrite IH; rewrite <- app_assoc; [reflexivity|exact Hnd].
    + rewrite map_app in Hnd. cbn in Hnd.
      apply NoDup_remove_2 in Hnd. intros Hin. apply Hnd.
      apply in_or_app. now left.
Qed.

Lemma map_fst_combine {A B : Type} (ks : list A) (vs : list B) :
  length ks = length vs -> map fst (combine ks vs) = ks.
Proof.
  revert vs. induction ks as [|k ks IH]; intros [|v vs] Hlen; cbn in *;
    try discriminate; [reflexivity|].
  f_equal. apply IH. lia.
Qed.

(* On a line with as many cells as the header has (distinct) names,
   DictReader pairs the names with the cells, in order. *)
Lemma dictreader_row_rect (header : list string) (row : csv_record) :
  List.NoDup header -> length row = length header ->
  dictreader_row header row =
    {| items := combine header (map Some row); rest := None |}.
Proof.
  intros Hnd Hlen. unfold dictreader_row.
  replace (length header <? length row)%nat with false
    by (symmetry; apply Nat.ltb_ge; lia).
  cbv zeta. rewrite Hlen, skipn_all. cbn. f_equal.
  unfold dict_of. rewrite dict_of_fresh; [reflexivity|].
  cbn. rewrite map_fst_combine; [exact Hnd|].
  rewrite length_map. lia.
Qed.

Lemma get_id_items_rect (header : list string) (row : csv_record) :
  length row = length header ->
  match get_id_items (combine header (map Some row)) with
  | Some s => s
  | None => ""
  end = id_of_record header row.
Proof.
  revert row. induction header as [|k header IH]; intros [|c row] Hlen;
    cbn in *; try discriminate; [reflexivity|].
  destruct (String.eqb (lower k) "id"); [reflexivity|].
  apply IH. lia.
Qed.

Lemma get_id_rect (header : list string) (row : csv_record) :
  List.NoDup header -> length row = length header ->
  get_id (dictreader_row header row) = Ret (id_of_record header row).
Proof.
  intros Hnd Hlen. rewrite dictreader_row_rect by assumption.
  unfold get_id. cbn. rewrite <- (get_id_items_rect header row Hlen).
  destruct (get_id_items _); reflexivity.
Qed.

Lemma dict_to_list_rect (header : list string) (row : csv_record) :
  List.NoDup header -> length row = length header ->
  dict_to_list header (dictreader_row header row) = Ret row.
Proof.
  intros Hnd Hlen. rewrite dictreader_row_rect by assumption.
  unfold dict_to_list. cbn.
  assert (Hkeys : forallb (fun kv => existsb (String.eqb (fst kv)) header)
                    (combine header (map Some row)) = true).
  { apply forallb_forall. intros [k v] Hin. cbn.
    apply existsb_exists. exists k. split; [|apply String.eqb_refl].
    now apply in_combine_l in Hin. }
  rewrite Hkeys. f_equal.
  clear Hkeys. revert row Hlen.
  induction Hnd as [|k header Hk Hnd IH]; intros [|c row] Hlen;
    cbn in *; try discriminate; [reflexivity|].
  rewrite String.eqb_refl. f_equal.
  erewrite map_ext_in; [apply IH; lia|].
  intros key Hkey. cbn.
  destruct (String.eqb_spec key k) as [->|Hne]; [contradiction|reflexivity].
Qed.

Lemma writerows_rect (header : list string) (rows : csv_content) :
  List.NoDup header -> Forall (fun r => length r = length header) rows ->
  writerows header (map (dictreader_row header) rows) = Ret rows.
Proof.
  intros Hnd. induction 1 as [|r rows Hr Hrows IH]; cbn; [reflexivity|].
  rewrite dict_to_list_rect by assumption. cbn. rewrite IH. reflexivity.
Qed.

(* once a row was removed, the loop copies the rest *)
Lemma drop_first_match_removed (target : string) (rows acc : list row_dict) :
  drop_first_match target rows true acc = Ret (true, acc ++ rows).
Proof.
  revert acc. induction rows as [|r rows IH]; intros acc; cbn.
  - now rewrite app_nil_r.
  - rewrite IH, <- app_assoc. reflexivity.
Qed.

Lemma drop_first_match_rect (header : list string) (target : string)
    (rows : csv_content) (acc : list row_dict) :
  List.NoDup header -> Forall (fun r => length r = length header) rows ->
  drop_first_match target (map (dictreader_row header) rows) false acc =
    Ret (match delete_first_id header target rows with
         | Some rem => (true, acc ++ map (dictreader_row header) rem)
         | None => (false, acc ++ map (dictreader_row header) rows)
         end).
Proof.
  intros Hnd Hrect. revert acc.
  induction Hrect as [|r rows Hr Hrows IH]; intros acc; cbn.
  - now rewrite app_nil_r.
  - rewrite get_id_rect by assumption. cbn.
    destruct (String.eqb (id_of_record header r) target).
    + apply drop_first_match_removed.
    + rewrite IH. destruct (delete_first_id header target rows); cbn;
        rewrite <- app_assoc; reflexivity.
Qed.

(* what delete_first_id computes *)
Lemma delete_first_id_none (header : list string) (target : string)
    (rows : csv_content) :
  delete_first_id header target rows = None <->
  forall r, In r rows -> id_of_record header r <> target.
Proof.
  induction rows as [|r rows IH]; cbn.
  - split; [intros _ r []|reflexivity].
  - destruct (String.eqb_spec (id_of_record header r) target) as [He|Hne].
    + split; [discriminate|]. intros H. exfalso. apply (H r); auto.
    + destruct (delete_first_id header target rows) eqn:Hd; cbn.
      * split; [discriminate|]. intros H. destruct IH as [_ IH].
        discriminate IH. intros x Hx. apply H. now right.
      * split; [|reflexivity]. intros _ x [<-|Hx]; [assumption|].
        destruct IH as [IH _]. now apply IH.
Qed.

Lemma delete_first_id_some (header : list string) (target : string)
    (rows rem : csv_content) :
  delete_first_id header target rows = Some rem ->
  exists pre r post,
    rows = pre ++ r :: post /\ rem = pre ++ post /\
    id_of_record header r = target /\
    forall x, In x pre -> id_of_record header x <> target.
Proof.
  revert rem. induction rows as [|r rows IH]; cbn; intros rem; [discriminate|].
  destruct (String.eqb_spec (id_of_record header r) target) as [He|Hne].
  - intros [= <-]. exists [], r, rows. cbn. repeat split; [assumption|].
    intros x [].
  - destruct (delete_first_id header target rows) as [rem'|]; cbn; [|discriminate].
    intros [= <-]. destruct (IH rem' eq_refl) as (pre & x & post & -> & -> & Hx & Hpre).
    exists (r :: pre), x, post. cbn. repeat split; [assumption|].
    intros y [<-|Hy]; [assumption|now apply Hpre].
Qed.

Lemma dictreader_rows_rect (header : list string) (rows : csv_content) :
  header <> [] -> Forall (fun r => length r = length header) rows ->
  dictreader_rows header rows = map (dictreader_row header) rows.
Proof.
  intros Hh Hrect. unfold dictreader_rows. f_equal.
  induction Hrect as [|r rows Hr Hrows IH]; cbn; [reflexivity|].
  destruct r as [|c r]; [destruct header; [congruence|discriminate]|].
  now rewrite IH.
Qed.

(* the file after the call, on a rectangular file *)
Lemma remove_from_csv_rect (header : list string) (rows : csv_content)
    (row_id : string) :
  List.NoDup header -> Forall (fun r => length r = length header) rows ->
  strip row_id <> "" ->
  remove_from_csv (Some (header :: rows)) row_id =
    (Ret tt,
     Some (header :: match delete_first_id header (strip row_id) rows with
                     | Some rem => rem
                     | None => rows
                     end)).
Proof.
  intros Hnd Hrect Hid. unfold remove_from_csv.
  destruct (String.eqb_spec (strip row_id) "") as [He|_]; [contradiction|].
  destruct header as [|k header].
  - (* a blank header line: every record is blank and is skipped *)
    assert (Hnone : delete_first_id [] (strip row_id) rows = None).
    { apply delete_first_id_none. intros r _. cbn. destruct r; congruence. }
    rewrite Hnone. clear Hnone.
    assert (Hrows : dictreader_rows [] rows = []).
    { unfold dictreader_rows.
      induction Hrect as [|r rows Hr Hrows IH]; cbn; [reflexivity|].
      destruct r; [exact IH|discriminate]. }
    rewrite Hrows. reflexivity.
  - rewrite dictreader_rows_rect by (assumption || discriminate).
    rewrite (drop_first_match_rect (k :: header)) by assumption.
    destruct (delete_first_id (k :: header) (strip row_id) rows) as [rem|] eqn:Hd;
      [|reflexivity].
    cbn [app].
    rewrite writerows_rect; [reflexivity|assumption|].
    apply delete_first_id_some in Hd as (pre & r & post & -> & -> & _).
    apply Forall_app in Hrect as [Hpre Hpost]. apply Forall_app. split; [assumption|].
    now inversion Hpost.
Qed.

Lemma delete_first_id_split (header : list string) (target : string)
    (pre : csv_content) (r : csv_record) (post : csv_content) :
  id_of_record header r = target ->
  (forall x, In x pre -> id_of_record header x <> target) ->
  delete_first_id header target (pre ++ r :: post) = Some (pre ++ post).
Proof.
  intros Hr. induction pre as [|x pre IH]; intros Hpre; cbn.
  - rewrite Hr, String.eqb_refl. reflexivity.
  - destruct (String.eqb_spec (id_of_record header x) target) as [He|_].
    + exfalso. apply (Hpre x); [now left|assumption].
    + rewrite IH; [reflexivity|]. intros y Hy. apply Hpre. now right.
Qed.

(** C8 (amended): on a CSV file whose header names are distinct and whose
    records all have exactly as many cells as the header, remove_from_csv
    with a row_id that is not blank deletes exactly the first record whose
    id column (the first header name that lower-cases to "id", the cell
    stripped) equals the stripped row_id, and leaves every other record as
    it was and in its place; the file is unchanged when the stripped
    row_id is empty, when the file does not exist and when no record
    matches. *)
Theorem remove_from_csv_first_match (header : list string)
    (rows : csv_content) (row_id : string) :
  List.NoDup header ->
  Forall (fun r => length r = length header) rows ->
  let target := strip row_id in
  remove_from_csv None row_id = (Ret tt, None) /\
  (target = "" ->
     remove_from_csv (Some (header :: rows)) row_id
       = (Ret tt, Some (header :: rows))) /\
  (target <> "" ->
     (forall r, In r rows -> id_of_record header r <> target) ->
     remove_from_csv (Some (header :: rows)) row_id
       = (Ret tt, Some (header :: rows))) /\
  (target <> "" ->
     forall pre r post,
       rows = pre ++ r :: post ->
       id_of_record header r = target ->
       (forall x, In x pre -> id_of_record header x <> target) ->
       remove_from_csv (Some (header :: rows)) row_id
         = (Ret tt, Some (header :: pre ++ post))).
Proof.
  intros Hnd Hrect target. subst target. repeat split.
  - unfold remove_from_csv. destruct (String.eqb (strip row_id) ""); reflexivity.
  - intros He. unfold remove_from_csv. rewrite He. reflexivity.
  - intros Hid Hnone. rewrite remove_from_csv_rect by assumption.
    apply delete_first_id_none in Hnone. rewrite Hnone. reflexivity.
  - intros Hid pre r post Hrows Hr Hpre.
    rewrite remove_from_csv_rect by assumption.
    rewrite Hrows, delete_first_id_split by assumption. reflexivity.
Qed.

(* two records carry the id 1 (the first one with blanks around it); the
   call with row_id " 1" deletes the first of them only *)
Lemma remove_from_csv_first_match_witness :
  remove_from_csv
    (Some [["ID"; "url"]; ["7"; "u7"]; [" 1 "; "ua"]; ["2"; "ub"]; ["1"; "uc"]])
    " 1"
  = (Ret tt, Some [["ID"; "url"]; ["7"; "u7"]; ["2"; "ub"]; ["1"; "uc"]]).
Proof.
  assert (Hnd : List.NoDup ["ID"; "url"]).
  { constructor; [|constructor; [|constructor]]; cbn; intuition discriminate. }
  assert (Hrect : Forall (fun r : csv_record => length r = length ["ID"; "url"])
                    [["7"; "u7"]; [" 1 "; "ua"]; ["2"; "ub"]; ["1"; "uc"]]).
  { repeat constructor. }
  destruct (remove_from_csv_first_match ["ID"; "url"]
              [["7"; "u7"]; [" 1 "; "ua"]; ["2"; "ub"]; ["1"; "uc"]] " 1"
              Hnd Hrect) as (_ & _ & _ & H).
  apply (H ltac:(discriminate) [["7"; "u7"]] [" 1 "; "ua"] [["2"; "ub"]; ["1"; "uc"]]).
  - reflexivity.
  - reflexivity.
  - intros x [<-|[]]. discriminate.
Defined.

(* C8 as stated fails on files that are not rectangular.  A record with
   more cells than the header is read with the key None, which DictWriter
   refuses: the call raises and nothing is deleted although the first
   record matches.  A record with fewer cells than the header is written
   back with the missing cells added. *)
Lemma remove_from_csv_ragged_counterexample :
  (let header := ["id"; "url"] in
   let rows := [["1"; "a"]; ["2"; "b"; "extra"]] in
   delete_first_id header (strip "1") rows = Some [["2"; "b"; "extra"]] /\
   remove_from_csv (Some (header :: rows)) "1"
     = (Raise fields_not_in_fieldnames, Some (header :: rows)) /\
   snd (remove_from_csv (Some (header :: rows)) "1")
     <> Some [header; ["2"; "b"; "extra"]]) /\
  (let header := ["id"; "url"; "domain"] in
   let rows := [["1"; "a"; "x"]; ["2"; "b"]] in
   delete_first_id header (strip "1") rows = Some [["2"; "b"]] /\
   remove_from_csv (Some (header :: rows)) "1"
     = (Ret tt, Some [header; ["2"; "b"; ""]]) /\
   snd (remove_from_csv (Some (header :: rows)) "1")
     <> Some [header; ["2"; "b"]]).
Proof.
  cbv zeta. repeat split; try reflexivity; cbn; intros [=].
Qed.

(* --------------------------------------------------------------------- *)
(*  _wait_before_first_exec                                                *)
(* --------------------------------------------------------------------- *)

Section Throttle.
Variable cfg : config.

Lemma wait_done (st : throttle) (container : string) (now : Q) :
  container ∈ _first_exec_done_containers st ->
  _wait_before_first_exec cfg st container now = (st, None).
Proof.
  intros Hin. unfold _wait_before_first_exec.
  destruct (decide (container ∈ _first_exec_done_containers st)); [reflexivity|contradiction].
Qed.

(* the set of containers that passed the gate after one call *)
Lemma wait_done_set (st : throttle) (container : string) (now : Q) :
  _first_exec_done_containers (fst (_wait_before_first_exec cfg st container now))
  = {[container]} ∪ _first_exec_done_containers st.
Proof.
  unfold _wait_before_first_exec.
  destruct (decide (container ∈ _first_exec_done_containers st)); cbn; [|reflexivity].
  set_solver.
Qed.

Lemma gate_calls_done_set (st : throttle) (calls : list (string * Q)) :
  _first_exec_done_containers (fst (gate_calls cfg st calls))
  = list_to_set (map fst calls) ∪ _first_exec_done_containers st.
Proof.
  revert st. induction calls as [|[c now] calls IH]; intros st; cbn.
  - set_solver.
  - destruct (_wait_before_first_exec cfg st c now) as [st1 slept] eqn:Hw.
    specialize (IH st1). destruct (gate_calls cfg st1 calls) as [st2 log].
    cbn in *. rewrite IH.
    pose proof (wait_done_set st c now) as Hs. rewrite Hw in Hs. cbn in Hs.
    rewrite Hs. set_solver.
Qed.

Lemma gate_calls_app (st : throttle) (pre post : list (string * Q)) :
  gate_calls cfg st (pre ++ post) =
    (fst (gate_calls cfg (fst (gate_calls cfg st pre)) post),
     snd (gate_calls cfg st pre)
       ++ snd (gate_calls cfg (fst (gate_calls cfg st pre)) post)).
Proof.
  revert st. induction pre as [|[c now] pre IH]; intros st; cbn.
  - now destruct (gate_calls cfg st post).
  - destruct (_wait_before_first_exec cfg st c now) as [st1 slept].
    rewrite IH. destruct (gate_calls cfg st1 pre) as [st2 log]. cbn.
    reflexivity.
Qed.

Lemma gate_calls_length (st : throttle) (calls : list (string * Q)) :
  length (snd (gate_calls cfg st calls)) = length calls.
Proof.
  revert st. induction calls as [|[c now] calls IH]; intros st; cbn; [reflexivity|].
  destruct (_wait_before_first_exec cfg st c now) as [st1 slept].
  specialize (IH st1). destruct (gate_calls cfg st1 calls). cbn in *. lia.
Qed.

(* a container that passed the gate is never delayed again *)
Lemma total_delay_done (st : throttle) (calls : list (string * Q)) (container : string) :
  container ∈ _first_exec_done_containers st ->
  total_delay container (snd (gate_calls cfg st calls)) = 0%Q.
Proof.
  revert st. induction calls as [|[c now] calls IH]; intros st Hin; cbn; [reflexivity|].
  destruct (_wait_before_first_exec cfg st c now) as [st1 slept] eqn:Hw.
  assert (Hin1 : container ∈ _first_exec_done_containers st1).
  { pose proof (wait_done_set st c now) as Hs. rewrite Hw in Hs. cbn in Hs.
    rewrite Hs. set_solver. }
  specialize (IH st1 Hin1). destruct (gate_calls cfg st1 calls) as [st2 log].
  cbn in *. destruct (String.eqb_spec c container) as [->|_]; [|exact IH].
  rewrite wait_done in Hw by assumption. injection Hw as _ <-.
  rewrite IH. reflexivity.
Qed.

(* calls of other containers add nothing to the delay of this one *)
Lemma total_delay_others (st : throttle) (calls : list (string * Q)) (container : string) :
  ~ In container (map fst calls) ->
  total_delay container (snd (gate_calls cfg st calls)) = 0%Q.
Proof.
  revert st. induction calls as [|[c now] calls IH]; intros st Hn; cbn; [reflexivity|].
  destruct (_wait_before_first_exec cfg st c now) as [st1 slept].
  specialize (IH st1). destruct (gate_calls cfg st1 calls) as [st2 log].
  cbn in *. destruct (String.eqb_spec c container) as [->|_]; [tauto|].
  apply IH. tauto.
Qed.

Lemma total_delay_app (container : string) (l1 l2 : list (string * option Q)) :
  (total_delay container (l1 ++ l2)
   == total_delay container l1 + total_delay container l2)%Q.
Proof.
  induction l1 as [|[c slept] l1 IH]; cbn; [lra|].
  destruct (String.eqb c container); lra.
Qed.

(* every call made for a container that passed the gate returns at once *)
Lemma gate_calls_done_nth (st : throttle) (calls : list (string * Q))
    (container : string) (i : nat) (t : Q) :
  container ∈ _first_exec_done_containers st ->
  nth_error calls i = Some (container, t) ->
  nth_error (snd (gate_calls cfg st calls)) i = Some (container, None).
Proof.
  revert st i. induction calls as [|[c now] calls IH]; intros st i Hin Hi.
  - destruct i; discriminate.
  - cbn. destruct (_wait_before_first_exec cfg st c now) as [st1 slept] eqn:Hw.
    assert (Hin1 : container ∈ _first_exec_done_containers st1).
    { pose proof (wait_done_set st c now) as Hs. rewrite Hw in Hs. cbn in Hs.
      rewrite Hs. set_solver. }
    specialize (IH st1). destruct (gate_calls cfg st1 calls) as [st2 log].
    destruct i as [|i]; cbn in *.
    + injection Hi as -> ->. rewrite wait_done in Hw by assumption.
      injection Hw as _ <-. reflexivity.
    + now apply IH.
Qed.

(* a call made for a container that has not passed the gate: it sleeps
   exactly when its reading is before the timestamp of the gate, and
   leaves the timestamp at or after its reading and the old timestamp *)
Lemma wait_first (st : throttle) (container : string) (now : Q) :
  container ∉ _first_exec_done_containers st ->
  let next := _first_exec_next_ts st in
  let r := _wait_before_first_exec cfg st container now in
  (snd r = None <-> (next <= now)%Q)
  /\ (forall w, snd r = Some w -> (0 < w)%Q)
  /\ (next <= _first_exec_next_ts (fst r))%Q
  /\ (now <= _first_exec_next_ts (fst r))%Q.
Proof.
  intros Hnew next r. subst r. unfold _wait_before_first_exec. fold next.
  destruct (decide (container ∈ _first_exec_done_containers st)) as [Hin|_];
    [contradiction|].
  cbn [fst snd _first_exec_next_ts].
  pose proof (Q.le_max_r (FIRST_EXEC_INTERVAL cfg) 0) as Hint.
  pose proof (Q.le_max_l now next) as Hl.
  pose proof (Q.le_max_r now next) as Hr.
  split; [|split; [|split; lra]].
  - destruct (Q.max_spec now next) as [[Hlt Hm]|[Hle Hm]];
      destruct (Qlt_le_dec 0 (Qmax now next - now)) as [Hw|Hw];
      rewrite Hm in Hw; try lra.
    + split; [discriminate|intros; lra].
    + split; [intros _; exact Hle|reflexivity].
  - intros w. destruct (Qlt_le_dec 0 (Qmax now next - now)) as [Hw|Hw];
      [intros [= <-]; exact Hw|discriminate].
Qed.

End Throttle.

(** C3 (amended): for every container and every sequence of calls of
    _wait_before_first_exec, from any state of the gate in which the
    container has not passed: only the first call made for the container
    may sleep, every later call for it returns without sleeping, so the
    delay the container accumulates is the one wait of its first call.  A
    call for a container that has not passed sleeps exactly when its clock
    reading is before the next-allowed timestamp of the gate, and leaves
    the timestamp at or after both its reading and the old timestamp: the
    containers that come to the gate together wait longer and longer, and
    the wait is not bounded by one interval (see the counterexample). *)
Theorem first_exec_throttle_delay (cfg : config) (st : throttle)
    (pre : list (string * Q)) (container : string) (now : Q)
    (post : list (string * Q)) :
  container ∉ _first_exec_done_containers st ->
  ~ In container (map fst pre) ->
  let calls := pre ++ (container, now) :: post in
  let log := snd (gate_calls cfg st calls) in
  let alone := _wait_before_first_exec cfg st container now in
  (forall i t, (length pre < i)%nat ->
     nth_error calls i = Some (container, t) ->
     nth_error log i = Some (container, None)) /\
  (exists slept,
     nth_error log (length pre) = Some (container, slept) /\
     (total_delay container log == slept_seconds slept)%Q /\
     (0 <= slept_seconds slept)%Q) /\
  (snd alone = None <-> (_first_exec_next_ts st <= now)%Q) /\
  (_first_exec_next_ts st <= _first_exec_next_ts (fst alone))%Q /\
  (now <= _first_exec_next_ts (fst alone))%Q.
Proof.
  intros Hst Hfresh calls log alone. subst calls log alone.
  rewrite gate_calls_app.
  set (before := fst (gate_calls cfg st pre)).
  set (l1 := snd (gate_calls cfg st pre)).
  assert (Hl1 : length l1 = length pre) by apply gate_calls_length.
  assert (Hnew : container ∉ _first_exec_done_containers before).
  { subst before. rewrite gate_calls_done_set. intros Hin.
    apply elem_of_union in Hin as [Hin|Hin]; [|contradiction].
    apply elem_of_list_to_set in Hin. apply Hfresh.
    now apply list_elem_of_In. }
  cbn [gate_calls snd fst].
  pose proof (wait_first cfg before container now Hnew) as (_ & Hpos & _).
  pose proof (wait_first cfg st container now Hst) as (Hnone & _ & Hnext & Hnow).
  pose proof (wait_done_set cfg before container now) as Hset.
  destruct (_wait_before_first_exec cfg before container now) as [st2 slept].
  cbn [fst snd] in *.
  assert (Hin2 : container ∈ _first_exec_done_containers st2)
    by (rewrite Hset; set_solver).
  pose proof (total_delay_done cfg st2 post container Hin2) as Hpost.
  pose proof (gate_calls_done_nth cfg st2 post container) as Hnth.
  destruct (gate_calls cfg st2 post) as [st3 l2]. cbn [fst snd] in *.
  split; [|split; [|split; [exact Hnone|split; [exact Hnext|exact Hnow]]]].
  - intros i t Hi Hcall.
    rewrite nth_error_app2 in Hcall by lia.
    rewrite nth_error_app2 by lia. rewrite Hl1.
    destruct (i - length pre)%nat as [|j] eqn:Hj; [lia|]. cbn in *.
    now apply (Hnth j t Hin2).
  - exists slept. split; [|split].
    + rewrite nth_error_app2 by lia. rewrite Hl1, Nat.sub_diag. reflexivity.
    + rewrite total_delay_app. cbn. rewrite String.eqb_refl, Hpost.
      subst l1. rewrite total_delay_others by assumption. lra.
    + destruct slept as [w|]; cbn [slept_seconds]; [|lra].
      specialize (Hpos w eq_refl). lra.
Qed.

(* three containers reach the gate at the same instant, the third one
   calls again half a second later: its second call does not sleep, and
   its delay is the wait of its first call *)
Lemma first_exec_throttle_delay_witness :
  let calls := [("c0", 0%Q); ("c1", 0%Q); ("c2", 0%Q); ("c2", (1 # 2)%Q)] in
  let log := snd (gate_calls sample_cfg throttle_init calls) in
  nth_error log 3 = Some ("c2", None) /\
  exists slept,
    nth_error log 2 = Some ("c2", slept) /\
    (total_delay "c2" log == slept_seconds slept)%Q /\
    (0 <= slept_seconds slept)%Q.
Proof.
  assert (Hst : "c2" ∉ _first_exec_done_containers throttle_init).
  { cbn. set_solver. }
  assert (Hfresh : ~ In "c2" (map fst [("c0", 0%Q); ("c1", 0%Q)])).
  { cbn. intuition discriminate. }
  destruct (first_exec_throttle_delay sample_cfg throttle_init
              [("c0", 0%Q); ("c1", 0%Q)] "c2" 0%Q [("c2", (1 # 2)%Q)]
              Hst Hfresh) as (Hlater & Hfirst & _).
  split; [|exact Hfirst].
  apply (Hlater 3%nat (1 # 2)%Q); [cbn; lia|reflexivity].
Defined.

(* C3 as stated fails: with FIRST_EXEC_INTERVAL = 1 and three containers
   reaching the gate at the same instant, the third one sleeps 2 seconds,
   more than one interval. *)
Lemma first_exec_throttle_counterexample :
  let calls := [("c0", 0%Q); ("c1", 0%Q); ("c2", 0%Q)] in
  let log := snd (gate_calls sample_cfg throttle_init calls) in
  log = [("c0", None); ("c1", Some 1%Q); ("c2", Some 2%Q)] /\
  total_delay "c2" log = 2%Q /\
  ~ (total_delay "c2" log <= FIRST_EXEC_INTERVAL sample_cfg)%Q.
Proof.
  cbv zeta. repeat split; try reflexivity.
  vm_compute. intros H. apply H. reflexivity.
Qed.

(* --------------------------------------------------------------------- *)
(*  The path rewriting of process_result                                   *)
(* --------------------------------------------------------------------- *)

Lemma str_drop_empty (k : nat) : str_drop k "" = "".
Proof. destruct k; reflexivity. Qed.

Lemma str_drop_length (k : nat) (s : string) :
  (String.length (str_drop k s) <= String.length s)%nat.
Proof.
  revert k. induction s as [|c s IH]; intros [|k]; cbn [str_drop String.length];
    try lia.
  specialize (IH k). lia.
Qed.

(* passing over k characters and scanning on is scanning what is left *)
Lemma replace_from_skip (old new : string) (k : nat) (s : string) :
  replace_from old new k s = replace_from old new 0 (str_drop k s).
Proof.
  revert k. induction s as [|c s IH]; intros k.
  - rewrite str_drop_empty. destruct k; reflexivity.
  - destruct k as [|k]; [reflexivity|]. cbn [replace_from str_drop]. apply IH.
Qed.

(* stdpp keeps String.append folded; this is its second equation *)
Lemma append_cons (a : ascii) (s t : string) :
  (String a s ++ t)%string = String a (s ++ t)%string.
Proof. reflexivity. Qed.

Lemma startswith_app (old rest : string) : startswith old (old ++ rest)%string = true.
Proof.
  induction old as [|a old IH]; simpl; [reflexivity|].
  rewrite Ascii.eqb_refl. exact IH.
Qed.

Lemma startswith_split (old s : string) :
  startswith old s = true ->
  s = (old ++ str_drop (String.length old) s)%string.
Proof.
  revert s. induction old as [|a old IH]; intros s H; simpl in *.
  - destruct s; reflexivity.
  - destruct s as [|b s]; [discriminate|].
    destruct (Ascii.eqb_spec a b) as [->|]; [|discriminate].
    cbn [String.length str_drop]. rewrite append_cons. f_equal. now apply IH.
Qed.

(* where old starts, new is emitted and the scan resumes behind old *)
Lemma str_replace_match (old new s : string) :
  old <> "" -> startswith old s = true ->
  str_replace old new s
  = (new ++ str_replace old new (str_drop (String.length old) s))%string.
Proof.
  intros Hold H. unfold str_replace.
  destruct s as [|c s]; [destruct old; [congruence|discriminate]|].
  cbn [replace_from]. rewrite H, replace_from_skip.
  destruct old as [|a old]; [congruence|]. cbn [String.length str_drop Nat.sub].
  now rewrite Nat.sub_0_r.
Qed.

(* elsewhere the character is copied *)
Lemma str_replace_copy (old new : string) (c : ascii) (s : string) :
  startswith old (String c s) = false ->
  str_replace old new (String c s) = String c (str_replace old new s).
Proof. intros H. unfold str_replace. cbn [replace_from]. now rewrite H. Qed.

(* a string without an occurrence of old is left as it is *)
Lemma str_replace_absent (old new s : string) :
  occurs old s = false -> str_replace old new s = s.
Proof.
  induction s as [|c s IH]; intros H; [reflexivity|].
  simpl in H. apply orb_false_iff in H as [H1 H2].
  rewrite str_replace_copy by exact H1. f_equal. now apply IH.
Qed.

Lemma startswith_app_cases (old hs t : string) :
  startswith old (hs ++ t)%string = true ->
  startswith old hs = true \/ startswith hs old = true.
Proof.
  revert hs. induction old as [|a old IH]; intros hs H; simpl in *.
  - now left.
  - destruct hs as [|b hs]; [now right|]. simpl in *.
    destruct (Ascii.eqb_spec a b) as [->|]; [|discriminate].
    rewrite Ascii.eqb_refl. now apply IH.
Qed.

(* text without overlap, put in front of text without occurrence, gives
   text without occurrence *)
Lemma occurs_app_no_overlap (old hs t : string) :
  no_overlap old hs = true -> occurs old t = false ->
  occurs old (hs ++ t)%string = false.
Proof.
  intros Hhs Ht. induction hs as [|b hs IH]; [exact Ht|].
  cbn [no_overlap] in Hhs. apply andb_true_iff in Hhs as [Hhs Hrest].
  apply andb_true_iff in Hhs as [H1 H2].
  apply negb_true_iff in H1, H2.
  change (occurs old (String b (hs ++ t))
          = false).
  cbn [occurs]. apply orb_false_iff. split; [|now apply IH].
  apply not_true_is_false. intros H.
  apply (startswith_app_cases old (String b hs) t) in H as [H|H]; congruence.
Qed.

Section HostPath.
Variable host : string.
Hypothesis host_ok : host_path_ok host = true.

Lemma host_starts_with_sep : exists host', host = String "/" host'.
Proof.
  unfold host_path_ok in host_ok. apply andb_true_iff in host_ok as [H _].
  destruct host as [|c host']; [discriminate|]. cbn [startswith] in H.
  destruct (Ascii.eqb_spec "/"%char c) as [<-|]; [|discriminate].
  now exists host'.
Qed.

Lemma host_no_overlap : no_overlap "/app" host = true.
Proof. unfold host_path_ok in host_ok. now apply andb_true_iff in host_ok as [_ H]. Qed.

(* a word without "/" that begins the rewritten path begins the path *)
Lemma rewritten_prefix (w p : string) :
  occurs "/" w = false ->
  startswith w (str_replace "/app" host p) = true -> startswith w p = true.
Proof.
  revert p. induction w as [|a w IH]; intros p Hw H; [reflexivity|].
  cbn [occurs] in Hw. apply orb_false_iff in Hw as [Ha Hw].
  destruct p as [|c p]; [discriminate H|].
  destruct (startswith "/app" (String c p)) eqn:Hm.
  - rewrite str_replace_match in H by (assumption || discriminate).
    destruct host_starts_with_sep as [host' ->].
    rewrite append_cons in H. cbn [startswith] in H.
    destruct (Ascii.eqb_spec a "/"%char) as [->|]; [|discriminate].
    discriminate Ha.
  - rewrite str_replace_copy in H by exact Hm. cbn [startswith] in *.
    destruct (Ascii.eqb a c); [|discriminate]. now apply IH.
Qed.

(* the rewritten path contains no "/app" *)
Lemma rewritten_clean_upto (n : nat) (p : string) :
  (String.length p <= n)%nat ->
  occurs "/app" (str_replace "/app" host p) = false.
Proof.
  revert p. induction n as [|n IH]; intros p Hlen.
  - destruct p; [reflexivity|cbn [String.length] in Hlen; lia].
  - destruct p as [|c p]; [reflexivity|].
    destruct (startswith "/app" (String c p)) eqn:Hm.
    + rewrite str_replace_match by (assumption || discriminate).
      apply occurs_app_no_overlap; [exact host_no_overlap|].
      apply IH. change (str_drop (String.length "/app") (String c p))
        with (str_drop 3 p).
      cbn [String.length] in Hlen. pose proof (str_drop_length 3 p). lia.
    + rewrite str_replace_copy by exact Hm. cbn [occurs].
      apply orb_false_iff. split; [|apply IH; cbn [String.length] in Hlen; lia].
      apply not_true_is_false. intros H.
      change (startswith "/app" (String c p))
        with (if Ascii.eqb "/" c then startswith "app" p else false) in Hm.
      change (startswith "/app" (String c (str_replace "/app" host p)))
        with (if Ascii.eqb "/" c
              then startswith "app" (str_replace "/app" host p) else false) in H.
      destruct (Ascii.eqb "/" c); [|discriminate].
      apply (rewritten_prefix "app" p eq_refl) in H. congruence.
Qed.

Lemma rewritten_clean (p : string) :
  occurs "/app" (str_replace "/app" host p) = false.
Proof. apply (rewritten_clean_upto (String.length p)). lia. Qed.

End HostPath.

(** C4 (amended): the rewriting path.replace("/app", HOST_CODE_PATH) leaves
    every path that contains no "/app" as it is; and when HOST_CODE_PATH is
    absolute, contains no "/app" and does not end in "/", "/a" or "/ap",
    the rewritten path contains no "/app", so rewriting it again yields the
    same string: on such a configuration the rewriting is idempotent. *)
Theorem to_host_path_idempotent (cfg : config) (p : string) :
  (occurs "/app" p = false -> to_host_path cfg p = p) /\
  (host_path_ok (HOST_CODE_PATH cfg) = true ->
     occurs "/app" (to_host_path cfg p) = false /\
     to_host_path cfg (to_host_path cfg p) = to_host_path cfg p).
Proof.
  unfold to_host_path. split.
  - apply str_replace_absent.
  - intros Hok. pose proof (rewritten_clean _ Hok p) as Hclean.
    split; [exact Hclean|]. now apply str_replace_absent.
Qed.

(* under HOST_CODE_PATH = /srv/capture a manifest path is rewritten once
   and for all *)
Lemma to_host_path_idempotent_witness :
  to_host_path sample_cfg "/app/data/apple.com/a.pcap"
    = "/srv/capture/data/srv/capturele.com/a.pcap" /\
  to_host_path sample_cfg (to_host_path sample_cfg "/app/data/apple.com/a.pcap")
    = to_host_path sample_cfg "/app/data/apple.com/a.pcap" /\
  to_host_path sample_cfg "/srv/capture/data/a.pcap" = "/srv/capture/data/a.pcap".
Proof.
  destruct (to_host_path_idempotent sample_cfg "/app/data/apple.com/a.pcap")
    as [_ Hok].
  destruct (Hok eq_refl) as [_ Hidem].
  destruct (to_host_path_idempotent sample_cfg "/srv/capture/data/a.pcap")
    as [Habsent _].
  split; [reflexivity|]. split; [exact Hidem|]. exact (Habsent eq_refl).
Defined.

(* C4 as stated fails.  Under a checkout below /home/user/apps the host
   code path contains "/app", and a second rewriting changes the path
   again; and under any host code path, a host-rooted path that contains
   "/app" further down (here in "/apple.com") is not left alone. *)
Lemma to_host_path_counterexample :
  (let cfg := {| CONTAINER_PREFIX := "github_traffic";
                 HOST_CODE_PATH := "/home/user/apps/traffic_capture_github";
                 BASE_DST := "/netdisk/github_with_ssl_key/lyl";
                 CONTAINER_COUNT := 29; CONTAINER_CODE_PATH := "/app";
                 DOCKER_EXEC_TIMEOUT := 6000; RETRY := 5;
                 FIRST_EXEC_INTERVAL := 1%Q;
                 DEFAULT_UID := 1000; DEFAULT_GID := 1000 |} in
   to_host_path cfg "/app/data/a.pcap"
     = "/home/user/apps/traffic_capture_github/data/a.pcap" /\
   to_host_path cfg (to_host_path cfg "/app/data/a.pcap")
     = "/home/user/home/user/apps/traffic_capture_githubs/traffic_capture_github/data/a.pcap" /\
   to_host_path cfg (to_host_path cfg "/app/data/a.pcap")
     <> to_host_path cfg "/app/data/a.pcap") /\
  to_host_path sample_cfg "/srv/capture/data/apple.com/a.pcap"
    <> "/srv/capture/data/apple.com/a.pcap".
Proof.
  cbv zeta. repeat split; try reflexivity; vm_compute; intros [=].
Qed.

(* --------------------------------------------------------------------- *)
(*  process_result                                                         *)
(* --------------------------------------------------------------------- *)

(* a required path that is absent or empty is falsy *)
Lemma missing_path_falsy (d : list (string * pyjson)) (key : string) :
  dict_get d key = None \/ dict_get d key = Some (JStr "") ->
  truthy (dict_get d key) = false.
Proof. intros [-> | ->]; reflexivity. Qed.

Lemma required_paths_checked (d : list (string * pyjson)) (key : string) :
  In key required_paths ->
  truthy (dict_get d key) = false ->
  forallb truthy [dict_get d "pcap_path"; dict_get d "ssl_key_file_path";
                  dict_get d "content_path"; dict_get d "html_path";
                  dict_get d "screenshot_path"] = false.
Proof.
  intros Hkey Hf. apply not_true_is_false. intros Hall.
  rewrite forallb_forall in Hall.
  assert (Hin : In (dict_get d key)
                  [dict_get d "pcap_path"; dict_get d "ssl_key_file_path";
                   dict_get d "content_path"; dict_get d "html_path";
                   dict_get d "screenshot_path"]).
  { unfold required_paths in Hkey. cbn [In] in *.
    repeat destruct Hkey as [<- | Hkey]; tauto. }
  apply Hall in Hin. congruence.
Qed.

(** C5: for every result manifest (a JSON object) in which one of the five
    required artifact paths is absent or empty, process_result returns
    (False, "result JSON missing required paths"); all it did before is log
    the manifest: no file is moved, on_task_success is not called.  exec_once
    hands the same failure to the worker. *)
Theorem process_result_missing_path (cfg : config) (env : exec_env) (t : task)
    (d : list (string * pyjson)) (key : string) :
  meta_json env = Ret (JDict d) ->
  In key required_paths ->
  dict_get d key = None \/ dict_get d key = Some (JStr "") ->
  process_result cfg env t
    = (Ret (false, "result JSON missing required paths"),
       [FxLogResult (JDict d)]) /\
  (forall cp, docker_exec env = Ret cp -> returncode cp = 0 ->
     exec_once cfg env t
       = (Ret (false, "result JSON missing required paths"),
          [FxLogResult (JDict d)])).
Proof.
  intros Hmeta Hkey Hmissing.
  apply missing_path_falsy in Hmissing.
  pose proof (required_paths_checked d key Hkey Hmissing) as Hcheck.
  assert (Hres : process_result cfg env t
                 = (Ret (false, "result JSON missing required paths"),
                    [FxLogResult (JDict d)])).
  { unfold process_result. rewrite Hmeta.
    cbn [act_pure act_do act_bind app]. rewrite Hcheck. reflexivity. }
  split; [exact Hres|].
  intros cp Hcp Hrc. unfold exec_once. rewrite Hcp, Hrc, Hres. reflexivity.
Qed.

(* the scenario of the manifest without content_path *)
Lemma process_result_missing_path_witness :
  process_result sample_cfg env_missing_content
      (new_job "7" "http://example.org/" "example.org")
    = (Ret (false, "result JSON missing required paths"),
       [FxLogResult
          (JDict [("pcap_path", JStr "/app/data/a.pcap");
                  ("ssl_key_file_path", JStr "/app/data/a.log");
                  ("html_path", JStr "/app/data/a.html");
                  ("screenshot_path", JStr "/app/data/a.png");
                  ("current_url", JStr "http://example.org/")])]).
Proof.
  refine (proj1 (process_result_missing_path sample_cfg env_missing_content
                   (new_job "7" "http://example.org/" "example.org")
                   _ "content_path" eq_refl _ _)).
  - cbn. tauto.
  - left. reflexivity.
Defined.

(* --------------------------------------------------------------------- *)
(*  worker_loop makes the steps of [transition]                            *)
(* --------------------------------------------------------------------- *)

Lemma emit_all_trace (tk : tick) (j : nat) (acts : list action) (s : sched) :
  emit_all tk j acts s = with_trace s (trace s ++ map (entry_of tk j) acts).
Proof.
  unfold emit_all. revert s. induction acts as [|a acts IH]; intros s; cbn.
  - rewrite app_nil_r. now destruct s.
  - rewrite IH. unfold emit, with_trace. cbn. rewrite <- app_assoc. reflexivity.
Qed.

Lemma task_of_lookup (s : sched) (j : nat) (t : task) :
  store s !! j = Some t -> task_of s j = t.
Proof. unfold task_of. now intros ->. Qed.

Lemma taken_started (c : string) (now : Q) (t : task) (t0 : Q) :
  _start_time t = Some t0 -> taken c now t = set_container c t.
Proof. intros H. unfold taken, set_container. now rewrite H. Qed.

Lemma taken_fresh (c : string) (now : Q) (t : task) :
  _start_time t = None -> taken c now t = set_start_time now (set_container c t).
Proof. intros H. unfold taken, set_start_time, set_container. cbn. now rewrite H. Qed.

Lemma worker_loop_get_step (cfg : config) (retry : Z) (s : sched) (tk : tick)
    (w : worker) :
  queue_valid s ->
  workers s !! who tk = Some w -> w_state w = AtLoopHead ->
  transition cfg retry s tk (worker_loop_get (who tk) w retry tk s).
Proof.
  intros Hvalid Hw Hst. unfold worker_loop_get.
  destruct (queue s) as [|j q'] eqn:Hq.
  - now apply T_return.
  - unfold queue_valid in Hvalid. rewrite Hq in Hvalid.
    apply Forall_inv in Hvalid.
    pose proof Hvalid as Hlt.
    apply lookup_lt_is_Some_2 in Hvalid as [t Ht].
    replace (goto _ _ _ _) with (after_get retry s tk w j q' t);
      [now apply (T_get cfg retry s tk w j q' t)|].
    unfold after_get, goto, update_task, task_of, emit, with_queue, with_store,
      with_workers, with_trace, moved_on, logged, dispatch_line.
    cbn. rewrite Ht. cbn. rewrite list_lookup_insert_eq by exact Hlt.
    cbn. destruct (_start_time t) as [t0|] eqn:Hstart; cbn.
    + rewrite list_lookup_insert_eq by exact Hlt. cbn.
      rewrite Hstart. cbn. rewrite (taken_started _ (wall tk) t t0 Hstart).
      destruct (get_or (_retry_count t) 0 =? 0); cbn; reflexivity.
    + rewrite !list_lookup_insert_eq by (rewrite ?length_insert; exact Hlt).
      cbn. rewrite list_insert_insert_eq.
      rewrite (taken_fresh _ (wall tk) t Hstart).
      destruct (get_or (_retry_count t) 0 =? 0); cbn;
        rewrite <- ?app_assoc; reflexivity.
Qed.

Lemma worker_loop_gate_step (cfg : config) (retry : Z) (s : sched) (tk : tick)
    (w : worker) (j : nat) (attempt : Z) (t0 : Q) :
  workers s !! who tk = Some w -> w_state w = AtGate j attempt t0 ->
  transition cfg retry s tk (worker_loop_gate cfg (who tk) w j attempt t0 tk s).
Proof.
  intros Hw Hst.
  replace (worker_loop_gate _ _ _ _ _ _ _ _) with (after_gate cfg s tk w j attempt t0);
    [now apply T_gate|].
  unfold worker_loop_gate, after_gate, logged, goto, emit, with_gate, with_trace,
    with_workers, moved_on.
  destruct (_wait_before_first_exec cfg (gate s) (w_container w) (mono tk))
    as [g [secs|]]; cbn; [reflexivity|].
  now rewrite app_nil_r.
Qed.

(* the store after task[key] = value on the dict j *)
Lemma update_task_store (j : nat) (f : task -> task) (s : sched) :
  update_task j f s = with_store s (<[j := f (task_of s j)]> (store s)).
Proof.
  unfold update_task, task_of. destruct (store s !! j) as [t|] eqn:Ht; [reflexivity|].
  rewrite list_insert_ge by (now apply lookup_ge_None). now destruct s.
Qed.

(* two states with the same fields *)
Lemma sched_eq (a b : sched) :
  store a = store b -> queue a = queue b ->
  unfinished_tasks a = unfinished_tasks b -> workers a = workers b ->
  batch_stats a = batch_stats b -> global_progress a = global_progress b ->
  gate a = gate b -> trace a = trace b -> a = b.
Proof. destruct a, b; cbn; intros; subst; reflexivity. Qed.

(* logging leaves the task dicts alone *)
Lemma task_of_with_trace (s : sched) (v : list entry) (j : nat) :
  task_of (with_trace s v) j = task_of s j.
Proof. reflexivity. Qed.

Lemma task_of_emit (tk : tick) (j0 : nat) (a : action) (s : sched) (j : nat) :
  task_of (emit tk j0 a s) j = task_of s j.
Proof. reflexivity. Qed.

Ltac by_fields :=
  apply sched_eq;
  cbn [store queue unfinished_tasks workers batch_stats global_progress gate
       trace ok fail errors
       with_store with_queue with_unfinished with_workers with_stats
       with_progress with_gate with_trace
       emit goto q_put q_task_done _update_progress _handle_final_failure
       after_success after_requeue after_final progressed moved_on logged
       task_of];
  rewrite ?task_of_emit, ?task_of_with_trace;
  unfold logged;
  rewrite ?map_app, <- ?app_assoc; try reflexivity.

Lemma worker_loop_exec_eq (cfg : config) (retry : Z) (s : sched) (tk : tick)
    (w : worker) (j : nat) (attempt : Z) (t0 : Q) (r : py (bool * string))
    (fx : list fs_effect) :
  exec_once cfg (env tk) (task_of s j) = (r, fx) ->
  worker_loop_exec cfg (who tk) w retry j attempt t0 tk s
  = match failure_report cfg (w_container w) (task_of s j) r with
    | None => after_success s tk w j t0 fx
    | Some (line, err) =>
        if attempt <? retry then after_requeue s tk w j attempt fx line
        else after_final cfg s tk w j t0 fx line err
    end.
Proof.
  intros Hexec. unfold worker_loop_exec. rewrite Hexec, emit_all_trace.
  unfold failure_report.
  destruct r as [[[|] e]|e]; [| |destruct (exn_class_of e)];
    try (destruct (attempt <? retry); rewrite ?update_task_store);
    by_fields.
Qed.

Lemma worker_loop_exec_step (cfg : config) (retry : Z) (s : sched) (tk : tick)
    (w : worker) (j : nat) (attempt : Z) (t0 : Q) :
  workers s !! who tk = Some w -> w_state w = InExec j attempt t0 ->
  transition cfg retry s tk
    (worker_loop_exec cfg (who tk) w retry j attempt t0 tk s).
Proof.
  intros Hw Hst.
  destruct (exec_once cfg (env tk) (task_of s j)) as [r fx] eqn:Hexec.
  rewrite (worker_loop_exec_eq cfg retry s tk w j attempt t0 r fx Hexec).
  destruct (failure_report cfg (w_container w) (task_of s j) r)
    as [[line err]|] eqn:Hrep.
  - destruct (Z.ltb_spec attempt retry) as [Hlt|Hge].
    + now apply (T_requeue cfg retry s tk w j attempt t0 r fx line err).
    + now apply (T_final cfg retry s tk w j attempt t0 r fx line err).
  - now apply (T_success cfg retry s tk w j attempt t0 r fx).
Qed.

(* every step of worker_loop is one of the steps of [transition] *)
Lemma worker_loop_transition (cfg : config) (retry : Z) (s : sched) (tk : tick) :
  queue_valid s -> transition cfg retry s tk (worker_loop cfg retry s tk).
Proof.
  intros Hvalid. unfold worker_loop.
  destruct (workers s !! who tk) as [w|] eqn:Hw; [|apply T_stay; now left].
  destruct (w_state w) as [|j a t0|j a t0|] eqn:Hst.
  - now apply worker_loop_get_step.
  - now apply worker_loop_gate_step.
  - now apply worker_loop_exec_step.
  - apply T_stay. right. now exists w.
Qed.

(* --------------------------------------------------------------------- *)
(*  Reading the trace after a step                                         *)
(* --------------------------------------------------------------------- *)

Lemma per_task_app {X : Type} (g : Q -> action -> list X) (j : nat)
    (tr1 tr2 : list entry) :
  per_task g j (tr1 ++ tr2) = per_task g j tr1 ++ per_task g j tr2.
Proof. unfold per_task. apply flat_map_app. Qed.

Lemma per_task_entries {X : Type} (g : Q -> action -> list X) (j : nat)
    (tk : tick) (j0 : nat) (acts : list action) :
  per_task g j (map (entry_of tk j0) acts)
  = if Nat.eqb j0 j then flat_map (g (wall tk)) acts else [].
Proof.
  unfold per_task. induction acts as [|a acts IH]; cbn.
  - now destruct (Nat.eqb j0 j).
  - rewrite IH. destruct (Nat.eqb j0 j); [reflexivity|]. reflexivity.
Qed.

(* what a step on task j0 adds to the reading of task j *)
Lemma per_task_logged {X : Type} (g : Q -> action -> list X) (j : nat)
    (s : sched) (tk : tick) (j0 : nat) (acts : list action) :
  per_task g j (logged s tk j0 acts)
  = per_task g j (trace s)
    ++ (if Nat.eqb j0 j then flat_map (g (wall tk)) acts else []).
Proof. unfold logged. now rewrite per_task_app, per_task_entries. Qed.

Lemma all_outcomes_logged (s : sched) (tk : tick) (j0 : nat) (acts : list action) :
  all_outcomes (logged s tk j0 acts)
  = all_outcomes (trace s) ++ flat_map outcome_of acts.
Proof.
  unfold all_outcomes, logged. rewrite flat_map_app. f_equal.
  induction acts as [|a acts IH]; cbn; [reflexivity|]. now rewrite IH.
Qed.

(* the effects of exec_once are not read by a reader that skips them *)
Lemma flat_map_exec {X : Type} (g : action -> list X) (fx : list fs_effect)
    (acts : list action) :
  (forall x, g (Exec x) = []) ->
  flat_map g (map Exec fx ++ acts) = flat_map g acts.
Proof.
  intros Hg. rewrite flat_map_app.
  replace (flat_map g (map Exec fx)) with (@nil X); [reflexivity|].
  induction fx as [|x fx IH]; cbn; [reflexivity|]. now rewrite Hg.
Qed.

(* --------------------------------------------------------------------- *)
(*  Counting references                                                    *)
(* --------------------------------------------------------------------- *)

Lemma list_sum_cons (a : nat) (l : list nat) : list_sum (a :: l) = (a + list_sum l)%nat.
Proof. reflexivity. Qed.

Lemma list_sum_insert {A : Type} (f : A -> nat) (l : list A) (i : nat) (x y : A) :
  l !! i = Some x ->
  (list_sum (map f (<[i := y]> l)) + f x = list_sum (map f l) + f y)%nat.
Proof.
  revert i. induction l as [|a l IH]; intros i Hi; [discriminate|].
  destruct i as [|i].
  - injection Hi as ->. change (<[0%nat := y]> (x :: l)) with (y :: l).
    rewrite !map_cons, !list_sum_cons. lia.
  - specialize (IH i Hi). change (<[S i := y]> (a :: l)) with (a :: <[i := y]> l).
    rewrite !map_cons, !list_sum_cons. lia.
Qed.

Lemma holders_moved_on (j : nat) (s : sched) (i : nat) (w : worker) (st : wstate) :
  workers s !! i = Some w ->
  (holders j (moved_on s i w st) + held_by j w
   = holders j (workers s)
     + held_by j {| w_container := w_container w; w_state := st |})%nat.
Proof. intros Hw. unfold holders, moved_on. now apply list_sum_insert. Qed.

Lemma busy_moved_on (s : sched) (i : nat) (w : worker) (st : wstate) :
  workers s !! i = Some w ->
  (busy (moved_on s i w st) + match holding w with Some _ => 1 | None => 0 end
   = busy (workers s)
     + match holding {| w_container := w_container w; w_state := st |} with
       | Some _ => 1
       | None => 0
       end)%nat.
Proof.
  intros Hw. unfold busy, moved_on.
  now apply (list_sum_insert
               (fun w => match holding w with Some _ => 1 | None => 0 end)%nat).
Qed.

Lemma queued_app (j : nat) (q : list nat) (j0 : nat) :
  queued j (q ++ [j0]) = (queued j q + if Nat.eqb j0 j then 1 else 0)%nat.
Proof.
  unfold queued. rewrite count_occ_app. cbn.
  destruct (Nat.eq_dec j0 j) as [->|Hne].
  - now rewrite Nat.eqb_refl.
  - apply Nat.eqb_neq in Hne. now rewrite Hne.
Qed.

Lemma queued_cons (j : nat) (q : list nat) (j0 : nat) :
  queued j (j0 :: q) = ((if Nat.eqb j0 j then 1 else 0) + queued j q)%nat.
Proof.
  unfold queued. cbn.
  destruct (Nat.eq_dec j0 j) as [->|Hne].
  - now rewrite Nat.eqb_refl.
  - apply Nat.eqb_neq in Hne. now rewrite Hne.
Qed.

Lemma held_by_state (j : nat) (c : string) (st : wstate) :
  held_by j {| w_container := c; w_state := st |}
  = match st with
    | AtGate j' _ _ | InExec j' _ _ => if Nat.eqb j' j then 1%nat else 0%nat
    | _ => 0%nat
    end.
Proof. now destruct st. Qed.

Lemma held_by_of (j : nat) (w : worker) :
  held_by j w
  = match w_state w with
    | AtGate j' _ _ | InExec j' _ _ => if Nat.eqb j' j then 1%nat else 0%nat
    | _ => 0%nat
    end.
Proof. unfold held_by, holding. now destruct (w_state w). Qed.

Lemma count_outcomes_app (b : bool) (l : list bool) (tr : list entry) (x : list bool) :
  all_outcomes tr = l ->
  count_occ Bool.bool_dec (l ++ x) b
  = (count_occ Bool.bool_dec l b + count_occ Bool.bool_dec x b)%nat.
Proof. intros _. apply count_occ_app. Qed.

(* --------------------------------------------------------------------- *)
(*  The accounting invariant                                               *)
(* --------------------------------------------------------------------- *)

Lemma outcomes_logged (j : nat) (s : sched) (tk : tick) (j0 : nat)
    (acts : list action) :
  outcomes j (logged s tk j0 acts)
  = outcomes j (trace s)
    ++ (if Nat.eqb j0 j then flat_map outcome_of acts else []).
Proof. unfold outcomes. now rewrite per_task_logged. Qed.

Lemma count_outcomes_logged (b : bool) (s : sched) (tk : tick) (j0 : nat)
    (acts : list action) :
  count_outcomes b (logged s tk j0 acts)
  = (count_outcomes b (trace s)
     + count_occ Bool.bool_dec (flat_map outcome_of acts) b)%nat.
Proof. unfold count_outcomes. now rewrite all_outcomes_logged, count_occ_app. Qed.

Ltac proj_fields :=
  cbn [store queue unfinished_tasks workers batch_stats global_progress gate
       trace ok fail errors
       with_store with_queue with_unfinished with_workers with_stats
       with_progress with_gate with_trace
       after_return after_get after_gate after_success after_requeue after_final].

(* what the step added to the outcomes *)
Ltac read_trace :=
  rewrite ?outcomes_logged, ?all_outcomes_logged, ?count_outcomes_logged;
  rewrite ?flat_map_exec by reflexivity;
  cbn [flat_map outcome_of app];
  repeat match goal with
         | |- context [count_occ Bool.bool_dec ?l ?b] =>
             let v := eval vm_compute in (count_occ Bool.bool_dec l b) in
             change (count_occ Bool.bool_dec l b) with v
         end;
  rewrite ?length_app, ?queued_app;
  repeat match goal with
         | |- context [Nat.eqb ?a ?b] => destruct (Nat.eqb a b)
         end;
  cbn [length].

(* what the step did to the references held by the workers *)
Ltac count_refs j Hw Hs :=
  match goal with
  | |- context [moved_on ?s ?i ?w ?st] =>
      pose proof (holders_moved_on j s i w st Hw) as Hh;
      pose proof (busy_moved_on s i w st Hw) as Hb;
      rewrite held_by_state, held_by_of, Hs in Hh;
      unfold holding in Hb; cbn [w_state] in Hb; rewrite Hs in Hb
  end.

Lemma batch_inv_step (n : nat) (cfg : config) (retry : Z) (s s' : sched) (tk : tick) :
  batch_inv n s -> transition cfg retry s tk s' -> batch_inv n s'.
Proof.
  intros [Hst Hrefs Hunf Htot Hok Hfail Herr] Htr.
  inversion Htr as
    [Hidle
    |w Hw Hs Hq
    |w j0 q' t Hw Hs Hq Ht
    |w j0 a t0 Hw Hs
    |w j0 a t0 r fx Hw Hs Hexec Hrep
    |w j0 a t0 r fx line err Hw Hs Hexec Hrep Hlt
    |w j0 a t0 r fx line err Hw Hs Hexec Hrep Hge]; subst s'; clear Htr.
  - constructor; assumption.
  - (* the worker returns *)
    constructor; proj_fields; try assumption.
    + intros j. specialize (Hrefs j). count_refs j Hw Hs. lia.
    + count_refs 0%nat Hw Hs. lia.
    + count_refs 0%nat Hw Hs. lia.
  - (* a task is taken from the queue *)
    rewrite Hq in Hunf, Htot. cbn [length] in Hunf, Htot.
    unfold after_get. destruct (_start_time t) as [started|] eqn:Hstart.
    all: constructor; proj_fields; rewrite ?length_insert; try assumption.
    all: try (intros j; specialize (Hrefs j); rewrite Hq, queued_cons in Hrefs;
              count_refs j Hw Hs; read_trace; lia).
    all: try (count_refs 0%nat Hw Hs; read_trace; lia).
    all: read_trace; lia.
  - (* the throttle gate *)
    unfold after_gate. cbv zeta.
    destruct (_wait_before_first_exec cfg (gate s) (w_container w) (mono tk))
      as [g [secs|]]; cbn [fst snd].
    all: constructor; proj_fields; try assumption.
    all: try (intros j; specialize (Hrefs j);
              count_refs j Hw Hs; read_trace; lia).
    all: try (count_refs 0%nat Hw Hs; read_trace; lia).
    all: read_trace; lia.
  - (* success *)
    constructor; proj_fields; try assumption.
    all: try (intros j; specialize (Hrefs j);
              count_refs j Hw Hs; read_trace; lia).
    all: try (count_refs 0%nat Hw Hs; read_trace; lia).
    all: read_trace; lia.
  - (* put back into the queue *)
    constructor; proj_fields; rewrite ?length_insert; try assumption.
    all: try (intros j; specialize (Hrefs j);
              count_refs j Hw Hs; read_trace; lia).
    all: try (count_refs 0%nat Hw Hs; read_trace; lia).
    all: read_trace; lia.
  - (* given up *)
    constructor; proj_fields; try assumption.
    all: try (intros j; specialize (Hrefs j);
              count_refs j Hw Hs; read_trace; lia).
    all: try (count_refs 0%nat Hw Hs; read_trace; lia).
    all: read_trace; lia.
Qed.

Lemma queued_seq (j start len : nat) :
  queued j (seq start len)
  = if (start <=? j)%nat && (j <? start + len)%nat then 1%nat else 0%nat.
Proof.
  revert start. induction len as [|len IH]; intros start.
  - unfold queued. cbn [seq count_occ].
    destruct (Nat.leb_spec start j), (Nat.ltb_spec j (start + 0));
      cbn [andb]; try reflexivity; lia.
  - cbn [seq]. rewrite queued_cons, IH.
    destruct (Nat.eqb_spec start j), (Nat.leb_spec (S start) j),
      (Nat.ltb_spec j (S start + len)), (Nat.leb_spec start j),
      (Nat.ltb_spec j (start + S len));
      cbn [andb]; try reflexivity; lia.
Qed.

Lemma holders_fresh (j : nat) (names : list string) :
  holders j (map (fun n => {| w_container := n; w_state := AtLoopHead |}) names) = 0%nat.
Proof. unfold holders. induction names as [|n names IH]; cbn; [reflexivity|exact IH]. Qed.

Lemma busy_fresh (names : list string) :
  busy (map (fun n => {| w_container := n; w_state := AtLoopHead |}) names) = 0%nat.
Proof. unfold busy. induction names as [|n names IH]; cbn; [reflexivity|exact IH]. Qed.

(* run_once starts a batch in a state that satisfies the accounting *)
Lemma batch_inv_start (g : throttle) (p : progress) (names : list string)
    (jobs : list task) :
  batch_inv (length jobs) (batch_start g p names jobs).
Proof.
  constructor; unfold batch_start; proj_fields.
  - reflexivity.
  - intros j. rewrite queued_seq, holders_fresh.
    unfold outcomes, per_task. cbn [flat_map length Nat.leb andb Nat.add].
    destruct (j <? length jobs)%nat; reflexivity.
  - rewrite length_seq, busy_fresh. f_equal. lia.
  - rewrite length_seq, busy_fresh. cbn [all_outcomes flat_map length]. lia.
  - reflexivity.
  - reflexivity.
  - reflexivity.
Qed.

Lemma batch_inv_queue_valid (n : nat) (s : sched) : batch_inv n s -> queue_valid s.
Proof.
  intros [Hst Hrefs _ _ _ _ _]. unfold queue_valid. apply List.Forall_forall.
  intros j Hj. specialize (Hrefs j).
  assert (Hq : (0 < queued j (queue s))%nat).
  { unfold queued. now apply count_occ_In. }
  destruct (Nat.ltb_spec j n); lia.
Qed.

Lemma batch_inv_worker_loop (n : nat) (cfg : config) (retry : Z) (s : sched)
    (tk : tick) :
  batch_inv n s -> batch_inv n (worker_loop cfg retry s tk).
Proof.
  intros Hinv. apply (batch_inv_step n cfg retry s _ tk Hinv).
  apply worker_loop_transition. now apply (batch_inv_queue_valid n).
Qed.

(* the accounting holds all along a run *)
Lemma batch_inv_run (n : nat) (cfg : config) (retry : Z) (ticks : list tick)
    (s : sched) :
  batch_inv n s -> batch_inv n (run_ticks cfg retry s ticks).
Proof.
  revert s. induction ticks as [|tk ticks IH]; intros s Hinv; [exact Hinv|].
  cbn. apply IH. now apply batch_inv_worker_loop.
Qed.

Lemma holders_le_busy (j : nat) (ws : list worker) : (holders j ws <= busy ws)%nat.
Proof.
  unfold holders, busy. induction ws as [|w ws IH]; [cbn; lia|].
  rewrite !map_cons, !list_sum_cons. unfold held_by at 1.
  destruct (holding w) as [j'|]; [|lia].
  destruct (Nat.eqb j' j); lia.
Qed.

Lemma count_bools (l : list bool) :
  (count_occ Bool.bool_dec l true + count_occ Bool.bool_dec l false = length l)%nat.
Proof.
  induction l as [|[|] l IH]; cbn; [reflexivity| |]; lia.
Qed.

(* when q.join() returns, the queue is empty and no worker holds a task *)
Lemma batch_finished_idle (n : nat) (s : sched) :
  batch_inv n s -> batch_finished s = true ->
  queue s = [] /\ busy (workers s) = 0%nat.
Proof.
  intros Hinv Hfin. unfold batch_finished in Hfin.
  apply andb_true_iff in Hfin as [Hunf _]. apply Z.eqb_eq in Hunf.
  rewrite (inv_unfinished n s Hinv) in Hunf.
  split; [|lia]. destruct (queue s); [reflexivity|cbn in Hunf; lia].
Qed.

(** C1: when a batch has run to completion -- run_once over the submitted
    jobs and a non-empty pool returns its stats -- every job has exactly one
    terminal outcome recorded, a success or a terminal failure, stats["ok"]
    counts the successes and stats["fail"] the terminal failures, and so
    stats["ok"] + stats["fail"] is the number of jobs submitted, whatever
    was put back into the queue for a retry on the way. *)
Theorem run_once_accounts_for_every_job (cfg : config) (g : throttle)
    (p : progress) (names : list string) (jobs : list task) (ticks : list tick)
    (st : stats) :
  names <> [] ->
  run_once cfg g p names jobs ticks = Some st ->
  let s := run_ticks cfg (RETRY cfg) (batch_start g p names jobs) ticks in
  st = batch_stats s /\
  ok st + fail st = Z.of_nat (length jobs) /\
  ok st = Z.of_nat (count_outcomes true (trace s)) /\
  fail st = Z.of_nat (count_outcomes false (trace s)) /\
  (forall j, (j < length jobs)%nat ->
     outcomes j (trace s) = [true] \/ outcomes j (trace s) = [false]).
Proof.
  intros Hnames Hrun s. unfold run_once in Hrun.
  destruct names as [|name names]; [congruence|]. fold s in Hrun.
  destruct (batch_finished s) eqn:Hfin; [|discriminate].
  injection Hrun as <-.
  assert (Hinv : batch_inv (length jobs) s)
    by (apply batch_inv_run, batch_inv_start).
  destruct (batch_finished_idle _ _ Hinv Hfin) as [Hq Hbusy].
  pose proof (inv_total _ _ Hinv) as Htot. rewrite Hq, Hbusy in Htot.
  cbn [length] in Htot.
  pose proof (count_bools (all_outcomes (trace s))) as Hcount.
  split; [reflexivity|]. split; [|split; [|split]].
  - rewrite (inv_ok _ _ Hinv), (inv_fail _ _ Hinv). unfold count_outcomes. lia.
  - apply (inv_ok _ _ Hinv).
  - apply (inv_fail _ _ Hinv).
  - intros j Hj. pose proof (inv_refs _ _ Hinv j) as Hrefs.
    pose proof (holders_le_busy j (workers s)) as Hle.
    rewrite Hq in Hrefs. cbn [queued count_occ] in Hrefs.
    replace (j <? length jobs)%nat with true in Hrefs
      by (symmetry; now apply Nat.ltb_lt).
    destruct (outcomes j (trace s)) as [|[|] [|b l]]; cbn [length] in Hrefs;
      try lia; [now left|now right].
Qed.

Lemma run_once_accounts_for_every_job_witness :
  let cfg := with_retry sample_cfg 1 in
  let st := {| ok := 2; fail := 1; errors := [(0%nat, "boom")] |} in
  run_once cfg throttle_init no_progress ["A"; "B"] three_jobs scenario_ticks = Some st
  /\ ok st + fail st = Z.of_nat (length three_jobs).
Proof.
  assert (Hrun : run_once (with_retry sample_cfg 1) throttle_init no_progress
                   ["A"; "B"] three_jobs scenario_ticks
                 = Some {| ok := 2; fail := 1; errors := [(0%nat, "boom")] |})
    by (vm_compute; reflexivity).
  split; [exact Hrun|].
  apply (run_once_accounts_for_every_job (with_retry sample_cfg 1) throttle_init
           no_progress ["A"; "B"] three_jobs scenario_ticks _
           ltac:(discriminate) Hrun).
Defined.

(* --------------------------------------------------------------------- *)
(*  stats["errors"]                                                        *)
(* --------------------------------------------------------------------- *)

(** C6 (as the code has it): stats["errors"] is not capped.  In every state
    of a batch it holds one (job, error) entry per terminal failure, so its
    length is stats["fail"]; only the failure samples that run logs after
    the batch are limited, to the first 10 entries of the list. *)
Theorem stats_errors_one_per_failure (cfg : config) (g : throttle) (p : progress)
    (names : list string) (jobs : list task) (ticks : list tick) :
  let s := run_ticks cfg (RETRY cfg) (batch_start g p names jobs) ticks in
  Z.of_nat (length (errors (batch_stats s))) = fail (batch_stats s) /\
  length (errors (batch_stats s)) = count_outcomes false (trace s) /\
  length (error_samples s) = Nat.min 10 (length (errors (batch_stats s))) /\
  (length (error_samples s) <= 10)%nat.
Proof.
  intros s.
  assert (Hinv : batch_inv (length jobs) s)
    by (apply batch_inv_run, batch_inv_start).
  assert (Hlen : length (error_samples s) = Nat.min 10 (length (errors (batch_stats s))))
    by (unfold error_samples; now rewrite length_map, length_firstn).
  split; [|split; [|split]].
  - rewrite (inv_fail _ _ Hinv). f_equal. apply (inv_errors _ _ Hinv).
  - apply (inv_errors _ _ Hinv).
  - exact Hlen.
  - rewrite Hlen. apply Nat.le_min_l.
Qed.

(* Eleven jobs that fail terminally leave eleven entries in stats["errors"],
   of which run logs ten. *)
Lemma stats_errors_counterexample :
  let cfg := with_retry sample_cfg 0 in
  let s := run_ticks cfg (RETRY cfg)
             (batch_start throttle_init no_progress ["A"] eleven_jobs) eleven_failures in
  option_map (fun st => (fail st, length (errors st)))
    (run_once cfg throttle_init no_progress ["A"] eleven_jobs eleven_failures)
  = Some (11, 11%nat)
  /\ ~ (length (errors (batch_stats s)) <= 10)%nat
  /\ length (error_samples s) = 10%nat.
Proof.
  cbv zeta. split; [vm_compute; reflexivity|]. split.
  - intros H. vm_compute in H. lia.
  - vm_compute. reflexivity.
Qed.
(* --------------------------------------------------------------------- *)
(*  The retry budget                                                       *)
(* --------------------------------------------------------------------- *)

Lemma failure_report_line (cfg : config) (c : string) (t : task)
    (r : py (bool * string)) (line : log_line) (err : string) :
  failure_report cfg c t r = Some (line, err) -> dispatch_attempt (Log line) = [].
Proof.
  unfold failure_report.
  destruct r as [[[|] e]|e]; [discriminate| |destruct (exn_class_of e)];
    intros [= <- <-]; reflexivity.
Qed.

Lemma in_hand_holding (w : worker) (j : nat) (a : Z) (t0 : Q) :
  in_hand w = Some (j, a, t0) -> holding w = Some j.
Proof.
  unfold in_hand, holding. destruct (w_state w); intros [= -> -> ->]; reflexivity.
Qed.

Lemma held_by_holding (j : nat) (w : worker) : holding w = Some j -> held_by j w = 1%nat.
Proof. unfold held_by. intros ->. now rewrite Nat.eqb_refl. Qed.

Lemma held_le_holders (j : nat) (ws : list worker) (i : nat) (w : worker) :
  ws !! i = Some w -> (held_by j w <= holders j ws)%nat.
Proof.
  unfold holders. revert i. induction ws as [|x ws IH]; intros i Hi; [discriminate|].
  rewrite map_cons, list_sum_cons. destruct i as [|i].
  - injection Hi as ->. lia.
  - specialize (IH i Hi). lia.
Qed.

(* a task in the hands of a worker is in no other place *)
Lemma holder_refs (n : nat) (s : sched) (i : nat) (w : worker) (j : nat) :
  batch_inv n s -> workers s !! i = Some w -> holding w = Some j ->
  (j < n)%nat /\ queued j (queue s) = 0%nat /\ outcomes j (trace s) = []
  /\ holders j (workers s) = 1%nat.
Proof.
  intros Hinv Hw Hj. pose proof (inv_refs _ _ Hinv j) as Hrefs.
  pose proof (held_le_holders j _ _ _ Hw) as Hle.
  rewrite (held_by_holding _ _ Hj) in Hle.
  destruct (Nat.ltb_spec j n); [|lia].
  repeat split; try lia. destruct (outcomes j (trace s)); [reflexivity|cbn in Hrefs; lia].
Qed.

(* and in the hands of one worker only *)
Lemma holder_unique (n : nat) (s : sched) (i i' : nat) (w w' : worker) (j : nat) :
  batch_inv n s ->
  workers s !! i = Some w -> holding w = Some j ->
  workers s !! i' = Some w' -> holding w' = Some j ->
  i = i'.
Proof.
  intros Hinv Hw Hj Hw' Hj'. destruct (Nat.eq_dec i i') as [|Hne]; [assumption|].
  exfalso.
  destruct (holder_refs _ _ _ _ _ Hinv Hw Hj) as (_ & _ & _ & Hone).
  pose proof (holders_moved_on j s i w Returned Hw) as Hh.
  rewrite (held_by_holding _ _ Hj), held_by_state in Hh.
  assert (Hw2 : moved_on s i w Returned !! i' = Some w')
    by (unfold moved_on; now rewrite list_lookup_insert_ne).
  pose proof (held_le_holders j _ _ _ Hw2) as Hle.
  rewrite (held_by_holding _ _ Hj') in Hle. lia.
Qed.

(* a task in the queue is there once, and in no worker's hands *)
Lemma queued_refs (n : nat) (s : sched) (j : nat) :
  batch_inv n s -> In j (queue s) ->
  (j < n)%nat /\ queued j (queue s) = 1%nat /\ outcomes j (trace s) = []
  /\ forall i w, workers s !! i = Some w -> holding w <> Some j.
Proof.
  intros Hinv Hin. pose proof (inv_refs _ _ Hinv j) as Hrefs.
  assert (Hq : (0 < queued j (queue s))%nat) by (unfold queued; now apply count_occ_In).
  destruct (Nat.ltb_spec j n); [|lia].
  repeat split; try lia.
  - destruct (outcomes j (trace s)); [reflexivity|cbn in Hrefs; lia].
  - intros i w Hw Hj. pose proof (held_le_holders j _ _ _ Hw) as Hle.
    rewrite (held_by_holding _ _ Hj) in Hle. lia.
Qed.

(* a task with a terminal outcome is referenced from nowhere *)
Lemma outcome_refs (n : nat) (s : sched) (j : nat) (b : bool) :
  batch_inv n s -> In b (outcomes j (trace s)) ->
  queued j (queue s) = 0%nat /\ outcomes j (trace s) = [b]
  /\ forall i w, workers s !! i = Some w -> holding w <> Some j.
Proof.
  intros Hinv Hin. pose proof (inv_refs _ _ Hinv j) as Hrefs.
  destruct (outcomes j (trace s)) as [|b' [|b'' l]] eqn:Hout; [destruct Hin| |];
    cbn [length] in Hrefs; destruct (Nat.ltb_spec j n); try lia.
  destruct Hin as [->|[]]. repeat split; try lia.
  intros i w Hw Hj. pose proof (held_le_holders j _ _ _ Hw) as Hle.
  rewrite (held_by_holding _ _ Hj) in Hle. lia.
Qed.

Lemma attempts_upto_S (m : nat) :
  attempts_upto (S m) = attempts_upto m ++ [Z.of_nat m].
Proof. unfold attempts_upto. now rewrite seq_S, map_app. Qed.

Lemma dispatches_logged (j : nat) (s : sched) (tk : tick) (j0 : nat)
    (acts : list action) :
  dispatches j (logged s tk j0 acts)
  = dispatches j (trace s)
    ++ (if Nat.eqb j0 j then flat_map dispatch_attempt acts else []).
Proof. unfold dispatches. now rewrite per_task_logged. Qed.

Lemma dispatch_line_attempt (c : string) (retry : Z) (t : task) :
  dispatch_attempt (Log (dispatch_line c retry t)) = [attempt_of t].
Proof.
  unfold dispatch_line, attempt_of.
  destruct (Z.eqb_spec (get_or (_retry_count t) 0) 0) as [->|]; reflexivity.
Qed.

Lemma moved_on_lookup (s : sched) (i : nat) (w : worker) (st : wstate)
    (i' : nat) (w' : worker) :
  moved_on s i w st !! i' = Some w' ->
  (i' = i /\ w' = {| w_container := w_container w; w_state := st |})
  \/ (i' <> i /\ workers s !! i' = Some w').
Proof.
  unfold moved_on. intros H.
  apply list_lookup_insert_Some in H as [(-> & <- & _)|[Hne H]].
  - now left.
  - right. split; [congruence|exact H].
Qed.

Lemma dispatched_sets (start : option Q) (now : Q) (l : log_line) :
  flat_map dispatch_attempt
    (match start with
     | None => [SetStartTime now]
     | Some _ => []
     end ++ [Log l])
  = dispatch_attempt (Log l).
Proof. destruct start; cbn [flat_map app dispatch_attempt]; now rewrite app_nil_r. Qed.

Lemma outcome_sets (start : option Q) (now : Q) (l : log_line) :
  flat_map outcome_of
    (match start with
     | None => [SetStartTime now]
     | Some _ => []
     end ++ [Log l])
  = [].
Proof. now destruct start. Qed.

Lemma dispatched_sleep (o : option Q) :
  flat_map dispatch_attempt
    (match o with
     | Some secs => [Sleep secs]
     | None => []
     end) = [].
Proof. now destruct o. Qed.

Lemma outcome_sleep (o : option Q) :
  flat_map outcome_of
    (match o with
     | Some secs => [Sleep secs]
     | None => []
     end) = [].
Proof. now destruct o. Qed.

Lemma in_hand_state (w : worker) (j : nat) (a : Z) (t0 : Q) :
  w_state w = AtGate j a t0 \/ w_state w = InExec j a t0 ->
  in_hand w = Some (j, a, t0).
Proof. unfold in_hand. now intros [->| ->]. Qed.

(* a step that leaves the task dicts alone keeps the attempts the workers read *)
Ltac local_kept Hlocal Hw :=
  let i := fresh "i" in let w' := fresh "w'" in let j := fresh "j" in
  let a := fresh "a" in let t0 := fresh "t0" in
  let Hw' := fresh "Hw'" in let Hhand := fresh "Hhand" in let Hne := fresh "Hne" in
  intros i w' j a t0 Hw' Hhand;
  apply moved_on_lookup in Hw' as [[-> ->]|[Hne Hw']];
  [first [discriminate
         |unfold in_hand in Hhand; cbn [w_state] in Hhand;
          injection Hhand as <- <- <-;
          eapply (Hlocal _ _ _ _ _ Hw), in_hand_state; eauto]
  |now apply (Hlocal i w' j a t0)].

Lemma retry_inv_step (n : nat) (cfg : config) (retry : Z) (s s' : sched) (tk : tick) :
  0 <= retry -> batch_inv n s -> retry_inv retry s ->
  transition cfg retry s tk s' -> retry_inv retry s'.
Proof.
  intros Hretry Hinv [Hcount Hlocal Hdisp Hfailed] Htr.
  inversion Htr as
    [Hidle
    |w Hw Hs Hq
    |w j0 q' t Hw Hs Hq Ht
    |w j0 a0 t00 Hw Hs
    |w j0 a0 t00 r fx Hw Hs Hexec Hrep
    |w j0 a0 t00 r fx line err Hw Hs Hexec Hrep Hlt
    |w j0 a0 t00 r fx line err Hw Hs Hexec Hrep Hge]; subst s'; clear Htr.
  - constructor; assumption.
  - (* the worker returns *)
    constructor; proj_fields; try assumption.
    intros i w' j a t0 Hw' Hhand.
    apply moved_on_lookup in Hw' as [[-> ->]|[Hne Hw']]; [discriminate|].
    now apply (Hlocal i w' j a t0).
  - (* a task is taken from the queue *)
    assert (Hin : In j0 (queue s)) by (rewrite Hq; now left).
    destruct (queued_refs _ _ _ Hinv Hin) as (Hj0 & Hone & Hout & Hfree).
    rewrite Hq, queued_cons, Nat.eqb_refl in Hone.
    constructor; proj_fields.
    + intros j t' Hj.
      apply list_lookup_insert_Some in Hj as [(<- & <- & _)|[Hne Hj]].
      * change (attempt_of (taken (w_container w) (wall tk) t)) with (attempt_of t).
        now apply (Hcount j0).
      * now apply (Hcount j).
    + intros i w' j a t0 Hw' Hhand.
      apply moved_on_lookup in Hw' as [[-> ->]|[Hne Hw']].
      * injection Hhand as <- <- <-.
        exists (taken (w_container w) (wall tk) t). split; [|reflexivity].
        apply list_lookup_insert_eq. now apply lookup_lt_Some in Ht.
      * destruct (Hlocal i w' j a t0 Hw' Hhand) as (t1 & Ht1 & Ha).
        exists t1. split; [|exact Ha].
        rewrite list_lookup_insert_ne; [exact Ht1|]. intros <-.
        apply (Hfree i w' Hw'). now apply (in_hand_holding _ _ a t0).
    + intros j t' Hj. rewrite dispatches_logged, dispatched_sets, dispatch_line_attempt.
      apply list_lookup_insert_Some in Hj as [(<- & <- & _)|[Hne Hj]].
      * rewrite Nat.eqb_refl, (Hdisp j0 t Ht), Hq, queued_cons, Nat.eqb_refl.
        change (attempt_of (taken (w_container w) (wall tk) t)) with (attempt_of t).
        pose proof (Hcount j0 t Ht) as Hrange.
        replace (Z.to_nat (attempt_of t) + 1 - (1 + queued j0 q'))%nat
          with (Z.to_nat (attempt_of t)) by lia.
        replace (Z.to_nat (attempt_of t) + 1 - queued j0 q')%nat
          with (S (Z.to_nat (attempt_of t))) by lia.
        rewrite attempts_upto_S. f_equal. f_equal. lia.
      * apply Nat.eqb_neq in Hne as Hneb. rewrite Hneb, app_nil_r.
        rewrite (Hdisp j t' Hj), Hq, queued_cons, Hneb. reflexivity.
    + intros j t' Hj. rewrite outcomes_logged, outcome_sets.
      destruct (Nat.eqb j0 j); rewrite app_nil_r; intros Hfalse.
      all: apply list_lookup_insert_Some in Hj as [(<- & <- & _)|[Hne Hj]].
      all: try (rewrite Hout in Hfalse; now destruct Hfalse).
      all: try now apply (Hfailed j t' Hj).
  - (* the throttle gate *)
    constructor; proj_fields; try assumption.
    + local_kept Hlocal Hw.
    + intros j t' Hj. rewrite dispatches_logged, dispatched_sleep.
      destruct (Nat.eqb j0 j); rewrite app_nil_r; now apply Hdisp.
    + intros j t' Hj. rewrite outcomes_logged, outcome_sleep.
      destruct (Nat.eqb j0 j); rewrite app_nil_r; now apply Hfailed.
  - (* success *)
    constructor; proj_fields; try assumption.
    + local_kept Hlocal Hw.
    + intros j t' Hj. rewrite dispatches_logged.
      rewrite flat_map_exec by reflexivity. cbn [flat_map dispatch_attempt app].
      destruct (Nat.eqb j0 j); rewrite app_nil_r; now apply Hdisp.
    + intros j t' Hj. rewrite outcomes_logged.
      rewrite flat_map_exec by reflexivity. cbn [flat_map outcome_of app].
      destruct (Nat.eqb j0 j); rewrite ?app_nil_r; [|now apply Hfailed].
      intros Hfalse. apply in_app_or in Hfalse as [Hfalse|[Hfalse|[]]];
        [now apply (Hfailed j t' Hj)|discriminate].
  - (* put back into the queue *)
    pose proof (in_hand_state w j0 a0 t00 (or_intror Hs)) as Hhand0.
    destruct (Hlocal _ _ _ _ _ Hw Hhand0) as (t1 & Ht1 & Ha1).
    destruct (holder_refs _ _ _ _ _ Hinv Hw (in_hand_holding _ _ _ _ Hhand0))
      as (Hj0 & Hnone & Hout & Hone).
    pose proof (Hcount j0 t1 Ht1) as Hrange.
    unfold after_requeue. rewrite (task_of_lookup s j0 t1 Ht1).
    constructor; proj_fields.
    + intros j t' Hj.
      apply list_lookup_insert_Some in Hj as [(<- & <- & _)|[Hne Hj]].
      * change (attempt_of (set_retry_count (a0 + 1) t1)) with (a0 + 1). lia.
      * now apply (Hcount j).
    + intros i w' j a t0 Hw' Hhand.
      apply moved_on_lookup in Hw' as [[-> ->]|[Hne Hw']]; [discriminate|].
      destruct (Hlocal i w' j a t0 Hw' Hhand) as (t2 & Ht2 & Ha).
      exists t2. split; [|exact Ha].
      rewrite list_lookup_insert_ne; [exact Ht2|]. intros <-.
      apply Hne. symmetry.
      apply (holder_unique n s (who tk) i w w' j0 Hinv Hw
               (in_hand_holding _ _ _ _ Hhand0) Hw' (in_hand_holding _ _ _ _ Hhand)).
    + intros j t' Hj. rewrite dispatches_logged.
      rewrite flat_map_exec by reflexivity. cbn [flat_map].
      rewrite (failure_report_line _ _ _ _ _ _ Hrep). cbn [dispatch_attempt app].
      rewrite queued_app.
      apply list_lookup_insert_Some in Hj as [(<- & <- & _)|[Hne Hj]].
      * rewrite Nat.eqb_refl, app_nil_r, (Hdisp j0 t1 Ht1), Hnone.
        change (attempt_of (set_retry_count (a0 + 1) t1)) with (a0 + 1).
        f_equal. lia.
      * apply Nat.eqb_neq in Hne as Hneb. rewrite Hneb, app_nil_r, Nat.add_0_r.
        now apply Hdisp.
    + intros j t' Hj. rewrite outcomes_logged.
      rewrite flat_map_exec by reflexivity. cbn [flat_map].
      assert (Hline : outcome_of (Log line) = []) by reflexivity.
      rewrite Hline. cbn [outcome_of app].
      apply list_lookup_insert_Some in Hj as [(<- & <- & _)|[Hne Hj]].
      * rewrite Nat.eqb_refl, app_nil_r, Hout. intros [].
      * destruct (Nat.eqb j0 j); rewrite app_nil_r; now apply Hfailed.
  - (* given up *)
    pose proof (in_hand_state w j0 a0 t00 (or_intror Hs)) as Hhand0.
    destruct (Hlocal _ _ _ _ _ Hw Hhand0) as (t1 & Ht1 & Ha1).
    pose proof (Hcount j0 t1 Ht1) as Hrange.
    constructor; proj_fields; try assumption.
    + local_kept Hlocal Hw.
    + intros j t' Hj. rewrite dispatches_logged.
      rewrite flat_map_exec by reflexivity. cbn [flat_map].
      rewrite (failure_report_line _ _ _ _ _ _ Hrep). cbn [dispatch_attempt app].
      destruct (Nat.eqb j0 j); rewrite app_nil_r; now apply Hdisp.
    + intros j t' Hj. rewrite outcomes_logged.
      destruct (Nat.eqb_spec j0 j) as [<-|Hne];
        [|rewrite app_nil_r; now apply Hfailed].
      intros _. rewrite Ht1 in Hj. injection Hj as <-. lia.
Qed.

(* run_once starts a batch of jobs that were never dispatched within the
   budget *)
Lemma retry_inv_start (retry : Z) (g : throttle) (p : progress)
    (names : list string) (jobs : list task) :
  0 <= retry ->
  Forall (fun t => _retry_count t = None) jobs ->
  retry_inv retry (batch_start g p names jobs).
Proof.
  intros Hretry Hfresh.
  assert (Hzero : forall j t, jobs !! j = Some t -> attempt_of t = 0).
  { intros j t Hj. unfold attempt_of.
    now rewrite (proj1 (Forall_lookup _ jobs) Hfresh j t Hj). }
  constructor; unfold batch_start; proj_fields.
  - intros j t Hj. rewrite (Hzero j t Hj). lia.
  - intros i w j a t0 Hw Hhand. rewrite list_lookup_fmap in Hw.
    destruct (names !! i); [|discriminate]. injection Hw as <-. discriminate.
  - intros j t Hj. rewrite (Hzero j t Hj), queued_seq.
    apply lookup_lt_Some in Hj as Hlt.
    destruct (Nat.leb_spec 0 j), (Nat.ltb_spec j (0 + length jobs));
      cbn [andb]; try lia. reflexivity.
  - intros j t Hj [].
Qed.

(* the retry counter is kept all along a run *)
Lemma retry_inv_run (n : nat) (cfg : config) (retry : Z) (ticks : list tick)
    (s : sched) :
  0 <= retry -> batch_inv n s -> retry_inv retry s ->
  batch_inv n (run_ticks cfg retry s ticks)
  /\ retry_inv retry (run_ticks cfg retry s ticks).
Proof.
  intros Hretry. revert s.
  induction ticks as [|tk ticks IH]; intros s Hinv Hri; [now split|].
  cbn [run_ticks fold_left]. apply IH.
  - now apply batch_inv_worker_loop.
  - apply (retry_inv_step n cfg retry s _ tk Hretry Hinv Hri).
    apply worker_loop_transition. now apply (batch_inv_queue_valid n).
Qed.

(* the step of worker_loop behind a failed execution *)
Lemma worker_loop_failed (cfg : config) (retry : Z) (s : sched) (tk : tick)
    (w : worker) (j : nat) (a : Z) (t0 : Q) (r : py (bool * string))
    (fx : list fs_effect) (line : log_line) (err : string) :
  workers s !! who tk = Some w -> w_state w = InExec j a t0 ->
  exec_once cfg (env tk) (task_of s j) = (r, fx) ->
  failure_report cfg (w_container w) (task_of s j) r = Some (line, err) ->
  worker_loop cfg retry s tk
  = if a <? retry then after_requeue s tk w j a fx line
    else after_final cfg s tk w j t0 fx line err.
Proof.
  intros Hw Hs Hexec Hrep. unfold worker_loop. rewrite Hw, Hs.
  now rewrite (worker_loop_exec_eq cfg retry s tk w j a t0 r fx Hexec), Hrep.
Qed.

(** C2: with a retry budget RETRY >= 0 and jobs submitted without a
    _retry_count (as fetch_jobs builds them), in every state of a batch a
    job has been dispatched with the attempt numbers 0, 1, 2, ... in this
    order and at most RETRY + 1 times; once its terminal failure is recorded
    it has been dispatched exactly RETRY + 1 times (attempts 0 through
    RETRY) and is neither in the queue nor in a worker's hands any more; a
    job none of whose executions succeeded has been dispatched exactly
    RETRY + 1 times when the batch ends.  Whenever an execution fails (ok
    False, a timeout or another exception) the attempt read by the worker
    is within the budget: below RETRY the job is put back into the queue
    with _retry_count = attempt + 1 and no terminal outcome, at RETRY the
    terminal failure is recorded and the job is not put back. *)
Theorem retry_budget_respected (cfg : config) (g : throttle) (p : progress)
    (names : list string) (jobs : list task) (ticks : list tick) :
  0 <= RETRY cfg ->
  Forall (fun t => _retry_count t = None) jobs ->
  let retry := RETRY cfg in
  let s := run_ticks cfg retry (batch_start g p names jobs) ticks in
  forall j, (j < length jobs)%nat ->
    (exists m, (m <= Z.to_nat retry + 1)%nat
               /\ dispatches j (trace s) = attempts_upto m) /\
    (In false (outcomes j (trace s)) ->
       dispatches j (trace s) = attempts_upto (Z.to_nat retry + 1)
       /\ queued j (queue s) = 0%nat /\ holders j (workers s) = 0%nat) /\
    (batch_finished s = true -> ~ In true (outcomes j (trace s)) ->
       dispatches j (trace s) = attempts_upto (Z.to_nat retry + 1)) /\
    (forall tk w a t0 r fx line err,
       workers s !! who tk = Some w -> w_state w = InExec j a t0 ->
       exec_once cfg (env tk) (task_of s j) = (r, fx) ->
       failure_report cfg (w_container w) (task_of s j) r = Some (line, err) ->
       let s' := worker_loop cfg retry s tk in
       0 <= a <= retry /\
       (a < retry ->
          queue s' = queue s ++ [j]
          /\ _retry_count (task_of s' j) = Some (a + 1)
          /\ outcomes j (trace s') = []) /\
       (a = retry ->
          queue s' = queue s /\ store s' = store s
          /\ outcomes j (trace s') = [false])).
Proof.
  intros Hretry Hfresh retry s j Hj.
  destruct (retry_inv_run (length jobs) cfg retry ticks
              (batch_start g p names jobs) Hretry
              (batch_inv_start g p names jobs)
              (retry_inv_start retry g p names jobs Hretry Hfresh))
    as [Hinv [Hcount Hlocal Hdisp Hfailed]].
  fold s in Hinv, Hcount, Hlocal, Hdisp, Hfailed.
  assert (Hlook : exists t, store s !! j = Some t).
  { apply lookup_lt_is_Some_2. now rewrite (inv_store _ _ Hinv). }
  destruct Hlook as [t Ht].
  pose proof (Hcount j t Ht) as Hrange.
  pose proof (inv_refs _ _ Hinv j) as Hrefs.
  replace (j <? length jobs)%nat with true in Hrefs
    by (symmetry; now apply Nat.ltb_lt).
  assert (Hterminal : In false (outcomes j (trace s)) ->
            dispatches j (trace s) = attempts_upto (Z.to_nat retry + 1)
            /\ queued j (queue s) = 0%nat /\ holders j (workers s) = 0%nat).
  { intros Hfalse. rewrite (Hdisp j t Ht), (Hfailed j t Ht Hfalse).
    destruct (outcomes j (trace s)); [destruct Hfalse|]. cbn [length] in Hrefs.
    repeat split; try lia. f_equal. lia. }
  split; [|split; [|split]].
  - exists (Z.to_nat (attempt_of t) + 1 - queued j (queue s))%nat.
    split; [lia|now apply Hdisp].
  - exact Hterminal.
  - intros Hfin Hnone. apply Hterminal.
    destruct (batch_finished_idle _ _ Hinv Hfin) as [Hq Hbusy].
    pose proof (holders_le_busy j (workers s)) as Hle.
    rewrite Hq in Hrefs. cbn [queued count_occ] in Hrefs.
    destruct (outcomes j (trace s)) as [|[|] l]; cbn [length] in Hrefs; try lia.
    + exfalso. apply Hnone. now left.
    + now left.
  - intros tk w a t0 r fx line err Hw Hs Hexec Hrep s'.
    pose proof (in_hand_state w j a t0 (or_intror Hs)) as Hhand.
    destruct (Hlocal _ _ _ _ _ Hw Hhand) as (t1 & Ht1 & Ha).
    rewrite Ht in Ht1. injection Ht1 as <-.
    destruct (holder_refs _ _ _ _ _ Hinv Hw (in_hand_holding _ _ _ _ Hhand))
      as (_ & Hnone & Hout & _).
    unfold s'. rewrite (worker_loop_failed cfg retry s tk w j a t0 r fx line err
                          Hw Hs Hexec Hrep).
    split; [lia|]. split.
    + intros Hlt. replace (a <? retry) with true by (symmetry; now apply Z.ltb_lt).
      proj_fields. split; [reflexivity|]. split.
      * unfold task_of. proj_fields.
        rewrite list_lookup_insert_eq by (now apply lookup_lt_Some in Ht).
        reflexivity.
      * rewrite outcomes_logged, Nat.eqb_refl, Hout.
        rewrite flat_map_exec by reflexivity. reflexivity.
    + intros Heq. replace (a <? retry) with false by (symmetry; apply Z.ltb_ge; lia).
      proj_fields. split; [reflexivity|]. split; [reflexivity|].
      rewrite outcomes_logged, Nat.eqb_refl, Hout.
      rewrite flat_map_exec by reflexivity. reflexivity.
Qed.

Lemma retry_budget_respected_witness :
  let cfg := with_retry sample_cfg 1 in
  dispatches 0 (trace (run_ticks cfg (RETRY cfg)
                         (batch_start throttle_init no_progress ["A"; "B"] three_jobs)
                         scenario_ticks))
  = [0; 1].
Proof.
  destruct (retry_budget_respected (with_retry sample_cfg 1) throttle_init
              no_progress ["A"; "B"] three_jobs scenario_ticks
              ltac:(cbn; lia) ltac:(repeat constructor)
              0%nat ltac:(cbn; lia)) as (_ & Hterminal & _).
  apply Hterminal. vm_compute. now left.
Defined.

(* --------------------------------------------------------------------- *)
(*  subprocess.TimeoutExpired                                              *)
(* --------------------------------------------------------------------- *)

Lemma without_logs_app (tr1 tr2 : list entry) :
  without_logs (tr1 ++ tr2) = without_logs tr1 ++ without_logs tr2.
Proof. unfold without_logs. apply List.filter_app. Qed.

(** C7: when the docker exec of a task raises subprocess.TimeoutExpired,
    exec_once lets it through and worker_loop takes the except branch, which
    does what the branch of a returned failure does: with attempt < retry it
    sets _retry_count = attempt + 1, sleeps 2 seconds and puts the task back,
    with no terminal outcome; otherwise it calls _handle_final_failure with
    the error text "timeout>" followed by DOCKER_EXEC_TIMEOUT and "s", which
    on_task_failed receives and stats["errors"] keeps, and records one
    terminal failure.  The state it leaves is the one a returned failure
    with this error text leaves, the logged lines apart. *)
Theorem timeout_handled_as_failure (cfg : config) (retry : Z) (s : sched)
    (tk : tick) (w : worker) (j : nat) (a : Z) (t0 : Q) (e : py_exn) :
  workers s !! who tk = Some w -> w_state w = InExec j a t0 ->
  docker_exec (env tk) = Raise e -> exn_class_of e = TimeoutExpired ->
  let s' := worker_loop cfg retry s tk in
  let line := LTimeout (w_container w) (get_or (row_id (task_of s j)) "")
                (get_or (url (task_of s j)) "") in
  let err := ("timeout>" ++ str_of_int (DOCKER_EXEC_TIMEOUT cfg) ++ "s")%string in
  exec_once cfg (env tk) (task_of s j) = (Raise e, []) /\
  (a < retry ->
     s' = goto (who tk) w AtLoopHead
            (q_task_done tk j
               (q_put tk j
                  (emit tk j (Sleep 2)
                     (update_task j (set_retry_count (a + 1))
                        (emit tk j (Log line) s)))))
     /\ s' = after_requeue s tk w j a [] line
     /\ outcomes j (trace s') = outcomes j (trace s)
     /\ batch_stats s' = batch_stats s) /\
  (retry <= a ->
     s' = goto (who tk) w AtLoopHead
            (q_task_done tk j
               (_handle_final_failure cfg tk j err t0
                  (emit tk j (Log line) s)))
     /\ s' = after_final cfg s tk w j t0 [] line err
     /\ queue s' = queue s
     /\ errors (batch_stats s') = errors (batch_stats s) ++ [(j, err)]
     /\ fail (batch_stats s') = fail (batch_stats s) + 1
     /\ trace s'
        = trace s
          ++ map (entry_of tk j)
               [Log line;
                Log (LGiveUp (get_or (container (task_of s j)) "unknown")
                       (get_or (row_id (task_of s j)) "")
                       (get_or (url (task_of s j)) "") (RETRY cfg + 1));
                OnTaskFailed err; Progress false (wall tk - t0)%Q; TaskDone]
     /\ outcomes j (trace s') = outcomes j (trace s) ++ [false]) /\
  (forall tk2,
     who tk2 = who tk -> wall tk2 = wall tk ->
     exec_once cfg (env tk2) (task_of s j) = (Ret (false, err), []) ->
     same_but_logs (worker_loop cfg retry s tk2) s').
Proof.
  intros Hw Hs Hdocker Hclass s' line err.
  change err with (timeout_error cfg) in *.
  assert (Hexec : exec_once cfg (env tk) (task_of s j) = (Raise e, []))
    by (unfold exec_once; now rewrite Hdocker).
  assert (Hrep : failure_report cfg (w_container w) (task_of s j) (Raise e)
                 = Some (line, timeout_error cfg))
    by (unfold failure_report; now rewrite Hclass).
  assert (Hpath : s' = worker_loop_exec cfg (who tk) w retry j a t0 tk s)
    by (unfold s', worker_loop; now rewrite Hw, Hs).
  assert (Hstep : s' = if a <? retry then after_requeue s tk w j a [] line
                       else after_final cfg s tk w j t0 [] line (timeout_error cfg))
    by (apply (worker_loop_failed cfg retry s tk w j a t0 (Raise e) [] line
                 (timeout_error cfg) Hw Hs Hexec Hrep)).
  split; [exact Hexec|]. split; [|split].
  - intros Hlt. apply Z.ltb_lt in Hlt as Hltb. rewrite Hltb in Hstep.
    split; [|split; [exact Hstep|]].
    + rewrite Hpath. unfold worker_loop_exec.
      rewrite Hexec, Hclass, Hltb. reflexivity.
    + rewrite Hstep. proj_fields. split; [|reflexivity].
      rewrite outcomes_logged. cbn [map app flat_map outcome_of].
      destruct (Nat.eqb j j); now rewrite app_nil_r.
  - intros Hge. apply Z.ltb_ge in Hge as Hgeb. rewrite Hgeb in Hstep.
    split; [|split; [exact Hstep|]].
    + rewrite Hpath. unfold worker_loop_exec.
      rewrite Hexec, Hclass, Hgeb. reflexivity.
    + rewrite Hstep. proj_fields.
      split; [reflexivity|]. split; [reflexivity|]. split; [reflexivity|].
      split; [reflexivity|].
      rewrite outcomes_logged. cbn [map app flat_map outcome_of].
      rewrite Nat.eqb_refl. reflexivity.
  - intros tk2 Hwho Hwall Hexec2.
    assert (Hw2 : workers s !! who tk2 = Some w) by (now rewrite Hwho).
    assert (Hrep2 : failure_report cfg (w_container w) (task_of s j)
                      (Ret (false, timeout_error cfg))
                    = Some (LFail (w_container w) (get_or (row_id (task_of s j)) "")
                              (str_take 200 (timeout_error cfg)),
                            timeout_error cfg)) by reflexivity.
    rewrite (worker_loop_failed cfg retry s tk2 w j a t0 _ [] _ _ Hw2 Hs Hexec2 Hrep2).
    rewrite Hstep. unfold same_but_logs.
    destruct (a <? retry); proj_fields; unfold logged, moved_on, entry_of;
      rewrite Hwho, Hwall, !without_logs_app; repeat split; reflexivity.
Qed.

(* A timeout on the first attempt of job 0: with the retry budget 5 the
   job is put back with _retry_count = 1; with the retry budget 0 it is
   given up, with the error text timeout>6000s. *)
Lemma timeout_handled_as_failure_witness :
  let tk := tick_at 0 2 env_timeout in
  (let s' := worker_loop sample_cfg (RETRY sample_cfg) in_exec_sample tk in
   queue s' = [1; 2; 0]%nat
   /\ _retry_count (task_of s' 0) = Some 1
   /\ outcomes 0 (trace s') = [])
  /\ (let s' := worker_loop (with_retry sample_cfg 0) 0 in_exec_sample tk in
      queue s' = [1; 2]%nat
      /\ errors (batch_stats s') = [(0%nat, "timeout>6000s")]
      /\ fail (batch_stats s') = 1
      /\ outcomes 0 (trace s') = [false]
      /\ In (entry_of tk 0 (OnTaskFailed "timeout>6000s")) (trace s')).
Proof.
  pose (e := {| exn_class_of := TimeoutExpired; exn_str := "Command timed out";
                exn_repr := "TimeoutExpired()" |}).
  pose (w := {| w_container := "A"; w_state := InExec 0 0 0 |}).
  split.
  - destruct (timeout_handled_as_failure sample_cfg (RETRY sample_cfg) in_exec_sample
                (tick_at 0 2 env_timeout) w 0%nat 0 0%Q e
                ltac:(vm_compute; reflexivity) ltac:(reflexivity)
                ltac:(reflexivity) ltac:(reflexivity))
      as (_ & Hrequeue & _).
    destruct (Hrequeue ltac:(cbn; lia)) as (_ & Hstate & _).
    cbv zeta. rewrite Hstate. vm_compute. repeat split; reflexivity.
  - destruct (timeout_handled_as_failure (with_retry sample_cfg 0) 0 in_exec_sample
                (tick_at 0 2 env_timeout) w 0%nat 0 0%Q e
                ltac:(vm_compute; reflexivity) ltac:(reflexivity)
                ltac:(reflexivity) ltac:(reflexivity))
      as (_ & _ & Hfinal & _).
    destruct (Hfinal ltac:(lia)) as (_ & Hstate & _).
    cbv zeta. rewrite Hstate. vm_compute.
    repeat split; try reflexivity. right. right. right. right. now left.
Defined.

(* --------------------------------------------------------------------- *)
(*  task["_start_time"]                                                    *)
(* --------------------------------------------------------------------- *)

Lemma dispatch_times_logged (j : nat) (s : sched) (tk : tick) (j0 : nat)
    (acts : list action) :
  dispatch_times j (logged s tk j0 acts)
  = dispatch_times j (trace s)
    ++ (if Nat.eqb j0 j then flat_map (dispatch_time (wall tk)) acts else []).
Proof. unfold dispatch_times. now rewrite per_task_logged. Qed.

Lemma start_time_sets_logged (j : nat) (s : sched) (tk : tick) (j0 : nat)
    (acts : list action) :
  start_time_sets j (logged s tk j0 acts)
  = start_time_sets j (trace s)
    ++ (if Nat.eqb j0 j then flat_map start_time_set acts else []).
Proof. unfold start_time_sets. now rewrite per_task_logged. Qed.

Lemma recorded_elapsed_logged (j : nat) (s : sched) (tk : tick) (j0 : nat)
    (acts : list action) :
  recorded_elapsed j (logged s tk j0 acts)
  = recorded_elapsed j (trace s)
    ++ (if Nat.eqb j0 j then flat_map (elapsed_of (wall tk)) acts else []).
Proof. unfold recorded_elapsed. now rewrite per_task_logged. Qed.

Lemma failure_report_time (cfg : config) (c : string) (t : task)
    (r : py (bool * string)) (line : log_line) (err : string) (now : Q) :
  failure_report cfg c t r = Some (line, err) -> dispatch_time now (Log line) = [].
Proof.
  intros H. unfold dispatch_time. now rewrite (failure_report_line _ _ _ _ _ _ H).
Qed.

(* no step takes _start_time away from a dict, or changes it *)
Lemma start_time_kept (cfg : config) (retry : Z) (s s' : sched) (tk : tick)
    (j : nat) (t : task) (t0 : Q) :
  transition cfg retry s tk s' ->
  store s !! j = Some t -> _start_time t = Some t0 ->
  exists t', store s' !! j = Some t' /\ _start_time t' = Some t0.
Proof.
  intros Htr Hj Hstart.
  inversion Htr as
    [Hidle
    |w Hw Hs Hq
    |w j0 q' t1 Hw Hs Hq Ht
    |w j0 a0 t00 Hw Hs
    |w j0 a0 t00 r fx Hw Hs Hexec Hrep
    |w j0 a0 t00 r fx line err Hw Hs Hexec Hrep Hlt
    |w j0 a0 t00 r fx line err Hw Hs Hexec Hrep Hge]; subst s'; clear Htr;
    proj_fields; try (now exists t).
  - (* a task is taken from the queue *)
    destruct (Nat.eq_dec j0 j) as [->|Hne].
    + rewrite Hj in Ht. injection Ht as <-.
      exists (taken (w_container w) (wall tk) t). split.
      * apply list_lookup_insert_eq. now apply lookup_lt_Some in Hj.
      * unfold taken. cbn [_start_time]. now rewrite Hstart.
    + exists t. now rewrite list_lookup_insert_ne.
  - (* put back into the queue *)
    destruct (Nat.eq_dec j0 j) as [->|Hne].
    + rewrite (task_of_lookup s j t Hj).
      exists (set_retry_count (a0 + 1) t). split; [|exact Hstart].
      apply list_lookup_insert_eq. now apply lookup_lt_Some in Hj.
    + exists t. now rewrite list_lookup_insert_ne.
Qed.

(* a step that sets no _start_time and dispatches nothing *)
Lemma start_inv_quiet (s s' : sched) (tk : tick) (j0 : nat) (acts : list action) :
  start_inv s ->
  (forall j t', store s' !! j = Some t' ->
     exists t, store s !! j = Some t /\ _start_time t' = _start_time t) ->
  (forall j t, store s !! j = Some t ->
     exists t', store s' !! j = Some t' /\ _start_time t' = _start_time t) ->
  trace s' = logged s tk j0 acts ->
  flat_map (dispatch_time (wall tk)) acts = [] ->
  flat_map start_time_set acts = [] ->
  (forall now el, In (now, el) (flat_map (elapsed_of (wall tk)) acts) ->
     exists t t0, store s !! j0 = Some t /\ _start_time t = Some t0
                  /\ el = (now - t0)%Q) ->
  (forall i w j a t0, workers s' !! i = Some w -> in_hand w = Some (j, a, t0) ->
     exists w0, workers s !! i = Some w0 /\ in_hand w0 = Some (j, a, t0)) ->
  start_inv s'.
Proof.
  intros [Hunset Hset Hlocal Helapsed] Hback Hforth Htrace Hnodisp Hnoset Hnew Hworkers.
  constructor.
  - intros j t' Hj Hnone. destruct (Hback j t' Hj) as (t & Ht & Heq).
    rewrite Hnone in Heq. symmetry in Heq.
    destruct (Hunset j t Ht Heq) as [Hd Hs].
    rewrite Htrace, dispatch_times_logged, start_time_sets_logged, Hnodisp, Hnoset, Hd, Hs.
    now destruct (Nat.eqb j0 j).
  - intros j t' t0 Hj Hsome. destruct (Hback j t' Hj) as (t & Ht & Heq).
    rewrite Hsome in Heq. symmetry in Heq.
    destruct (Hset j t t0 Ht Heq) as [Hd Hs].
    rewrite Htrace, dispatch_times_logged, start_time_sets_logged, Hnodisp, Hnoset, Hs.
    split; [|now destruct (Nat.eqb j0 j)].
    destruct (Nat.eqb j0 j); now rewrite app_nil_r.
  - intros i w j a t0 Hw Hhand.
    destruct (Hworkers i w j a t0 Hw Hhand) as (w0 & Hw0 & Hhand0).
    destruct (Hlocal i w0 j a t0 Hw0 Hhand0) as (t & Ht & Hstart).
    destruct (Hforth j t Ht) as (t' & Ht' & Heq).
    exists t'. split; [exact Ht'|]. now rewrite Heq.
  - intros j now el Hin. rewrite Htrace, recorded_elapsed_logged in Hin.
    apply in_app_or in Hin as [Hin|Hin].
    + destruct (Helapsed j now el Hin) as (t & t0 & Ht & Hstart & Hel).
      destruct (Hforth j t Ht) as (t' & Ht' & Heq).
      exists t', t0. split; [exact Ht'|]. split; [now rewrite Heq|exact Hel].
    + destruct (Nat.eqb_spec j0 j) as [<-|Hne]; [|destruct Hin].
      destruct (Hnew now el Hin) as (t & t0 & Ht & Hstart & Hel).
      destruct (Hforth j0 t Ht) as (t' & Ht' & Heq).
      exists t', t0. split; [exact Ht'|]. split; [now rewrite Heq|exact Hel].
Qed.

Lemma sleep_no_time (o : option Q) (now : Q) :
  flat_map (dispatch_time now)
    (match o with
     | Some secs => [Sleep secs]
     | None => []
     end) = [].
Proof. now destruct o. Qed.

Lemma sleep_no_set (o : option Q) :
  flat_map start_time_set
    (match o with
     | Some secs => [Sleep secs]
     | None => []
     end) = [].
Proof. now destruct o. Qed.

Lemma sleep_no_elapsed (o : option Q) (now : Q) :
  flat_map (elapsed_of now)
    (match o with
     | Some secs => [Sleep secs]
     | None => []
     end) = [].
Proof. now destruct o. Qed.

Lemma lookup_task_of (s : sched) (j : nat) :
  (j < length (store s))%nat -> store s !! j = Some (task_of s j).
Proof.
  intros Hlt. apply lookup_lt_is_Some_2 in Hlt as [t Ht].
  now rewrite (task_of_lookup s j t Ht).
Qed.

(* the workers of the next state read their task_start_time in this one *)
Ltac workers_kept w Hw Hs :=
  let i := fresh "i" in let w' := fresh "w'" in let j := fresh "j" in
  let a := fresh "a" in let t0 := fresh "t0" in
  let Hw' := fresh "Hw'" in let Hhand := fresh "Hhand" in let Hne := fresh "Hne" in
  intros i w' j a t0 Hw' Hhand;
  apply moved_on_lookup in Hw' as [[-> ->]|[Hne Hw']];
  [first [discriminate
         |exists w; split; [exact Hw|];
          unfold in_hand in *; cbn [w_state] in Hhand; rewrite Hs; exact Hhand]
  |now exists w'].

Ltac store_kept :=
  let j := fresh "j" in let t := fresh "t" in let Hj := fresh "Hj" in
  intros j t Hj; exists t; split; [exact Hj|reflexivity].

Lemma start_inv_step (cfg : config) (retry : Z) (s s' : sched) (tk : tick) :
  start_inv s -> transition cfg retry s tk s' -> start_inv s'.
Proof.
  intros Hsi Htr. pose proof Hsi as [Hunset Hset Hlocal Helapsed].
  pose proof (fun j t t0 => start_time_kept cfg retry s s' tk j t t0 Htr) as Hkept.
  inversion Htr as
    [Hidle
    |w Hw Hs Hq
    |w j0 q' t Hw Hs Hq Ht
    |w j0 a0 t00 Hw Hs
    |w j0 a0 t00 r fx Hw Hs Hexec Hrep
    |w j0 a0 t00 r fx line err Hw Hs Hexec Hrep Hlt
    |w j0 a0 t00 r fx line err Hw Hs Hexec Hrep Hge]; subst s'; clear Htr.
  - exact Hsi.
  - (* the worker returns *)
    apply (start_inv_quiet s _ tk 0%nat [] Hsi); proj_fields;
      try store_kept; try reflexivity.
    + unfold logged. cbn [map]. now rewrite app_nil_r.
    + intros now el [].
    + workers_kept w Hw Hs.
  - (* a task is taken from the queue *)
    apply lookup_lt_Some in Ht as Hlt.
    constructor; proj_fields.
    + intros j t' Hj Hnone.
      apply list_lookup_insert_Some in Hj as [(<- & <- & _)|[Hne Hj]];
        [discriminate|].
      rewrite dispatch_times_logged, start_time_sets_logged.
      apply Nat.eqb_neq in Hne. rewrite Hne, !app_nil_r.
      now apply (Hunset j t').
    + intros j t' t0 Hj Hsome.
      rewrite dispatch_times_logged, start_time_sets_logged.
      apply list_lookup_insert_Some in Hj as [(<- & <- & _)|[Hne Hj]].
      * rewrite Nat.eqb_refl. unfold taken in Hsome. cbn [_start_time] in Hsome.
        destruct (_start_time t) as [t1|] eqn:Hstart;
          cbn [get_or] in Hsome; injection Hsome as <-.
        -- destruct (Hset j0 t t1 Ht Hstart) as [Hd Hsets].
           rewrite Hsets. cbn [app flat_map start_time_set]. split; [|reflexivity].
           destruct (dispatch_times j0 (trace s)); [discriminate|exact Hd].
        -- destruct (Hunset j0 t Ht Hstart) as [Hd Hsets].
           rewrite Hd, Hsets. cbn [app flat_map start_time_set dispatch_time map].
           unfold dispatch_time. rewrite dispatch_line_attempt. now split.
      * apply Nat.eqb_neq in Hne. rewrite Hne, !app_nil_r.
        now apply (Hset j t').
    + intros i w' j a t0 Hw' Hhand.
      apply moved_on_lookup in Hw' as [[-> ->]|[Hne Hw']].
      * injection Hhand as <- <- <-.
        exists (taken (w_container w) (wall tk) t). split; [|reflexivity].
        now apply list_lookup_insert_eq.
      * destruct (Hlocal i w' j a t0 Hw' Hhand) as (t1 & Ht1 & Hstart).
        apply (Hkept j t1 t0 Ht1 Hstart).
    + intros j now el Hin. rewrite recorded_elapsed_logged in Hin.
      assert (Hnone : flat_map (elapsed_of (wall tk))
                (match _start_time t with
                 | None => [SetStartTime (wall tk)]
                 | Some _ => []
                 end ++ [Log (dispatch_line (w_container w) retry t)]) = [])
        by (now destruct (_start_time t)).
      rewrite Hnone in Hin. apply in_app_or in Hin as [Hin|Hin];
        [|now destruct (Nat.eqb j0 j)].
      destruct (Helapsed j now el Hin) as (t1 & t0 & Ht1 & Hstart & Hel).
      destruct (Hkept j t1 t0 Ht1 Hstart) as (t' & Ht' & Hstart').
      now exists t', t0.
  - (* the throttle gate *)
    apply (start_inv_quiet s _ tk j0
             (match snd (_wait_before_first_exec cfg (gate s) (w_container w) (mono tk)) with
              | Some secs => [Sleep secs]
              | None => []
              end) Hsi); proj_fields; try store_kept; try reflexivity.
    + apply sleep_no_time.
    + apply sleep_no_set.
    + intros now el Hin. rewrite sleep_no_elapsed in Hin. destruct Hin.
    + workers_kept w Hw Hs.
  - (* success *)
    apply (start_inv_quiet s _ tk j0
             (map Exec fx ++
              [Log (LDone (w_container w) (get_or (row_id (task_of s j0)) "")
                      (get_or (url (task_of s j0)) "") (wall tk - t00));
               Progress true (wall tk - t00); TaskDone]) Hsi);
      proj_fields; try store_kept; try reflexivity.
    + now rewrite flat_map_exec by reflexivity.
    + now rewrite flat_map_exec by reflexivity.
    + intros now el Hin. rewrite flat_map_exec in Hin by reflexivity.
      destruct Hin as [[= <- <-]|[]].
      destruct (Hlocal _ _ _ _ _ Hw (in_hand_state w j0 a0 t00 (or_intror Hs)))
        as (t1 & Ht1 & Hstart).
      now exists t1, t00.
    + workers_kept w Hw Hs.
  - (* put back into the queue *)
    apply (start_inv_quiet s _ tk j0
             (map Exec fx ++ [Log line; Sleep 2; Put; TaskDone]) Hsi); proj_fields;
      try reflexivity.
    + intros j t' Hj.
      apply list_lookup_insert_Some in Hj as [(<- & <- & Hlen)|[Hne Hj]].
      * exists (task_of s j0). split; [now apply lookup_task_of|reflexivity].
      * now exists t'.
    + intros j t Hj. destruct (Nat.eq_dec j0 j) as [->|Hne].
      * exists (set_retry_count (a0 + 1) (task_of s j)). split.
        -- apply list_lookup_insert_eq. now apply lookup_lt_Some in Hj.
        -- now rewrite (task_of_lookup s j t Hj).
      * exists t. now rewrite list_lookup_insert_ne.
    + rewrite flat_map_exec by reflexivity. cbn [flat_map].
      now rewrite (failure_report_time _ _ _ _ _ _ (wall tk) Hrep).
    + now rewrite flat_map_exec by reflexivity.
    + intros now el Hin. rewrite flat_map_exec in Hin by reflexivity. destruct Hin.
    + workers_kept w Hw Hs.
  - (* given up *)
    apply (start_inv_quiet s _ tk j0
             (map Exec fx ++
              [Log line;
               Log (LGiveUp (get_or (container (task_of s j0)) "unknown")
                      (get_or (row_id (task_of s j0)) "")
                      (get_or (url (task_of s j0)) "") (RETRY cfg + 1));
               OnTaskFailed err; Progress false (wall tk - t00); TaskDone]) Hsi);
      proj_fields; try store_kept; try reflexivity.
    + rewrite flat_map_exec by reflexivity. cbn [flat_map].
      now rewrite (failure_report_time _ _ _ _ _ _ (wall tk) Hrep).
    + now rewrite flat_map_exec by reflexivity.
    + intros now el Hin. rewrite flat_map_exec in Hin by reflexivity.
      destruct Hin as [[= <- <-]|[]].
      destruct (Hlocal _ _ _ _ _ Hw (in_hand_state w j0 a0 t00 (or_intror Hs)))
        as (t1 & Ht1 & Hstart).
      now exists t1, t00.
    + workers_kept w Hw Hs.
Qed.

(* run_once starts a batch of jobs without _start_time *)
Lemma start_inv_start (g : throttle) (p : progress) (names : list string)
    (jobs : list task) :
  Forall (fun t => _start_time t = None) jobs ->
  start_inv (batch_start g p names jobs).
Proof.
  intros Hfresh. constructor; unfold batch_start; proj_fields.
  - intros j t _ _. now split.
  - intros j t t0 Hj Hsome.
    rewrite (proj1 (Forall_lookup _ jobs) Hfresh j t Hj) in Hsome. discriminate.
  - intros i w j a t0 Hw Hhand. rewrite list_lookup_fmap in Hw.
    destruct (names !! i); [|discriminate]. injection Hw as <-. discriminate.
  - intros j now el [].
Qed.

Lemma start_inv_run (n : nat) (cfg : config) (retry : Z) (ticks : list tick)
    (s : sched) :
  batch_inv n s -> start_inv s -> start_inv (run_ticks cfg retry s ticks).
Proof.
  revert s. induction ticks as [|tk ticks IH]; intros s Hinv Hsi; [exact Hsi|].
  cbn [run_ticks fold_left]. apply IH.
  - now apply batch_inv_worker_loop.
  - apply (start_inv_step cfg retry s _ tk Hsi).
    apply worker_loop_transition. now apply (batch_inv_queue_valid n).
Qed.

(* once set, _start_time stays as it is to the end of the batch *)
Lemma start_time_run_kept (n : nat) (cfg : config) (retry : Z) (ticks : list tick)
    (s : sched) (j : nat) (t : task) (t0 : Q) :
  batch_inv n s -> store s !! j = Some t -> _start_time t = Some t0 ->
  exists t', store (run_ticks cfg retry s ticks) !! j = Some t'
             /\ _start_time t' = Some t0.
Proof.
  revert s t. induction ticks as [|tk ticks IH]; intros s t Hinv Hj Hstart;
    [now exists t|].
  cbn [run_ticks fold_left].
  destruct (start_time_kept cfg retry s (worker_loop cfg retry s tk) tk j t t0)
    as (t' & Hj' & Hstart'); try assumption.
  - apply worker_loop_transition. now apply (batch_inv_queue_valid n).
  - apply (IH _ t'); try assumption. now apply batch_inv_worker_loop.
Qed.

(** C9: with jobs submitted without a _start_time (as fetch_jobs builds
    them), in every state of a batch a job either has no _start_time, and
    then it was never dispatched and no elapsed time was recorded for it, or
    its _start_time was set exactly once, to the time of its first dispatch;
    then every elapsed time recorded for it, on success or on terminal
    failure, is the time of that step minus this _start_time, and the
    _start_time stays the same for the rest of the batch, whatever retries
    follow. *)
Theorem start_time_set_once (cfg : config) (g : throttle) (p : progress)
    (names : list string) (jobs : list task) (ticks : list tick) :
  Forall (fun t => _start_time t = None) jobs ->
  let s := run_ticks cfg (RETRY cfg) (batch_start g p names jobs) ticks in
  forall j, (j < length jobs)%nat ->
    (_start_time (task_of s j) = None
     /\ dispatch_times j (trace s) = []
     /\ start_time_sets j (trace s) = []
     /\ recorded_elapsed j (trace s) = [])
    \/ (exists t0,
          _start_time (task_of s j) = Some t0
          /\ start_time_sets j (trace s) = [t0]
          /\ hd_error (dispatch_times j (trace s)) = Some t0
          /\ (forall now el, In (now, el) (recorded_elapsed j (trace s)) ->
                el = (now - t0)%Q)
          /\ (forall more,
                _start_time (task_of (run_ticks cfg (RETRY cfg) s more) j) = Some t0)).
Proof.
  intros Hfresh s j Hj.
  assert (Hinv : batch_inv (length jobs) s)
    by (apply batch_inv_run, batch_inv_start).
  assert (Hsi : start_inv s)
    by (apply (start_inv_run (length jobs)); [apply batch_inv_start|];
        now apply start_inv_start).
  destruct Hsi as [Hunset Hset Hlocal Helapsed].
  assert (Hlook : store s !! j = Some (task_of s j)).
  { apply lookup_task_of. now rewrite (inv_store _ _ Hinv). }
  destruct (_start_time (task_of s j)) as [t0|] eqn:Hstart.
  - right. exists t0. destruct (Hset j _ t0 Hlook Hstart) as [Hd Hsets].
    split; [reflexivity|]. split; [exact Hsets|]. split; [exact Hd|]. split.
    + intros now el Hin.
      destruct (Helapsed j now el Hin) as (t1 & t1' & Ht1 & Hstart1 & Hel).
      rewrite Hlook in Ht1. injection Ht1 as <-.
      rewrite Hstart in Hstart1. injection Hstart1 as <-. exact Hel.
    + intros more.
      destruct (start_time_run_kept (length jobs) cfg (RETRY cfg) more s j _ t0
                  Hinv Hlook Hstart) as (t' & Ht' & Hstart').
      now rewrite (task_of_lookup _ j t' Ht').
  - left. destruct (Hunset j _ Hlook Hstart) as [Hd Hsets].
    split; [reflexivity|]. split; [exact Hd|]. split; [exact Hsets|].
    destruct (recorded_elapsed j (trace s)) as [|[now el] l] eqn:Hrec; [reflexivity|].
    destruct (Helapsed j now el) as (t1 & t1' & Ht1 & Hstart1 & _).
    + rewrite Hrec. now left.
    + rewrite Hlook in Ht1. injection Ht1 as <-. congruence.
Qed.

Lemma start_time_set_once_witness :
  let cfg := with_retry sample_cfg 1 in
  let s := run_ticks cfg (RETRY cfg)
             (batch_start throttle_init no_progress ["A"; "B"] three_jobs)
             scenario_ticks in
  exists t0, start_time_sets 0 (trace s) = [t0]
             /\ forall now el, In (now, el) (recorded_elapsed 0 (trace s)) ->
                  el = (now - t0)%Q.
Proof.
  cbv zeta.
  destruct (start_time_set_once (with_retry sample_cfg 1) throttle_init no_progress
              ["A"; "B"] three_jobs scenario_ticks ltac:(repeat constructor)
              0%nat ltac:(cbn; lia))
    as [(_ & Hd & _)|(t0 & _ & Hsets & _ & Hel & _)].
  - vm_compute in Hd. discriminate.
  - exists t0. now split.
Defined.

(* --------------------------------------------------------------------- *)
(*  When q.join() returns                                                  *)
(* --------------------------------------------------------------------- *)

(* A step of worker_loop_exec runs the statements from the docker exec to
   q.task_done() as one; the threads of the source can be between two of
   them.  What is stated below of every state of a batch is stated so that
   it holds between these statements as well: as an inequality where the
   source updates two counters one after the other, as an equality once
   q.unfinished_tasks is zero, and of a worker only while its exec_once has
   not returned. *)

Lemma batch_state_inv (cfg : config) (g : throttle) (p : progress)
    (names : list string) (jobs : list task) (ticks : list tick) :
  batch_inv (length jobs) (batch_state cfg g p names jobs ticks).
Proof. apply batch_inv_run, batch_inv_start. Qed.

(** X2: q.join() is not released early.  In every state of a batch
    q.unfinished_tasks is at least the number of tasks in the queue plus
    the number of tasks being executed, and when it is zero -- the
    condition q.join() waits for -- the queue is empty, no task is being
    executed and every submitted job has exactly one terminal outcome
    recorded: a task put back for a retry never lets q.join() return before
    its last attempt is over. *)
Theorem join_waits_for_every_job (cfg : config) (g : throttle) (p : progress)
    (names : list string) (jobs : list task) (ticks : list tick) :
  let s := batch_state cfg g p names jobs ticks in
  Z.of_nat (length (queue s) + busy (workers s)) <= unfinished_tasks s
  /\ (unfinished_tasks s = 0 ->
      queue s = [] /\ busy (workers s) = 0%nat
      /\ length (all_outcomes (trace s)) = length jobs
      /\ forall j, (j < length jobs)%nat -> length (outcomes j (trace s)) = 1%nat).
Proof.
  intros s. pose proof (batch_state_inv cfg g p names jobs ticks) as Hinv.
  fold s in Hinv.
  pose proof (inv_unfinished _ _ Hinv) as Hunf.
  pose proof (inv_total _ _ Hinv) as Htot.
  split; [lia|]. intros Hzero.
  assert (Hq : queue s = []) by (destruct (queue s); [reflexivity|cbn in Hunf; lia]).
  rewrite Hq in Htot, Hunf. cbn [length] in Htot, Hunf.
  split; [exact Hq|]. split; [lia|]. split; [lia|].
  intros j Hj. pose proof (inv_refs _ _ Hinv j) as Hrefs.
  pose proof (holders_le_busy j (workers s)) as Hle.
  replace (j <? length jobs)%nat with true in Hrefs
    by (symmetry; now apply Nat.ltb_lt).
  rewrite Hq in Hrefs. cbn [queued count_occ] in Hrefs. lia.
Qed.

(* --------------------------------------------------------------------- *)
(*  exec_once and process_result: what a success means                     *)
(* --------------------------------------------------------------------- *)

Lemma truthy_str (v : option pyjson) (s : string) :
  v = Some (JStr s) -> truthy v = true -> s <> "".
Proof.
  intros -> H. cbn in H. intros ->. discriminate.
Qed.

Ltac step_result H :=
  cbn [act_bind act_pure act_do host_path_of move_to_store app] in H.

(* a value process_result can call replace on *)
Ltac need_str H d key p :=
  let Hk := fresh "Hkey" in
  destruct (dict_get d key) as [[| | | |p| |]|] eqn:Hk;
  step_result H; try discriminate H.

Ltac need_move H env :=
  match type of H with
  | context [move_and_chown env ?src ?dst] =>
      let n := fresh "n" in let Hm := fresh "Hmove" in
      destruct (move_and_chown env src dst) as [n|?] eqn:Hm;
      step_result H; try discriminate H
  end.

Lemma process_result_success (cfg : config) (env : exec_env) (t : task)
    (msg : string) (fx : list fs_effect) :
  process_result cfg env t = (Ret (true, msg), fx) ->
  msg = "" /\
  exists d p1 p2 p3 p4 p5 n1 n2 n3 n4 n5,
    meta_json env = Ret (JDict d)
    /\ map (dict_get d) required_paths
       = map (fun p => Some (JStr p)) [p1; p2; p3; p4; p5]
    /\ Forall (fun p => p <> "") [p1; p2; p3; p4; p5]
    /\ move_and_chown env (to_host_path cfg p1) (store_dir cfg env t "pcap") = Ret n1
    /\ move_and_chown env (to_host_path cfg p2) (store_dir cfg env t "ssl_key") = Ret n2
    /\ move_and_chown env (to_host_path cfg p3) (store_dir cfg env t "content") = Ret n3
    /\ move_and_chown env (to_host_path cfg p4) (store_dir cfg env t "html") = Ret n4
    /\ move_and_chown env (to_host_path cfg p5) (store_dir cfg env t "screenshot") = Ret n5
    /\ fx = [FxLogResult (JDict d);
             FxMoveAndChown (to_host_path cfg p1) (store_dir cfg env t "pcap");
             FxMoveAndChown (to_host_path cfg p2) (store_dir cfg env t "ssl_key");
             FxMoveAndChown (to_host_path cfg p3) (store_dir cfg env t "content");
             FxMoveAndChown (to_host_path cfg p4) (store_dir cfg env t "html");
             FxMoveAndChown (to_host_path cfg p5) (store_dir cfg env t "screenshot");
             FxOnTaskSuccess t
               {| new_pcap := n1; new_ssl := n2; new_content := n3;
                  new_html := n4; new_screenshot := n5;
                  current_url := get_or (dict_get d "current_url") (JStr "") |}].
Proof.
  unfold process_result. intros H.
  destruct (meta_json env) as [result|e] eqn:Hmeta; step_result H; [|discriminate H].
  destruct result as [| | | | | |d]; step_result H; try discriminate H.
  destruct (forallb truthy
              [dict_get d "pcap_path"; dict_get d "ssl_key_file_path";
               dict_get d "content_path"; dict_get d "html_path";
               dict_get d "screenshot_path"]) eqn:Hall;
    cbn [negb] in H; step_result H; [|discriminate H].
  need_str H d "pcap_path" p1.
  need_str H d "ssl_key_file_path" p2.
  need_str H d "content_path" p3.
  need_str H d "html_path" p4.
  need_str H d "screenshot_path" p5.
  fold (store_dir cfg env t "pcap") in H.
  fold (store_dir cfg env t "ssl_key") in H.
  fold (store_dir cfg env t "content") in H.
  fold (store_dir cfg env t "html") in H.
  fold (store_dir cfg env t "screenshot") in H.
  need_move H env. need_move H env. need_move H env. need_move H env.
  need_move H env.
  injection H as <- <-. split; [reflexivity|].
  exists d, p1, p2, p3, p4, p5, n, n0, n1, n2, n3.
  split; [reflexivity|]. split.
  { cbn [map required_paths]. rewrite Hkey, Hkey0, Hkey1, Hkey2, Hkey3. reflexivity. }
  split.
  { cbn [forallb] in Hall. rewrite !andb_true_iff in Hall.
    destruct Hall as (H1 & H2 & H3 & H4 & H5 & _).
    repeat constructor; cbv beta;
      match goal with
      | |- ?p <> _ => now apply (truthy_str (Some (JStr p)) p eq_refl)
      end. }
  repeat split; assumption.
Qed.

Lemma exec_once_success (cfg : config) (env : exec_env) (t : task)
    (msg : string) (fx : list fs_effect) :
  exec_once cfg env t = (Ret (true, msg), fx) ->
  exists cp, docker_exec env = Ret cp /\ returncode cp = 0
             /\ process_result cfg env t = (Ret (true, msg), fx).
Proof.
  unfold exec_once. destruct (docker_exec env) as [cp|e]; [|discriminate].
  destruct (Z.eqb_spec (returncode cp) 0) as [Hrc|_]; [|discriminate].
  destruct (process_result cfg env t) as [[[b m]|e] fx'].
  - intros [= -> -> ->]. now exists cp.
  - destruct (caught_by_exec_once (exn_class_of e)); discriminate.
Qed.

(** X3: when exec_once returns True, the docker exec exited with status 0,
    the manifest was a JSON object whose five required paths are non-empty
    strings, and what exec_once did is, in this order: log the manifest,
    move the five artifacts (pcap, ssl key, content, html, screenshot), each
    from its path rewritten to the host into BASE_DST/kind/date/domain, and
    call on_task_success once, last, with the task and the paths the moves
    returned.  The message returned is empty. *)
Theorem exec_once_true_moved_all (cfg : config) (env : exec_env) (t : task)
    (msg : string) (fx : list fs_effect) :
  exec_once cfg env t = (Ret (true, msg), fx) ->
  msg = "" /\
  exists cp d ps paths,
    docker_exec env = Ret cp /\ returncode cp = 0
    /\ meta_json env = Ret (JDict d)
    /\ length ps = 5%nat
    /\ map (dict_get d) required_paths = map (fun p => Some (JStr p)) ps
    /\ Forall (fun p => p <> "") ps
    /\ map (fun m => move_and_chown env (fst m) (snd m)) (expected_moves cfg env t ps)
       = map Ret [new_pcap paths; new_ssl paths; new_content paths;
                  new_html paths; new_screenshot paths]
    /\ current_url paths = get_or (dict_get d "current_url") (JStr "")
    /\ fx = FxLogResult (JDict d)
            :: map (fun m => FxMoveAndChown (fst m) (snd m))
                   (expected_moves cfg env t ps)
            ++ [FxOnTaskSuccess t paths].
Proof.
  intros H. apply exec_once_success in H as (cp & Hcp & Hrc & H).
  apply process_result_success in H
    as (Hmsg & d & p1 & p2 & p3 & p4 & p5 & n1 & n2 & n3 & n4 & n5
        & Hmeta & Hkeys & Hne & H1 & H2 & H3 & H4 & H5 & Hfx).
  split; [exact Hmsg|].
  exists cp, d, [p1; p2; p3; p4; p5],
    {| new_pcap := n1; new_ssl := n2; new_content := n3; new_html := n4;
       new_screenshot := n5;
       current_url := get_or (dict_get d "current_url") (JStr "") |}.
  repeat (split; [assumption || reflexivity|]).
  split.
  { cbn [expected_moves combine artifact_kinds map fst snd new_pcap new_ssl
         new_content new_html new_screenshot].
    now rewrite H1, H2, H3, H4, H5. }
  split; [reflexivity|exact Hfx].
Qed.

Lemma exec_once_true_moved_all_witness :
  exists d ps,
    meta_json env_ok = Ret (JDict d)
    /\ map (dict_get d) required_paths = map (fun p => Some (JStr p)) ps
    /\ Forall (fun p => p <> "") ps.
Proof.
  destruct (exec_once_true_moved_all sample_cfg env_ok
              (new_job "7" "http://example.org/" "example.org") ""
              (snd (exec_once sample_cfg env_ok
                      (new_job "7" "http://example.org/" "example.org")))
              ltac:(vm_compute; reflexivity))
    as (_ & cp & d & ps & paths & _ & _ & Hmeta & _ & Hkeys & Hne & _).
  now exists d, ps.
Defined.

Ltac need_str_or_stop H d key p :=
  let Hk := fresh "Hkey" in
  destruct (dict_get d key) as [[| | | |p| |]|] eqn:Hk;
  step_result H.

(* what is left of exec_once when the run did not succeed *)
Lemma exec_once_not_true (cfg : config) (env : exec_env) (t : task)
    (r : py (bool * string)) (fx : list fs_effect) :
  exec_once cfg env t = (r, fx) -> succeeded r = false ->
  flat_map success_callback fx = []
  /\ (exists ps k, flat_map moved_file fx = firstn k (expected_moves cfg env t ps))
  /\ (forall e, r = Raise e ->
        docker_exec env = Raise e \/ caught_by_exec_once (exn_class_of e) = false).
Proof.
  unfold exec_once. intros H Hfail.
  destruct (docker_exec env) as [cp|e0] eqn:Hcp.
  2:{ injection H as <- <-. split; [reflexivity|]. split.
      - now exists [], 0%nat.
      - intros e [= ->]. now left. }
  destruct (returncode cp =? 0).
  2:{ injection H as <- <-. split; [reflexivity|]. split.
      - now exists [], 0%nat.
      - intros e [=]. }
  destruct (process_result cfg env t) as [r' fx'] eqn:Hres.
  assert (Hfx : fx = fx').
  { destruct r' as [[b m]|e]; [now injection H|].
    destruct (caught_by_exec_once (exn_class_of e)); now injection H. }
  subst fx'.
  assert (Hr : (succeeded r' = false)
               /\ forall e, r = Raise e ->
                    caught_by_exec_once (exn_class_of e) = false).
  { destruct r' as [[b m]|e].
    - injection H as <-. split; [exact Hfail|]. intros e [=].
    - split; [reflexivity|].
      destruct (caught_by_exec_once (exn_class_of e)) eqn:Hc; injection H as <-.
      + intros e' [=].
      + intros e' [= <-]. exact Hc. }
  destruct Hr as [Hfail' Hclass]. clear H Hfail.
  split; [|split; [|intros e He; right; now apply Hclass]].
  all: revert Hres; unfold process_result; intros H.
  all: destruct (meta_json env) as [result|e] eqn:Hmeta; step_result H;
       [|injection H as <- <-; try reflexivity; now exists [], 0%nat].
  all: destruct result as [| | | | | |d]; step_result H;
       try (injection H as <- <-; try reflexivity; now exists [], 0%nat).
  all: destruct (forallb truthy
              [dict_get d "pcap_path"; dict_get d "ssl_key_file_path";
               dict_get d "content_path"; dict_get d "html_path";
               dict_get d "screenshot_path"]) eqn:Hall;
    cbn [negb] in H; step_result H;
    [|injection H as <- <-; try reflexivity; now exists [], 0%nat].
  all: need_str_or_stop H d "pcap_path" p1;
       try (injection H as <- <-; try reflexivity; now exists [], 0%nat).
  all: need_str_or_stop H d "ssl_key_file_path" p2;
       try (injection H as <- <-; try reflexivity; now exists [], 0%nat).
  all: need_str_or_stop H d "content_path" p3;
       try (injection H as <- <-; try reflexivity; now exists [], 0%nat).
  all: need_str_or_stop H d "html_path" p4;
       try (injection H as <- <-; try reflexivity; now exists [], 0%nat).
  all: need_str_or_stop H d "screenshot_path" p5;
       try (injection H as <- <-; try reflexivity; now exists [], 0%nat).
  all: fold (store_dir cfg env t "pcap") in H;
       fold (store_dir cfg env t "ssl_key") in H;
       fold (store_dir cfg env t "content") in H;
       fold (store_dir cfg env t "html") in H;
       fold (store_dir cfg env t "screenshot") in H.
  all: destruct (move_and_chown env (to_host_path cfg p1) (store_dir cfg env t "pcap"));
       step_result H;
       [|injection H as <- <-; try reflexivity;
         now exists [p1; p2; p3; p4; p5], 1%nat].
  all: destruct (move_and_chown env (to_host_path cfg p2) (store_dir cfg env t "ssl_key"));
       step_result H;
       [|injection H as <- <-; try reflexivity;
         now exists [p1; p2; p3; p4; p5], 2%nat].
  all: destruct (move_and_chown env (to_host_path cfg p3) (store_dir cfg env t "content"));
       step_result H;
       [|injection H as <- <-; try reflexivity;
         now exists [p1; p2; p3; p4; p5], 3%nat].
  all: destruct (move_and_chown env (to_host_path cfg p4) (store_dir cfg env t "html"));
       step_result H;
       [|injection H as <- <-; try reflexivity;
         now exists [p1; p2; p3; p4; p5], 4%nat].
  all: destruct (move_and_chown env (to_host_path cfg p5) (store_dir cfg env t "screenshot"));
       step_result H;
       [|injection H as <- <-; try reflexivity;
         now exists [p1; p2; p3; p4; p5], 5%nat].
  all: injection H as <- <-; discriminate Hfail'.
Qed.

(** X4: when exec_once does not return True -- it returns False or raises --
    on_task_success was not called, and the files process_result tried to
    move are the first k of the five moves of a success, in the same order,
    for some k: a move that raises stops the moves that follow.  An
    exception that comes out of exec_once is the one the docker exec command raised, or is
    not a JSONDecodeError, FileNotFoundError or OSError, which exec_once
    turns into a returned failure. *)
Theorem exec_once_failure_partial (cfg : config) (env : exec_env) (t : task)
    (r : py (bool * string)) (fx : list fs_effect) :
  exec_once cfg env t = (r, fx) -> succeeded r = false ->
  flat_map success_callback fx = []
  /\ (exists ps k, flat_map moved_file fx = firstn k (expected_moves cfg env t ps))
  /\ (forall e, r = Raise e ->
        docker_exec env = Raise e \/ caught_by_exec_once (exn_class_of e) = false).
Proof. apply exec_once_not_true. Qed.

Lemma exec_once_failure_partial_witness :
  fst (exec_once sample_cfg env_content_gone
         (new_job "7" "http://example.org/" "example.org"))
  = Ret (false, "post-processing error: [Errno 2] No such file or directory")
  /\ flat_map success_callback
       (snd (exec_once sample_cfg env_content_gone
               (new_job "7" "http://example.org/" "example.org"))) = [].
Proof.
  split; [vm_compute; reflexivity|].
  apply (exec_once_failure_partial sample_cfg env_content_gone
           (new_job "7" "http://example.org/" "example.org")
           (fst (exec_once sample_cfg env_content_gone
                   (new_job "7" "http://example.org/" "example.org")))
           (snd (exec_once sample_cfg env_content_gone
                   (new_job "7" "http://example.org/" "example.org")))
           ltac:(vm_compute; reflexivity) ltac:(vm_compute; reflexivity)).
Defined.

(* --------------------------------------------------------------------- *)
(*  on_task_success and on_task_failed                                     *)
(* --------------------------------------------------------------------- *)

Lemma success_calls_logged (j : nat) (s : sched) (tk : tick) (j0 : nat)
    (acts : list action) :
  on_task_success_calls j (logged s tk j0 acts)
  = on_task_success_calls j (trace s)
    ++ (if Nat.eqb j0 j then flat_map success_call acts else []).
Proof. unfold on_task_success_calls. now rewrite per_task_logged. Qed.

Lemma failed_calls_logged (j : nat) (s : sched) (tk : tick) (j0 : nat)
    (acts : list action) :
  on_task_failed_calls j (logged s tk j0 acts)
  = on_task_failed_calls j (trace s)
    ++ (if Nat.eqb j0 j then flat_map failed_call acts else []).
Proof. unfold on_task_failed_calls. now rewrite per_task_logged. Qed.

Lemma success_call_exec (fx : list fs_effect) (acts : list action) :
  flat_map success_call (map Exec fx ++ acts)
  = flat_map success_callback fx ++ flat_map success_call acts.
Proof.
  rewrite flat_map_app. f_equal.
  induction fx as [|x fx IH]; [reflexivity|]. cbn [map flat_map success_call].
  now rewrite IH.
Qed.

Lemma failure_report_none (cfg : config) (c : string) (t : task)
    (r : py (bool * string)) :
  failure_report cfg c t r = None -> succeeded r = true.
Proof.
  unfold failure_report.
  destruct r as [[[|] e]|e]; [reflexivity|discriminate|].
  destruct (exn_class_of e); discriminate.
Qed.

Lemma failure_report_some (cfg : config) (c : string) (t : task)
    (r : py (bool * string)) (line : log_line) (err : string) :
  failure_report cfg c t r = Some (line, err) -> succeeded r = false.
Proof.
  unfold failure_report. destruct r as [[[|] e]|e]; [discriminate| |]; reflexivity.
Qed.

Lemma exec_once_callback_true (cfg : config) (env : exec_env) (t : task)
    (r : py (bool * string)) (fx : list fs_effect) :
  exec_once cfg env t = (r, fx) -> succeeded r = true ->
  exists paths, flat_map success_callback fx = [(t, paths)].
Proof.
  intros H Hs. destruct r as [[[|] msg]|e]; try discriminate Hs.
  apply exec_once_success in H as (cp & _ & _ & H).
  apply process_result_success in H
    as (_ & d & p1 & p2 & p3 & p4 & p5 & n1 & n2 & n3 & n4 & n5
        & _ & _ & _ & _ & _ & _ & _ & _ & ->).
  eexists. reflexivity.
Qed.

(* the task dict a store holds at j after an assignment to the dict j0 *)
Lemma task_of_inserted (s s' : sched) (j0 : nat) (x : task) (j : nat) :
  store s' = <[j0 := x]> (store s) ->
  task_of s' j = if Nat.eqb j j0 && (j0 <? length (store s))%nat then x
                 else task_of s j.
Proof.
  intros Hst. unfold task_of. rewrite Hst.
  destruct (Nat.eqb_spec j j0) as [->|Hne]; cbn [andb].
  - destruct (Nat.ltb_spec j0 (length (store s))) as [Hlt|Hge].
    + now rewrite list_lookup_insert_eq.
    + now rewrite list_insert_ge.
  - rewrite list_lookup_insert_ne; [reflexivity|congruence].
Qed.

Lemma task_of_same_store (s s' : sched) (j : nat) :
  store s' = store s -> task_of s' j = task_of s j.
Proof. unfold task_of. now intros ->. Qed.

(* no step changes the row_id, the url or the domain of a task *)
Lemma identity_kept (cfg : config) (retry : Z) (s s' : sched) (tk : tick) (j : nat) :
  transition cfg retry s tk s' ->
  row_id (task_of s' j) = row_id (task_of s j)
  /\ url (task_of s' j) = url (task_of s j)
  /\ domain (task_of s' j) = domain (task_of s j).
Proof.
  intros Htr.
  inversion Htr as
    [Hidle
    |w Hw Hs Hq
    |w j0 q' t Hw Hs Hq Ht
    |w j0 a0 t00 Hw Hs
    |w j0 a0 t00 r fx Hw Hs Hexec Hrep
    |w j0 a0 t00 r fx line err Hw Hs Hexec Hrep Hlt
    |w j0 a0 t00 r fx line err Hw Hs Hexec Hrep Hge]; subst s'; clear Htr;
    try (now repeat split);
    try (erewrite task_of_same_store by reflexivity; now repeat split).
  - rewrite (task_of_inserted s (after_get retry s tk w j0 q' t) j0
               (taken (w_container w) (wall tk) t) j eq_refl).
    destruct (Nat.eqb_spec j j0) as [->|Hne]; cbn [andb]; [|now repeat split].
    destruct (j0 <? length (store s))%nat; [|now repeat split].
    rewrite (task_of_lookup s j0 t Ht). now repeat split.
  - rewrite (task_of_inserted s (after_requeue s tk w j0 a0 fx line) j0
               (set_retry_count (a0 + 1) (task_of s j0)) j eq_refl).
    destruct (Nat.eqb_spec j j0) as [->|Hne]; cbn [andb]; [|now repeat split].
    destruct (j0 <? length (store s))%nat; now repeat split.
Qed.

Ltac count_bool :=
  repeat match goal with
         | |- context [count_occ Bool.bool_dec [?a] ?b] =>
             let v := eval vm_compute in (count_occ Bool.bool_dec [a] b) in
             change (count_occ Bool.bool_dec [a] b) with v
         end;
  cbn [length].

Lemma callback_inv_step (cfg : config) (retry : Z) (s s' : sched) (tk : tick) :
  callback_inv s -> transition cfg retry s tk s' -> callback_inv s'.
Proof.
  intros [Hsucc Hfail Htask] Htr.
  pose proof (fun j => identity_kept cfg retry s s' tk j Htr) as Hid.
  assert (Hold : forall j t paths,
            In (t, paths) (on_task_success_calls j (trace s)) ->
            row_id t = row_id (task_of s' j) /\ url t = url (task_of s' j)
            /\ domain t = domain (task_of s' j)).
  { intros j t paths Hin. destruct (Hid j) as (-> & -> & ->). now apply (Htask j t paths). }
  clear Htask.
  inversion Htr as
    [Hidle
    |w Hw Hs Hq
    |w j0 q' t Hw Hs Hq Ht
    |w j0 a0 t00 Hw Hs
    |w j0 a0 t00 r fx Hw Hs Hexec Hrep
    |w j0 a0 t00 r fx line err Hw Hs Hexec Hrep Hlt
    |w j0 a0 t00 r fx line err Hw Hs Hexec Hrep Hge]; subst s'; clear Htr.
  - now constructor.
  - now constructor.
  - (* a task is taken from the queue *)
    constructor; proj_fields; intros j;
      rewrite ?success_calls_logged, ?failed_calls_logged, ?outcomes_logged,
        ?outcome_sets.
    + specialize (Hsucc j). destruct (_start_time t), (Nat.eqb j0 j);
        cbn [flat_map success_call app]; now rewrite !app_nil_r.
    + specialize (Hfail j). destruct (_start_time t), (Nat.eqb j0 j);
        cbn [flat_map failed_call app]; now rewrite !app_nil_r.
    + intros t' paths Hin. apply (Hold j t' paths).
      rewrite ?success_calls_logged in Hin.
      destruct (_start_time t), (Nat.eqb j0 j);
        cbn [flat_map success_call app] in Hin; now rewrite app_nil_r in Hin.
  - (* the throttle gate *)
    constructor; proj_fields; intros j;
      rewrite ?success_calls_logged, ?failed_calls_logged, ?outcomes_logged,
        ?outcome_sleep.
    + specialize (Hsucc j).
      destruct (snd (_wait_before_first_exec cfg (gate s) (w_container w) (mono tk))),
        (Nat.eqb j0 j); cbn [flat_map success_call app]; now rewrite !app_nil_r.
    + specialize (Hfail j).
      destruct (snd (_wait_before_first_exec cfg (gate s) (w_container w) (mono tk))),
        (Nat.eqb j0 j); cbn [flat_map failed_call app]; now rewrite !app_nil_r.
    + intros t' paths Hin. apply (Hold j t' paths).
      rewrite ?success_calls_logged in Hin.
      destruct (snd (_wait_before_first_exec cfg (gate s) (w_container w) (mono tk))),
        (Nat.eqb j0 j); cbn [flat_map success_call app] in Hin;
        now rewrite app_nil_r in Hin.
  - (* success *)
    destruct (exec_once_callback_true _ _ _ _ _ Hexec (failure_report_none _ _ _ _ Hrep))
      as [paths0 Hcb].
    constructor; proj_fields; intros j;
      rewrite ?success_calls_logged, ?failed_calls_logged, ?outcomes_logged,
        ?success_call_exec, ?Hcb;
      rewrite ?flat_map_exec by reflexivity.
    + specialize (Hsucc j). destruct (Nat.eqb j0 j);
        cbn [flat_map success_call outcome_of app];
        rewrite ?app_nil_r, ?length_app, ?count_occ_app; count_bool; lia.
    + specialize (Hfail j). destruct (Nat.eqb j0 j);
        cbn [flat_map failed_call outcome_of app];
        rewrite ?app_nil_r, ?length_app, ?count_occ_app; count_bool; lia.
    + intros t' paths Hin. rewrite ?success_calls_logged, ?success_call_exec, ?Hcb in Hin.
      destruct (Nat.eqb_spec j0 j) as [<-|Hne];
        cbn [flat_map success_call app] in Hin; rewrite ?app_nil_r in Hin;
        [|now apply (Hold j t' paths)].
      apply in_app_or in Hin as [Hin|[[= <- <-]|[]]]; [now apply (Hold j0 t' paths)|].
      erewrite task_of_same_store by reflexivity. now repeat split.
  - (* put back into the queue *)
    destruct (exec_once_not_true _ _ _ _ _ Hexec (failure_report_some _ _ _ _ _ _ Hrep))
      as (Hcb & _).
    constructor; proj_fields; intros j;
      rewrite ?success_calls_logged, ?failed_calls_logged, ?outcomes_logged,
        ?success_call_exec, ?Hcb;
      rewrite ?flat_map_exec by reflexivity.
    + specialize (Hsucc j). destruct (Nat.eqb j0 j);
        cbn [flat_map success_call outcome_of app]; now rewrite ?app_nil_r.
    + specialize (Hfail j). destruct (Nat.eqb j0 j);
        cbn [flat_map failed_call outcome_of app]; now rewrite ?app_nil_r.
    + intros t' paths Hin. apply (Hold j t' paths).
      rewrite ?success_calls_logged, ?success_call_exec, ?Hcb in Hin.
      destruct (Nat.eqb j0 j); cbn [flat_map success_call app] in Hin;
        now rewrite app_nil_r in Hin.
  - (* given up *)
    destruct (exec_once_not_true _ _ _ _ _ Hexec (failure_report_some _ _ _ _ _ _ Hrep))
      as (Hcb & _).
    constructor; proj_fields; intros j;
      rewrite ?success_calls_logged, ?failed_calls_logged, ?outcomes_logged,
        ?success_call_exec, ?Hcb;
      rewrite ?flat_map_exec by reflexivity.
    + specialize (Hsucc j). destruct (Nat.eqb j0 j);
        cbn [flat_map success_call outcome_of app];
        rewrite ?app_nil_r, ?length_app, ?count_occ_app; count_bool; lia.
    + specialize (Hfail j). destruct (Nat.eqb j0 j);
        cbn [flat_map failed_call outcome_of app];
        rewrite ?app_nil_r, ?length_app, ?count_occ_app; count_bool; lia.
    + intros t' paths Hin. apply (Hold j t' paths).
      rewrite ?success_calls_logged, ?success_call_exec, ?Hcb in Hin.
      destruct (Nat.eqb j0 j); cbn [flat_map success_call app] in Hin;
        now rewrite app_nil_r in Hin.
Qed.

Lemma callback_inv_run (n : nat) (cfg : config) (retry : Z) (ticks : list tick)
    (s : sched) :
  batch_inv n s -> callback_inv s -> callback_inv (run_ticks cfg retry s ticks).
Proof.
  revert s. induction ticks as [|tk ticks IH]; intros s Hinv Hci; [exact Hci|].
  cbn [run_ticks fold_left]. apply IH.
  - now apply batch_inv_worker_loop.
  - apply (callback_inv_step cfg retry s _ tk Hci).
    apply worker_loop_transition. now apply (batch_inv_queue_valid n).
Qed.

(** X5: no job gets a callback twice.  In every state of a batch at most
    one call of on_task_success or on_task_failed has been made for a job,
    never both, and no outcome is recorded without its callback: a success
    is recorded only after on_task_success was called, a terminal failure
    only after on_task_failed was.  When q.join() can return, every
    submitted job has had exactly one call, the one of its recorded
    outcome.  on_task_success is handed the task with the row_id, url and
    domain of the job. *)
Theorem callback_once_per_job (cfg : config) (g : throttle) (p : progress)
    (names : list string) (jobs : list task) (ticks : list tick) (j : nat) :
  let s := batch_state cfg g p names jobs ticks in
  let successes := on_task_success_calls j (trace s) in
  let failures := on_task_failed_calls j (trace s) in
  (length successes + length failures <= 1)%nat
  /\ (count_occ Bool.bool_dec (outcomes j (trace s)) true <= length successes)%nat
  /\ (count_occ Bool.bool_dec (outcomes j (trace s)) false <= length failures)%nat
  /\ (unfinished_tasks s = 0 -> (j < length jobs)%nat ->
      (length successes + length failures = 1)%nat
      /\ length successes = count_occ Bool.bool_dec (outcomes j (trace s)) true
      /\ length failures = count_occ Bool.bool_dec (outcomes j (trace s)) false)
  /\ (forall t paths, In (t, paths) successes ->
        row_id t = row_id (task_of s j) /\ url t = url (task_of s j)
        /\ domain t = domain (task_of s j)).
Proof.
  intros s successes failures.
  pose proof (batch_state_inv cfg g p names jobs ticks) as Hinv. fold s in Hinv.
  assert (Hci : callback_inv s).
  { apply (callback_inv_run (length jobs)); [apply batch_inv_start|].
    constructor; unfold batch_start; proj_fields; try reflexivity.
    intros j' t paths []. }
  destruct Hci as [Hsucc Hfail Htask].
  pose proof (count_bools (outcomes j (trace s))) as Hcount.
  pose proof (inv_refs _ _ Hinv j) as Hrefs.
  specialize (Hsucc j). specialize (Hfail j).
  fold successes in Hsucc. fold failures in Hfail.
  split; [destruct (j <? length jobs)%nat; lia|].
  split; [lia|]. split; [lia|]. split; [|apply Htask].
  intros Hzero Hj.
  pose proof (inv_unfinished _ _ Hinv) as Hunf.
  pose proof (holders_le_busy j (workers s)) as Hle.
  replace (j <? length jobs)%nat with true in Hrefs
    by (symmetry; now apply Nat.ltb_lt).
  assert (Hq : queue s = []) by (destruct (queue s); [reflexivity|cbn in Hunf; lia]).
  rewrite Hq in Hrefs. cbn [queued count_occ] in Hrefs. lia.
Qed.

Lemma all_elapsed_logged (s : sched) (tk : tick) (j0 : nat) (acts : list action) :
  all_elapsed (logged s tk j0 acts)
  = all_elapsed (trace s) ++ flat_map elapsed_arg acts.
Proof.
  unfold all_elapsed, logged. rewrite flat_map_app. f_equal.
  induction acts as [|a acts IH]; cbn; [reflexivity|]. now rewrite IH.
Qed.

Lemma all_elapsed_length (tr : list entry) :
  length (all_elapsed tr) = length (all_outcomes tr).
Proof.
  unfold all_elapsed, all_outcomes.
  induction tr as [|e tr IH]; [reflexivity|]. cbn [flat_map].
  rewrite !length_app, IH. f_equal. now destruct (what e).
Qed.

Lemma progress_inv_step (cfg : config) (retry : Z) (p : progress) (s s' : sched)
    (tk : tick) :
  progress_inv p s -> transition cfg retry s tk s' -> progress_inv p s'.
Proof.
  intros [Hok Hfail Htime] Htr.
  inversion Htr as
    [Hidle
    |w Hw Hs Hq
    |w j0 q' t Hw Hs Hq Ht
    |w j0 a0 t00 Hw Hs
    |w j0 a0 t00 r fx Hw Hs Hexec Hrep
    |w j0 a0 t00 r fx line err Hw Hs Hexec Hrep Hlt
    |w j0 a0 t00 r fx line err Hw Hs Hexec Hrep Hge]; subst s'; clear Htr.
  - now constructor.
  - now constructor.
  - constructor; proj_fields; try assumption.
    rewrite all_elapsed_logged. destruct (_start_time t); cbn [flat_map elapsed_arg app];
      now rewrite app_nil_r.
  - constructor; proj_fields; try assumption.
    rewrite all_elapsed_logged.
    destruct (snd (_wait_before_first_exec cfg (gate s) (w_container w) (mono tk)));
      cbn [flat_map elapsed_arg app]; now rewrite app_nil_r.
  - constructor; proj_fields; unfold progressed;
      cbn [_global_ok _global_fail _global_task_time]; try lia.
    rewrite all_elapsed_logged, flat_map_exec by reflexivity.
    cbn [flat_map elapsed_arg app]. rewrite fold_left_app. cbn [fold_left].
    now rewrite Htime.
  - constructor; proj_fields; try assumption.
    rewrite all_elapsed_logged, flat_map_exec by reflexivity.
    cbn [flat_map elapsed_arg app]. now rewrite app_nil_r.
  - constructor; proj_fields; unfold progressed;
      cbn [_global_ok _global_fail _global_task_time]; try lia.
    rewrite all_elapsed_logged, flat_map_exec by reflexivity.
    cbn [flat_map elapsed_arg app]. rewrite fold_left_app. cbn [fold_left].
    now rewrite Htime.
Qed.

Lemma progress_inv_run (n : nat) (cfg : config) (retry : Z) (p : progress)
    (ticks : list tick) (s : sched) :
  batch_inv n s -> progress_inv p s -> progress_inv p (run_ticks cfg retry s ticks).
Proof.
  revert s. induction ticks as [|tk ticks IH]; intros s Hinv Hpi; [exact Hpi|].
  cbn [run_ticks fold_left]. apply IH.
  - now apply batch_inv_worker_loop.
  - apply (progress_inv_step cfg retry p s _ tk Hpi).
    apply worker_loop_transition. now apply (batch_inv_queue_valid n).
Qed.

(** X6: the counters _update_progress keeps for the progress bar.  In
    every state of a batch that started with the counters p, _global_ok is
    p's plus the number of successes recorded by _update_progress,
    _global_fail is p's plus the number of terminal failures recorded, and
    _global_task_time is p's plus the elapsed times handed to it, added in
    the order of the calls; the counters are never ahead of the stats of
    the batch.  When q.join() can return they have caught up:
    _global_ok and _global_fail have grown by stats["ok"] and
    stats["fail"], and the number of tasks done by the number of jobs
    submitted. *)
Theorem global_counters_follow_batch (cfg : config) (g : throttle) (p : progress)
    (names : list string) (jobs : list task) (ticks : list tick) :
  let s := batch_state cfg g p names jobs ticks in
  let gp := global_progress s in
  _global_ok gp = _global_ok p + Z.of_nat (count_outcomes true (trace s))
  /\ _global_fail gp = _global_fail p + Z.of_nat (count_outcomes false (trace s))
  /\ _global_task_time gp
     = fold_left Qplus (all_elapsed (trace s)) (_global_task_time p)
  /\ length (all_elapsed (trace s)) = length (all_outcomes (trace s))
  /\ _global_ok gp <= _global_ok p + ok (batch_stats s)
  /\ _global_fail gp <= _global_fail p + fail (batch_stats s)
  /\ (unfinished_tasks s = 0 ->
      _global_ok gp = _global_ok p + ok (batch_stats s)
      /\ _global_fail gp = _global_fail p + fail (batch_stats s)
      /\ _global_ok gp + _global_fail gp
         = _global_ok p + _global_fail p + Z.of_nat (length jobs)).
Proof.
  intros s gp.
  pose proof (batch_state_inv cfg g p names jobs ticks) as Hinv. fold s in Hinv.
  assert (Hpi : progress_inv p s).
  { apply (progress_inv_run (length jobs)); [apply batch_inv_start|].
    constructor; unfold batch_start; proj_fields; try reflexivity; lia. }
  destruct Hpi as [Hok Hfail Htime]. fold gp in Hok, Hfail, Htime.
  pose proof (count_bools (all_outcomes (trace s))) as Hcount.
  pose proof (inv_ok _ _ Hinv) as Hok'. pose proof (inv_fail _ _ Hinv) as Hfail'.
  fold (count_outcomes true (trace s)) in Hcount.
  fold (count_outcomes false (trace s)) in Hcount.
  split; [lia|]. split; [lia|]. split; [exact Htime|].
  split; [apply all_elapsed_length|]. split; [lia|]. split; [lia|].
  intros Hzero. pose proof (inv_unfinished _ _ Hinv) as Hunf.
  pose proof (inv_total _ _ Hinv) as Htot. lia.
Qed.

(* --------------------------------------------------------------------- *)
(*  The throttle gate without an interval                                  *)
(* --------------------------------------------------------------------- *)

Lemma gate_never_sleeps (cfg : config) (st : throttle) (t0 : Q)
    (calls : list (string * Q)) :
  (FIRST_EXEC_INTERVAL cfg <= 0)%Q ->
  (_first_exec_next_ts st <= t0)%Q ->
  monotonic_from t0 calls ->
  Forall (fun e => snd e = None) (snd (gate_calls cfg st calls)).
Proof.
  intros Hint. revert st t0.
  induction calls as [|[c now] calls IH]; intros st t0 Hnext Hmono; [constructor|].
  destruct Hmono as [Hle Hmono]. cbn [gate_calls].
  destruct (_wait_before_first_exec cfg st c now) as [st1 slept] eqn:Hwait.
  destruct (gate_calls cfg st1 calls) as [st2 log] eqn:Hcalls. cbn [snd].
  unfold _wait_before_first_exec in Hwait.
  destruct (decide (c ∈ _first_exec_done_containers st)) as [Hin|Hnew].
  - injection Hwait as <- <-. constructor; [reflexivity|].
    specialize (IH st now ltac:(lra) Hmono). now rewrite Hcalls in IH.
  - pose proof (Q.max_spec now (_first_exec_next_ts st)) as Hmax.
    pose proof (Q.max_spec (FIRST_EXEC_INTERVAL cfg) 0) as Hmax0.
    injection Hwait as <- <-. constructor.
    + cbn [snd]. destruct (Qlt_le_dec 0 (Qmax now (_first_exec_next_ts st) - now));
        [|reflexivity].
      exfalso. destruct Hmax as [[? Heq]|[? Heq]]; rewrite Heq in q; lra.
    + assert (Hnext1 : (Qmax now (_first_exec_next_ts st)
                        + Qmax (FIRST_EXEC_INTERVAL cfg) 0 <= now)%Q).
      { destruct Hmax as [[? Heq]|[? Heq]], Hmax0 as [[? Heq0]|[? Heq0]];
          rewrite Heq, Heq0; lra. }
      match type of Hcalls with
      | gate_calls cfg ?st1 calls = _ =>
          specialize (IH st1 now Hnext1 Hmono)
      end.
      now rewrite Hcalls in IH.
Qed.

(** X8: with FIRST_EXEC_INTERVAL zero or negative the gate is open: started
    from the state __init__ sets and read on a monotonic clock, no call of
    _wait_before_first_exec ever sleeps. *)
Theorem gate_open_without_interval (cfg : config) (calls : list (string * Q)) :
  (FIRST_EXEC_INTERVAL cfg <= 0)%Q ->
  monotonic_from 0 calls ->
  Forall (fun e => snd e = None) (snd (gate_calls cfg throttle_init calls)).
Proof.
  intros Hint Hmono. apply (gate_never_sleeps cfg throttle_init 0); try assumption.
  cbn. lra.
Qed.

Lemma gate_open_without_interval_witness :
  Forall (fun e => snd e = None)
    (snd (gate_calls (with_interval sample_cfg 0) throttle_init
            [("c0", 0%Q); ("c1", 0%Q); ("c2", 0%Q)])).
Proof.
  apply (gate_open_without_interval (with_interval sample_cfg 0)
           [("c0", 0%Q); ("c1", 0%Q); ("c2", 0%Q)]).
  - cbn. lra.
  - cbn. repeat split; lra.
Defined.

(* --------------------------------------------------------------------- *)
(*  read_jobs_from_csv                                                     *)
(* --------------------------------------------------------------------- *)

Lemma get_ci_items_rect (key : string) (header : list string) (row : csv_record) :
  length row = length header ->
  match get_ci_items (combine header (map Some row)) key with
  | Some s => s
  | None => ""
  end = ci_cell key header row.
Proof.
  revert row. induction header as [|k header IH]; intros [|c row] Hlen;
    cbn in *; try discriminate; [reflexivity|].
  destruct (String.eqb (lower k) key); [reflexivity|].
  apply IH. lia.
Qed.

Lemma get_case_insensitive_rect (key : string) (header : list string)
    (row : csv_record) :
  List.NoDup header -> length row = length header ->
  get_case_insensitive (dictreader_row header row) key = Ret (ci_cell key header row).
Proof.
  intros Hnd Hlen. rewrite dictreader_row_rect by assumption.
  unfold get_case_insensitive. cbn [items rest].
  rewrite <- (get_ci_items_rect key header row Hlen).
  destruct (get_ci_items _ _); reflexivity.
Qed.

Lemma id_of_record_cell (header : list string) (row : csv_record) :
  id_of_record header row = ci_cell "id" header row.
Proof.
  revert row. induction header as [|k header IH]; intros [|c row]; cbn;
    try reflexivity.
  destruct (String.eqb (lower k) "id"); [reflexivity|apply IH].
Qed.

Lemma read_rows_rect (header : list string) (rows : csv_content) (acc : list task) :
  List.NoDup header -> Forall (fun r => length r = length header) rows ->
  read_rows (map (dictreader_row header) rows) acc
  = Ret (acc ++ flat_map (job_of_record header) rows).
Proof.
  intros Hnd Hrect. revert acc.
  induction Hrect as [|r rows Hr Hrows IH]; intros acc; cbn [map read_rows flat_map].
  - now rewrite app_nil_r.
  - rewrite !get_case_insensitive_rect by assumption. cbn [py_bind].
    unfold job_of_record at 1.
    destruct (String.eqb (ci_cell "url" header r) ""); rewrite IH.
    + reflexivity.
    + now rewrite <- app_assoc.
Qed.

(** X9: read_jobs_from_csv returns no job and the header id, url, domain
    when the file does not exist or is empty.  On a file whose header names
    are distinct and whose records all have as many cells as the header, it
    returns, in the order of the records, one job per record whose url cell
    is not blank -- row_id, url and domain being the stripped cells of the
    first columns named id, url and domain whatever the case, empty where
    there is no such column -- and the header names stripped. *)
Theorem read_jobs_from_csv_records (header : list string) (rows : csv_content) :
  List.NoDup header -> Forall (fun r => length r = length header) rows ->
  read_jobs_from_csv None = Ret ([], ["id"; "url"; "domain"])
  /\ read_jobs_from_csv (Some []) = Ret ([], ["id"; "url"; "domain"])
  /\ read_jobs_from_csv (Some (header :: rows))
     = Ret (flat_map (job_of_record header) rows, map strip header).
Proof.
  intros Hnd Hrect. split; [reflexivity|]. split; [reflexivity|].
  unfold read_jobs_from_csv. destruct header as [|k header].
  - assert (Hrows : dictreader_rows [] rows = []).
    { unfold dictreader_rows.
      induction Hrect as [|r rows Hr Hrows IH]; cbn; [reflexivity|].
      destruct r; [exact IH|discriminate]. }
    rewrite Hrows. cbn [read_rows py_bind map]. do 2 f_equal. clear Hrows.
    induction Hrect as [|r rows Hr Hrect IH]; [reflexivity|].
    destruct r; [exact IH|discriminate].
  - rewrite dictreader_rows_rect by (assumption || discriminate).
    rewrite read_rows_rect by assumption. reflexivity.
Qed.

Lemma read_jobs_from_csv_records_witness :
  read_jobs_from_csv
    (Some [["ID"; "Url"; "domain"];
           ["1"; " http://a.example/ "; "a.example"];
           ["2"; "  "; "b.example"];
           ["3"; "http://c.example/"; "c.example"]])
  = Ret ([new_job "1" "http://a.example/" "a.example";
          new_job "3" "http://c.example/" "c.example"],
         ["ID"; "Url"; "domain"]).
Proof.
  destruct (read_jobs_from_csv_records ["ID"; "Url"; "domain"]
              [["1"; " http://a.example/ "; "a.example"];
               ["2"; "  "; "b.example"];
               ["3"; "http://c.example/"; "c.example"]]) as (_ & _ & H).
  - repeat constructor; cbn; intuition discriminate.
  - repeat constructor.
  - rewrite H. vm_compute. reflexivity.
Defined.

(* what read_rows appends is a new job with a url *)
Lemma read_rows_appends (P : task -> Prop) (rows : list row_dict)
    (acc jobs : list task) :
  (forall rid u dom, u <> "" -> P (new_job rid u dom)) ->
  read_rows rows acc = Ret jobs -> Forall P acc ->
  Forall P jobs /\ (length jobs <= length acc + length rows)%nat.
Proof.
  intros Hnew. revert acc.
  induction rows as [|r rows IH]; intros acc Hread Hacc; cbn [read_rows] in Hread.
  - injection Hread as <-. split; [exact Hacc|cbn; lia].
  - destruct (get_case_insensitive r "id") as [rid|e]; [|discriminate].
    destruct (get_case_insensitive r "url") as [u|e]; [|discriminate].
    destruct (get_case_insensitive r "domain") as [dom|e]; [|discriminate].
    cbn [py_bind] in Hread.
    destruct (String.eqb_spec u "") as [->|Hu].
    + destruct (IH acc Hread Hacc) as [Hall Hlen]. split; [exact Hall|cbn; lia].
    + destruct (IH _ Hread) as [Hall Hlen].
      * apply Forall_app. split; [exact Hacc|]. constructor; [|constructor].
        now apply Hnew.
      * split; [exact Hall|]. rewrite length_app in Hlen. cbn in *. lia.
Qed.

(** X10: every job read_jobs_from_csv returns, from any file, is a new dict
    with the keys row_id, url and domain only -- it carries no container,
    no _retry_count and no _start_time -- and its url is not empty; there
    are at most as many jobs as the file has records below the header. *)
Theorem read_jobs_are_new (file : option csv_content) (jobs : list task)
    (header_fields : list string) :
  read_jobs_from_csv file = Ret (jobs, header_fields) ->
  Forall (fun t => _retry_count t = None) jobs
  /\ Forall (fun t => _start_time t = None) jobs
  /\ Forall (fun t => container t = None
                      /\ exists rid u dom,
                           t = new_job rid u dom /\ u <> "") jobs
  /\ (length jobs <= length (match file with
                             | Some (_ :: records) => records
                             | _ => []
                             end))%nat.
Proof.
  intros Hread.
  assert (Hall : Forall (fun t => exists rid u dom, t = new_job rid u dom /\ u <> "") jobs
                 /\ (length jobs <= length (match file with
                                            | Some (_ :: records) => records
                                            | _ => []
                                            end))%nat).
  { unfold read_jobs_from_csv in Hread.
    destruct file as [[|fieldnames records]|]; try (injection Hread as <- _; now split).
    destruct (read_rows (dictreader_rows fieldnames records) []) as [js|e] eqn:Hrows;
      [|discriminate].
    injection Hread as <- _.
    destruct (read_rows_appends
                (fun t => exists rid u dom, t = new_job rid u dom /\ u <> "")
                (dictreader_rows fieldnames records) [] js) as [Hj Hlen];
      try assumption.
    - intros rid u dom Hu. now exists rid, u, dom.
    - constructor.
    - split; [exact Hj|]. cbn [length] in Hlen.
      unfold dictreader_rows in Hlen. rewrite length_map in Hlen.
      pose proof (List.filter_length_le
                    (fun r : csv_record => match r with [] => false | _ => true end)
                    records) as Hfilter.
      exact (Nat.le_trans _ _ _ Hlen Hfilter). }
  destruct Hall as [Hall Hlen].
  repeat split; try exact Hlen;
    (eapply List.Forall_impl; [|exact Hall]); cbv beta;
    intros t (rid & u & dom & -> & Hu); try reflexivity.
  split; [reflexivity|]. now exists rid, u, dom.
Qed.

Lemma read_jobs_are_new_witness :
  Forall (fun t => _retry_count t = None)
    [new_job "1" "http://a.example/" "a.example"].
Proof.
  apply (read_jobs_are_new
           (Some [["id"; "url"; "domain"]; ["1"; "http://a.example/"; "a.example"]])
           [new_job "1" "http://a.example/" "a.example"]
           ["id"; "url"; "domain"]).
  vm_compute. reflexivity.
Defined.

Lemma drop_job_deleted (header : list string) (target : string) (rows : csv_content) :
  (forall r, In r rows -> id_of_record header r = target ->
             ci_cell "url" header r <> "") ->
  flat_map (job_of_record header)
    (match delete_first_id header target rows with
     | Some rem => rem
     | None => rows
     end)
  = drop_job target (flat_map (job_of_record header) rows).
Proof.
  induction rows as [|r rows IH]; intros Hurl; [reflexivity|].
  cbn [delete_first_id flat_map].
  assert (IH' := IH (fun x Hx => Hurl x (or_intror Hx))). clear IH.
  unfold job_of_record at 2. rewrite <- id_of_record_cell.
  destruct (String.eqb_spec (id_of_record header r) target) as [He|Hne].
  - pose proof (Hurl r (or_introl eq_refl) He) as Hu.
    apply String.eqb_neq in Hu. rewrite Hu. cbn [app drop_job new_job row_id get_or].
    rewrite He, String.eqb_refl. reflexivity.
  - destruct (String.eqb (ci_cell "url" header r) "") eqn:Hu.
    + cbn [app]. rewrite <- IH'.
      destruct (delete_first_id header target rows); cbn [option_map flat_map];
        unfold job_of_record at 1; now rewrite Hu.
    + cbn [app drop_job new_job row_id get_or].
      apply String.eqb_neq in Hne. rewrite Hne. rewrite <- IH'.
      destruct (delete_first_id header target rows); cbn [option_map flat_map];
        unfold job_of_record at 1; rewrite Hu, <- id_of_record_cell; reflexivity.
Qed.

(** X11: on a CSV file whose header names are distinct, whose records all
    have as many cells as the header and in which the records with the id
    in question have a url, removing a row_id that is not blank with
    remove_from_csv and reading the file again with read_jobs_from_csv
    gives the jobs read before without the first job that has this row_id,
    the others unchanged and in their order. *)
Theorem removed_job_is_not_read_again (header : list string) (rows : csv_content)
    (row_id : string) :
  List.NoDup header -> Forall (fun r => length r = length header) rows ->
  strip row_id <> "" ->
  (forall r, In r rows -> id_of_record header r = strip row_id ->
             ci_cell "url" header r <> "") ->
  exists jobs,
    read_jobs_from_csv (Some (header :: rows)) = Ret (jobs, map strip header)
    /\ read_jobs_from_csv (snd (remove_from_csv (Some (header :: rows)) row_id))
       = Ret (drop_job (strip row_id) jobs, map strip header).
Proof.
  intros Hnd Hrect Hid Hurl.
  exists (flat_map (job_of_record header) rows).
  destruct (read_jobs_from_csv_records header rows Hnd Hrect) as (_ & _ & Hread).
  split; [exact Hread|].
  rewrite remove_from_csv_rect by assumption. cbn [snd].
  assert (Hrect' : Forall (fun r => length r = length header)
                     (match delete_first_id header (strip row_id) rows with
                      | Some rem => rem
                      | None => rows
                      end)).
  { destruct (delete_first_id header (strip row_id) rows) as [rem|] eqn:Hd;
      [|exact Hrect].
    apply delete_first_id_some in Hd as (pre & r & post & -> & -> & _).
    apply Forall_app in Hrect as [Hpre Hpost]. apply Forall_app.
    split; [assumption|]. now inversion Hpost. }
  destruct (read_jobs_from_csv_records header _ Hnd Hrect') as (_ & _ & ->).
  now rewrite drop_job_deleted.
Qed.

Lemma removed_job_is_not_read_again_witness :
  exists jobs,
    read_jobs_from_csv
      (Some [["id"; "url"; "domain"]; ["1"; "http://a.example/"; "a.example"];
             ["2"; "http://b.example/"; "b.example"]])
    = Ret (jobs, ["id"; "url"; "domain"])
    /\ read_jobs_from_csv
         (snd (remove_from_csv
                 (Some [["id"; "url"; "domain"];
                        ["1"; "http://a.example/"; "a.example"];
                        ["2"; "http://b.example/"; "b.example"]]) " 1 "))
       = Ret (drop_job "1" jobs, ["id"; "url"; "domain"]).
Proof.
  apply (removed_job_is_not_read_again ["id"; "url"; "domain"]
           [["1"; "http://a.example/"; "a.example"];
            ["2"; "http://b.example/"; "b.example"]] " 1 ").
  - repeat constructor; cbn; intuition discriminate.
  - repeat constructor.
  - vm_compute. discriminate.
  - intros r [<-|[<-|[]]] _; vm_compute; discriminate.
Defined.

(* the keys of a dict after assignments *)
Lemma dict_set_keys {V : Type} (d : list (string * V)) (k : string) (v : V)
    (x : string) :
  In x (map fst (dict_set d k v)) <-> x = k \/ In x (map fst d).
Proof.
  induction d as [|[k' v'] d IH]; cbn [dict_set map fst In].
  - intuition.
  - destruct (String.eqb_spec k k') as [->|Hne]; cbn [map fst In]; intuition.
Qed.

Lemma dict_fold_keys {V : Type} (pairs acc : list (string * V)) (x : string) :
  In x (map fst (fold_left (fun d kv => dict_set d (fst kv) (snd kv)) pairs acc))
  <-> In x (map fst acc) \/ In x (map fst pairs).
Proof.
  revert acc. induction pairs as [|[k v] pairs IH]; intros acc; cbn [fold_left map fst In].
  - intuition.
  - rewrite IH, dict_set_keys. cbn [fst snd]. intuition.
Qed.

Lemma dict_fill_keys {V : Type} (keys : list string) (v : V)
    (d : list (string * V)) (x : string) :
  In x (map fst (fold_left (fun d key => dict_set d key v) keys d))
  <-> In x (map fst d) \/ In x keys.
Proof.
  revert d. induction keys as [|k keys IH]; intros d; cbn [fold_left In].
  - intuition.
  - rewrite IH, dict_set_keys. intuition.
Qed.

Lemma map_fst_combine_firstn {A B : Type} (ks : list A) (vs : list B) :
  map fst (combine ks vs) = firstn (length vs) ks.
Proof.
  revert vs. induction ks as [|k ks IH]; intros [|v vs]; cbn; try reflexivity.
  now rewrite IH.
Qed.

(* DictReader gives every row the names of the header as keys *)
Lemma dictreader_row_keys (fieldnames : list string) (row : csv_record) (x : string) :
  In x (map fst (items (dictreader_row fieldnames row))) <-> In x fieldnames.
Proof.
  unfold dictreader_row.
  destruct (Nat.ltb_spec (length fieldnames) (length row)) as [Hlt|Hge];
    cbn [items].
  - unfold dict_of. rewrite dict_fold_keys, map_fst_combine_firstn, length_map.
    rewrite firstn_all2 by lia. cbn. intuition.
  - rewrite dict_fill_keys. unfold dict_of.
    rewrite dict_fold_keys, map_fst_combine_firstn, length_map. cbn [map In].
    rewrite <- (firstn_skipn (length row) fieldnames) at 3.
    rewrite in_app_iff. intuition.
Qed.

Lemma get_ci_items_none (its : list (string * option string)) (key : string) :
  get_ci_items its key = None <->
  forall k, In k (map fst its) -> String.eqb (lower k) key = false.
Proof.
  induction its as [|[k v] its IH]; cbn [get_ci_items map fst In].
  - split; [intros _ k []|reflexivity].
  - destruct (String.eqb (lower k) key) eqn:He.
    + split; [discriminate|]. intros H. specialize (H k (or_introl eq_refl)). congruence.
    + rewrite IH. split.
      * intros H x [<-|Hx]; [exact He|now apply H].
      * intros H x Hx. apply H. now right.
Qed.

Lemma has_column_false (key : string) (fieldnames : list string) :
  has_column key fieldnames = false <->
  forall k, In k fieldnames -> String.eqb (lower k) key = false.
Proof.
  unfold has_column. induction fieldnames as [|k ks IH]; cbn [existsb In].
  - split; [intros _ k []|reflexivity].
  - rewrite orb_false_iff, IH. split.
    + intros [He H] x [<-|Hx]; [exact He|now apply H].
    + intros H. split; [apply H; now left|]. intros x Hx. apply H. now right.
Qed.

(* a lookup finds a column exactly when the header has it *)
Lemma get_ci_items_column (fieldnames : list string) (row : csv_record) (key : string) :
  get_ci_items (items (dictreader_row fieldnames row)) key = None <->
  has_column key fieldnames = false.
Proof.
  rewrite get_ci_items_none, has_column_false.
  split; intros H k Hk; apply H.
  - now apply (dictreader_row_keys fieldnames row k).
  - now apply (dictreader_row_keys fieldnames row k).
Qed.

Lemma get_case_insensitive_column (fieldnames : list string) (row : csv_record)
    (key : string) :
  has_column key fieldnames = true ->
  exists s, get_case_insensitive (dictreader_row fieldnames row) key = Ret s.
Proof.
  intros Hcol. unfold get_case_insensitive.
  destruct (get_ci_items _ key) as [s|] eqn:Hget; [now exists s|].
  apply get_ci_items_column in Hget. congruence.
Qed.

Lemma get_case_insensitive_long (fieldnames : list string) (row : csv_record)
    (key : string) :
  (length fieldnames < length row)%nat ->
  (exists s, get_case_insensitive (dictreader_row fieldnames row) key = Ret s
             /\ has_column key fieldnames = true)
  \/ (get_case_insensitive (dictreader_row fieldnames row) key
      = Raise none_has_no_lower
      /\ has_column key fieldnames = false).
Proof.
  intros Hlong. unfold get_case_insensitive.
  destruct (get_ci_items _ key) as [s|] eqn:Hget.
  - left. exists s. split; [reflexivity|].
    destruct (has_column key fieldnames) eqn:Hcol; [reflexivity|].
    apply (proj2 (get_ci_items_column fieldnames row key)) in Hcol. congruence.
  - right. apply get_ci_items_column in Hget. split; [|exact Hget].
    unfold dictreader_row.
    replace (length fieldnames <? length row)%nat with true
      by (symmetry; now apply Nat.ltb_lt).
    reflexivity.
Qed.

Lemma read_rows_columns (fieldnames : list string) (records : csv_content)
    (acc : list task) :
  has_column "id" fieldnames = true -> has_column "url" fieldnames = true ->
  has_column "domain" fieldnames = true ->
  exists jobs, read_rows (map (dictreader_row fieldnames) records) acc = Ret jobs.
Proof.
  intros Hid Hurl Hdom. revert acc.
  induction records as [|r records IH]; intros acc; cbn [map read_rows].
  - now exists acc.
  - destruct (get_case_insensitive_column fieldnames r "id" Hid) as [rid ->].
    destruct (get_case_insensitive_column fieldnames r "url" Hurl) as [u ->].
    destruct (get_case_insensitive_column fieldnames r "domain" Hdom) as [dom ->].
    cbn [py_bind]. destruct (String.eqb u ""); apply IH.
Qed.

Lemma read_rows_long (fieldnames : list string) (records : csv_content)
    (r : csv_record) (acc : list task) :
  has_column "id" fieldnames && has_column "url" fieldnames
    && has_column "domain" fieldnames = false ->
  In r records -> (length fieldnames < length r)%nat ->
  read_rows (map (dictreader_row fieldnames) records) acc = Raise none_has_no_lower.
Proof.
  intros Hcols Hin Hlong. revert acc.
  induction records as [|x records IH]; intros acc; [destruct Hin|].
  cbn [map read_rows].
  assert (Hnext : forall acc', In r records ->
            read_rows (map (dictreader_row fieldnames) records) acc'
            = Raise none_has_no_lower)
    by (intros acc' Hr; now apply IH).
  destruct Hin as [->|Hin].
  - destruct (get_case_insensitive_long fieldnames r "id" Hlong)
      as [(rid & -> & Hid)|[-> _]]; [|reflexivity].
    destruct (get_case_insensitive_long fieldnames r "url" Hlong)
      as [(u & -> & Hurl)|[-> _]]; [|reflexivity].
    destruct (get_case_insensitive_long fieldnames r "domain" Hlong)
      as [(dom & -> & Hdom)|[-> _]]; [|reflexivity].
    rewrite Hid, Hurl, Hdom in Hcols. discriminate.
  - destruct (get_case_insensitive (dictreader_row fieldnames x) "id") as [rid|e] eqn:H1.
    2:{ unfold get_case_insensitive in H1.
        destruct (get_ci_items _ _); [discriminate|].
        destruct (rest _); [|discriminate]. now injection H1 as <-. }
    destruct (get_case_insensitive (dictreader_row fieldnames x) "url") as [u|e] eqn:H2.
    2:{ unfold get_case_insensitive in H2.
        destruct (get_ci_items _ _); [discriminate|].
        destruct (rest _); [|discriminate]. now injection H2 as <-. }
    destruct (get_case_insensitive (dictreader_row fieldnames x) "domain") as [d|e] eqn:H3.
    2:{ unfold get_case_insensitive in H3.
        destruct (get_ci_items _ _); [discriminate|].
        destruct (rest _); [|discriminate]. now injection H3 as <-. }
    cbn [py_bind]. destruct (String.eqb u ""); now apply Hnext.
Qed.

(** X12: read_jobs_from_csv on files that are not rectangular.  When the
    header has an id, a url and a domain column (whatever the case of the
    names) the call returns jobs whatever the lengths of the records.  When
    one of the three columns is missing and some record has more cells than
    the header, the call raises AttributeError ('NoneType' object has no
    attribute 'lower'): the lookup of the missing column reaches the key
    None under which DictReader keeps the surplus cells. *)
Theorem read_jobs_from_csv_ragged (fieldnames : list string)
    (records : csv_content) :
  (has_column "id" fieldnames = true -> has_column "url" fieldnames = true ->
   has_column "domain" fieldnames = true ->
   exists jobs,
     read_jobs_from_csv (Some (fieldnames :: records))
     = Ret (jobs, map strip fieldnames))
  /\ (has_column "id" fieldnames && has_column "url" fieldnames
        && has_column "domain" fieldnames = false ->
      forall r, In r records -> (length fieldnames < length r)%nat ->
      read_jobs_from_csv (Some (fieldnames :: records)) = Raise none_has_no_lower).
Proof.
  unfold read_jobs_from_csv, dictreader_rows. split.
  - intros Hid Hurl Hdom.
    destruct (read_rows_columns fieldnames
                (List.filter (fun r => match r with [] => false | _ => true end) records)
                [] Hid Hurl Hdom) as [jobs ->].
    now exists jobs.
  - intros Hcols r Hin Hlong.
    rewrite (read_rows_long fieldnames _ r [] Hcols); [reflexivity| |exact Hlong].
    apply filter_In. split; [exact Hin|]. destruct r; [cbn in Hlong; lia|reflexivity].
Qed.

Example read_jobs_from_csv_ragged_sample :
  read_jobs_from_csv (Some [["id"; "url"]; ["1"; "http://a.example/"; "a.example"]])
  = Raise none_has_no_lower
  /\ read_jobs_from_csv
       (Some [["id"; "url"; "domain"]; ["1"; "http://a.example/"; "a.example"; "x"];
              ["2"; "http://b.example/"]])
     = Ret ([new_job "1" "http://a.example/" "a.example";
             new_job "2" "http://b.example/" ""],
            ["id"; "url"; "domain"]).
Proof. split; vm_compute; reflexivity. Qed.

(* --------------------------------------------------------------------- *)
(*  Container names                                                        *)
(* --------------------------------------------------------------------- *)

Lemma to_int_not_nil (n : Z) :
  Z.to_int n <> Decimal.Pos Decimal.Nil /\ Z.to_int n <> Decimal.Neg Decimal.Nil.
Proof.
  destruct n as [|p|p]; cbn; split; try discriminate; intros [= H];
    now apply DecimalPos.Unsigned.to_uint_nonnil in H.
Qed.

(* str(n) determines n *)
Lemma str_of_int_inj (n m : Z) : str_of_int n = str_of_int m -> n = m.
Proof.
  unfold str_of_int. intros H. apply DecimalZ.to_int_inj.
  destruct (to_int_not_nil n) as [Hn1 Hn2]. destruct (to_int_not_nil m) as [Hm1 Hm2].
  pose proof (NilZero.isi _ Hn1 Hn2) as Hn. pose proof (NilZero.isi _ Hm1 Hm2) as Hm.
  rewrite H in Hn. congruence.
Qed.

Lemma append_inj_l (p a b : string) : (p ++ a = p ++ b)%string -> a = b.
Proof.
  induction p as [|c p IH]; intros H; [exact H|].
  rewrite !append_cons in H. injection H as H. now apply IH.
Qed.

Lemma NoDup_map_injective {A B : Type} (f : A -> B) (l : list A) :
  (forall x y, f x = f y -> x = y) -> List.NoDup l -> List.NoDup (map f l).
Proof.
  intros Hinj. induction 1 as [|x l Hx Hl IH]; cbn [map]; constructor; [|exact IH].
  intros Hin. apply in_map_iff in Hin as (y & Hy & Hin).
  apply Hinj in Hy. now subst y.
Qed.

(** X13: build_container_names returns CONTAINER_COUNT names (none when
    CONTAINER_COUNT is zero or negative), the i-th being CONTAINER_PREFIX
    followed by the decimal of i, and no two of them are the same: the
    workers of a pool, and the entries of the throttle gate, are keyed by
    distinct container names. *)
Theorem build_container_names_distinct (cfg : config) :
  length (build_container_names cfg) = Z.to_nat (CONTAINER_COUNT cfg)
  /\ List.NoDup (build_container_names cfg)
  /\ (forall i, (i < Z.to_nat (CONTAINER_COUNT cfg))%nat ->
        nth_error (build_container_names cfg) i
        = Some (CONTAINER_PREFIX cfg ++ str_of_int (Z.of_nat i))%string)
  /\ (CONTAINER_COUNT cfg <= 0 -> build_container_names cfg = []).
Proof.
  unfold build_container_names. split; [|split; [|split]].
  - now rewrite length_map, length_seq.
  - apply NoDup_map_injective; [|apply List.seq_NoDup].
    intros i i' H. apply append_inj_l, str_of_int_inj in H. lia.
  - intros i Hi. rewrite nth_error_map, nth_error_seq.
    replace (i <? Z.to_nat (CONTAINER_COUNT cfg))%nat with true
      by (symmetry; now apply Nat.ltb_lt).
    reflexivity.
  - intros Hle. replace (Z.to_nat (CONTAINER_COUNT cfg)) with 0%nat by lia.
    reflexivity.
Qed.

Example build_container_names_sample :
  build_container_names sample_cfg = ["traffic0"; "traffic1"; "traffic2"].
Proof. vm_compute. reflexivity. Qed.

(** X14: container_running and container_exists read the same docker
    inspect answer consistently: a container reported running is reported
    as existing (True), so prepare_pool_once never creates it; the answer
    None, on which prepare_pool_once creates the container, is given
    exactly when the inspect command failed; an inspect that succeeds but
    prints neither true nor false gives False, not None, and the container
    is not reported running. *)
Theorem container_running_exists (cp : completed_process) :
  (container_running cp = true -> container_exists cp = Some true)
  /\ (container_exists cp = None <-> returncode cp <> 0)
  /\ (container_exists cp = Some false -> container_running cp = false)
  /\ (container_exists cp = None -> container_running cp = false).
Proof.
  unfold container_running, container_exists.
  destruct (Z.eqb_spec (returncode cp) 0) as [Hrc|Hrc]; cbn [negb andb].
  - split; [intros ->; reflexivity|]. split; [split; [discriminate|contradiction]|].
    split; [|discriminate].
    intros [= H]. apply orb_false_iff in H as [H _]. exact H.
  - split; [discriminate|]. split; [now split|]. split; [discriminate|reflexivity].
Qed.

(* --------------------------------------------------------------------- *)
(*  Where chown_recursive goes                                             *)
(* --------------------------------------------------------------------- *)










(* --------------------------------------------------------------------- *)
(*  Where the path rewriting sends a container path                        *)
(* --------------------------------------------------------------------- *)

(** X16: the path rewriting of process_result sends a manifest path under
    /app to the same relative path under HOST_CODE_PATH: "/app" followed by
    rest becomes HOST_CODE_PATH followed by the rewriting of rest, which is
    rest itself when rest contains no "/app".  The rewriting is not
    confined to a leading /app: behind a prefix that contains no "/app" and
    does not end in "/", "/a" or "/ap" the first /app is replaced in the
    same way, and so is every further occurrence in the path. *)
Theorem to_host_path_rooted (cfg : config) (rest : string) :
  to_host_path cfg ("/app" ++ rest)%string
  = (HOST_CODE_PATH cfg ++ to_host_path cfg rest)%string
  /\ startswith (HOST_CODE_PATH cfg) (to_host_path cfg ("/app" ++ rest)%string) = true
  /\ (occurs "/app" rest = false ->
      to_host_path cfg ("/app" ++ rest)%string = (HOST_CODE_PATH cfg ++ rest)%string)
  /\ (forall pre, no_overlap "/app" pre = true ->
      to_host_path cfg (pre ++ "/app" ++ rest)%string
      = (pre ++ HOST_CODE_PATH cfg ++ to_host_path cfg rest)%string).
Proof.
  assert (Hhead : to_host_path cfg ("/app" ++ rest)%string
                  = (HOST_CODE_PATH cfg ++ to_host_path cfg rest)%string).
  { unfold to_host_path.
    rewrite str_replace_match; [reflexivity|discriminate|apply startswith_app]. }
  split; [exact Hhead|]. split; [rewrite Hhead; apply startswith_app|]. split.
  - intros Habsent. rewrite Hhead. unfold to_host_path.
    now rewrite str_replace_absent.
  - intros pre. induction pre as [|c pre IH]; intros Hclean; [exact Hhead|].
    cbn [no_overlap] in Hclean. rewrite !andb_true_iff in Hclean.
    destruct Hclean as [[Hno Hpart] Hrest].
    apply negb_true_iff in Hno. apply negb_true_iff in Hpart.
    unfold to_host_path in *. rewrite !(append_cons c pre).
    rewrite str_replace_copy; [now rewrite IH|].
    destruct (startswith "/app" (String c (pre ++ "/app" ++ rest))) eqn:Hs;
      [|reflexivity].
    rewrite <- append_cons in Hs. apply startswith_app_cases in Hs as [Hs|Hs]; congruence.
Qed.

Example to_host_path_rooted_sample :
  to_host_path sample_cfg "/app/data/a.pcap" = "/srv/capture/data/a.pcap"
  /\ to_host_path sample_cfg "/data/app/a.pcap" = "/data/srv/capture/a.pcap".
Proof. split; reflexivity. Qed.

(* --------------------------------------------------------------------- *)
(*  Every batch comes to its end                                           *)
(* --------------------------------------------------------------------- *)

Lemma worker_weight_moved_on (retry : Z) (s : sched) (i : nat) (w : worker)
    (st : wstate) :
  workers s !! i = Some w ->
  (list_sum (map (worker_weight retry) (moved_on s i w st)) + worker_weight retry w
   = list_sum (map (worker_weight retry) (workers s))
     + worker_weight retry {| w_container := w_container w; w_state := st |})%nat.
Proof. intros Hw. unfold moved_on. now apply list_sum_insert. Qed.

Lemma queue_weight_same (retry : Z) (s s' : sched) (q : list nat) :
  (forall j, In j q -> attempt_of (task_of s' j) = attempt_of (task_of s j)) ->
  list_sum (map (fun j => budget retry (attempt_of (task_of s' j)) + 3)%nat q)
  = list_sum (map (fun j => budget retry (attempt_of (task_of s j)) + 3)%nat q).
Proof.
  intros H. f_equal. apply map_ext_in. intros j Hj. now rewrite H.
Qed.

Lemma list_sum_snoc (l : list nat) (x : nat) :
  list_sum (l ++ [x]) = (list_sum l + x)%nat.
Proof. rewrite list_sum_app. cbn. lia. Qed.

Ltac weigh retry Hw Hs :=
  match goal with
  | |- context [moved_on ?s ?i ?w ?st] =>
      pose proof (worker_weight_moved_on retry s i w st Hw) as Hww;
      match type of Hs with
      | w_state _ = ?old =>
          replace (worker_weight retry w)
            with (worker_weight retry {| w_container := w_container w; w_state := old |})
            in Hww by (unfold worker_weight; cbn [w_state]; now rewrite Hs)
      end;
      cbn [worker_weight w_state] in Hww
  end.

(* a step of a worker that has not returned uses up one of the steps left *)
Lemma step_decreases (n : nat) (cfg : config) (retry : Z) (s s' : sched) (tk : tick) :
  batch_inv n s -> transition cfg retry s tk s' ->
  (steps_left retry s' < steps_left retry s)%nat
  \/ (s' = s /\ forall w, workers s !! who tk = Some w -> w_state w = Returned).
Proof.
  intros Hinv Htr.
  inversion Htr as
    [Hidle
    |w Hw Hs Hq
    |w j0 q' t Hw Hs Hq Ht
    |w j0 a0 t00 Hw Hs
    |w j0 a0 t00 r fx Hw Hs Hexec Hrep
    |w j0 a0 t00 r fx line err Hw Hs Hexec Hrep Hlt
    |w j0 a0 t00 r fx line err Hw Hs Hexec Hrep Hge]; subst s'; clear Htr.
  - right. split; [reflexivity|]. intros w Hw.
    destruct Hidle as [Hnone|(w' & Hw' & Hret)]; congruence.
  - left. unfold steps_left, queue_weight. proj_fields. weigh retry Hw Hs.
    rewrite (queue_weight_same retry s (after_return s tk w) (queue s)); [lia|].
    intros j _. now erewrite task_of_same_store by reflexivity.
  - left. unfold steps_left, queue_weight. proj_fields. weigh retry Hw Hs.
    rewrite Hq. cbn [map]. rewrite list_sum_cons, (task_of_lookup s j0 t Ht).
    rewrite (queue_weight_same retry s (after_get retry s tk w j0 q' t) q').
    + unfold attempt_of in *. lia.
    + intros j _.
      rewrite (task_of_inserted s (after_get retry s tk w j0 q' t) j0
                 (taken (w_container w) (wall tk) t) j eq_refl).
      destruct (Nat.eqb_spec j j0) as [->|]; cbn [andb]; [|reflexivity].
      destruct (j0 <? length (store s))%nat; [|reflexivity].
      now rewrite (task_of_lookup s j0 t Ht).
  - left. unfold steps_left, queue_weight. proj_fields. weigh retry Hw Hs.
    rewrite (queue_weight_same retry s (after_gate cfg s tk w j0 a0 t00) (queue s));
      [lia|].
    intros j _. now erewrite task_of_same_store by reflexivity.
  - left. unfold steps_left, queue_weight. proj_fields. weigh retry Hw Hs.
    rewrite (queue_weight_same retry s (after_success s tk w j0 t00 fx) (queue s));
      [lia|].
    intros j _. now erewrite task_of_same_store by reflexivity.
  - left.
    destruct (holder_refs _ _ _ _ _ Hinv Hw
                (in_hand_holding _ _ _ _ (in_hand_state w j0 a0 t00 (or_intror Hs))))
      as (Hj0 & Hnone & _ & _).
    rewrite <- (inv_store _ _ Hinv) in Hj0.
    unfold steps_left, queue_weight. proj_fields. weigh retry Hw Hs.
    rewrite map_app. cbn [map]. rewrite list_sum_snoc.
    rewrite (queue_weight_same retry s (after_requeue s tk w j0 a0 fx line) (queue s)).
    + rewrite (task_of_inserted s (after_requeue s tk w j0 a0 fx line) j0
                 (set_retry_count (a0 + 1) (task_of s j0)) j0 eq_refl).
      rewrite Nat.eqb_refl. replace (j0 <? length (store s))%nat with true
        by (symmetry; now apply Nat.ltb_lt).
      cbn [andb]. change (attempt_of (set_retry_count (a0 + 1) (task_of s j0)))
        with (a0 + 1).
      unfold budget in *. lia.
    + intros j Hj.
      rewrite (task_of_inserted s (after_requeue s tk w j0 a0 fx line) j0
                 (set_retry_count (a0 + 1) (task_of s j0)) j eq_refl).
      destruct (Nat.eqb_spec j j0) as [->|]; cbn [andb]; [|reflexivity].
      exfalso. apply (count_occ_In Nat.eq_dec) in Hj. unfold queued in Hnone. lia.
  - left. unfold steps_left, queue_weight. proj_fields. weigh retry Hw Hs.
    rewrite (queue_weight_same retry s (after_final cfg s tk w j0 t00 fx line err)
               (queue s)); [lia|].
    intros j _. now erewrite task_of_same_store by reflexivity.
Qed.

Lemma lookup_In {A : Type} (l : list A) (i : nat) (x : A) :
  l !! i = Some x -> In x l.
Proof.
  revert i. induction l as [|a l IH]; intros i H; [discriminate|].
  destruct i as [|i]; cbn in H; [injection H as ->; now left|right; now apply (IH i)].
Qed.

Lemma In_lookup {A : Type} (l : list A) (x : A) :
  In x l -> exists i, l !! i = Some x.
Proof.
  induction l as [|a l IH]; intros H; [destruct H|].
  destruct H as [->|H]; [now exists 0%nat|].
  destruct (IH H) as [i Hi]. now exists (S i).
Qed.

(* once every worker has returned nothing happens any more *)
Lemma all_returned_stable (cfg : config) (retry : Z) (s : sched) (ticks : list tick) :
  forallb is_returned (workers s) = true -> run_ticks cfg retry s ticks = s.
Proof.
  intros Hall. induction ticks as [|tk ticks IH]; [reflexivity|].
  cbn [run_ticks fold_left]. fold (run_ticks cfg retry (worker_loop cfg retry s tk) ticks).
  assert (Hstay : worker_loop cfg retry s tk = s).
  { unfold worker_loop. destruct (workers s !! who tk) as [w|] eqn:Hw; [|reflexivity].
    apply lookup_In in Hw. rewrite forallb_forall in Hall. specialize (Hall w Hw).
    unfold is_returned in Hall. destruct (w_state w); try discriminate. reflexivity. }
  rewrite Hstay. exact IH.
Qed.

Lemma moved_on_not_returned (s : sched) (i : nat) (w : worker) (st : wstate) :
  workers s !! i = Some w ->
  is_returned {| w_container := w_container w; w_state := st |} = false ->
  forallb is_returned (moved_on s i w st) = false.
Proof.
  intros Hw Hst. unfold moved_on.
  destruct (forallb is_returned _) eqn:Hall; [|reflexivity].
  rewrite forallb_forall in Hall.
  assert (Hin : In {| w_container := w_container w; w_state := st |}
                  (<[i := {| w_container := w_container w; w_state := st |}]> (workers s))).
  { apply (lookup_In _ i). apply list_lookup_insert_eq. now apply lookup_lt_Some in Hw. }
  specialize (Hall _ Hin). congruence.
Qed.

Lemma drained_step (cfg : config) (retry : Z) (s s' : sched) (tk : tick) :
  drained s -> transition cfg retry s tk s' -> drained s'.
Proof.
  unfold drained. intros Hd Htr.
  inversion Htr as
    [Hidle
    |w Hw Hs Hq
    |w j0 q' t Hw Hs Hq Ht
    |w j0 a0 t00 Hw Hs
    |w j0 a0 t00 r fx Hw Hs Hexec Hrep
    |w j0 a0 t00 r fx line err Hw Hs Hexec Hrep Hlt
    |w j0 a0 t00 r fx line err Hw Hs Hexec Hrep Hge]; subst s'; clear Htr;
    proj_fields; try assumption; try (intros _; assumption);
    intros Hall; rewrite moved_on_not_returned in Hall by (assumption || reflexivity);
    discriminate.
Qed.

Lemma workers_length_step (cfg : config) (retry : Z) (s s' : sched) (tk : tick) :
  transition cfg retry s tk s' -> length (workers s') = length (workers s).
Proof.
  intros Htr. inversion Htr; subst s'; proj_fields; unfold moved_on;
    rewrite ?length_insert; reflexivity.
Qed.

Lemma run_keeps (n : nat) (cfg : config) (retry : Z) (ticks : list tick) (s : sched) :
  batch_inv n s -> drained s ->
  batch_inv n (run_ticks cfg retry s ticks)
  /\ drained (run_ticks cfg retry s ticks)
  /\ length (workers (run_ticks cfg retry s ticks)) = length (workers s).
Proof.
  revert s. induction ticks as [|tk ticks IH]; intros s Hinv Hd;
    [split; [exact Hinv|split; [exact Hd|reflexivity]]|].
  cbn [run_ticks fold_left].
  pose proof (worker_loop_transition cfg retry s tk (batch_inv_queue_valid n s Hinv))
    as Htr.
  destruct (IH (worker_loop cfg retry s tk)) as (H1 & H2 & H3).
  - now apply batch_inv_worker_loop.
  - now apply (drained_step cfg retry s _ tk).
  - split; [exact H1|]. split; [exact H2|].
    unfold run_ticks in H3. rewrite H3. now apply (workers_length_step cfg retry s _ tk).
Qed.

(* what a stretch of the schedule does to the steps left *)
Lemma stretch_decreases (n : nat) (cfg : config) (retry : Z) (round : list tick)
    (s : sched) :
  batch_inv n s ->
  (steps_left retry (run_ticks cfg retry s round) < steps_left retry s)%nat
  \/ (run_ticks cfg retry s round = s
      /\ forall tk, In tk round ->
         forall w, workers s !! who tk = Some w -> w_state w = Returned).
Proof.
  revert s. induction round as [|tk round IH]; intros s Hinv.
  - right. split; [reflexivity|]. intros tk [].
  - cbn [run_ticks fold_left].
    fold (run_ticks cfg retry (worker_loop cfg retry s tk) round).
    pose proof (worker_loop_transition cfg retry s tk (batch_inv_queue_valid n s Hinv))
      as Htr.
    destruct (step_decreases n cfg retry s _ tk Hinv Htr) as [Hlt|[Heq Hret]].
    + left. destruct (IH (worker_loop cfg retry s tk)
                        (batch_inv_worker_loop n cfg retry s tk Hinv)) as [Hlt'|[Heq' _]].
      * lia.
      * now rewrite Heq'.
    + rewrite Heq. destruct (IH s Hinv) as [Hlt'|[Heq' Hret']]; [now left|].
      right. split; [exact Heq'|]. intros tk' [<-|Hin]; [exact Hret|now apply Hret'].
Qed.

Lemma covered_returned (s : sched) (round : list tick) :
  covers (length (workers s)) round = true ->
  (forall tk, In tk round ->
     forall w, workers s !! who tk = Some w -> w_state w = Returned) ->
  forallb is_returned (workers s) = true.
Proof.
  intros Hcov Hret. apply forallb_forall. intros w Hw.
  apply In_lookup in Hw as [i Hi].
  unfold covers in Hcov. rewrite forallb_forall in Hcov.
  assert (Hin : In i (seq 0 (length (workers s)))).
  { apply in_seq. apply lookup_lt_Some in Hi. lia. }
  specialize (Hcov i Hin). apply existsb_exists in Hcov as (tk & Htk & Hwho).
  apply Nat.eqb_eq in Hwho. subst i.
  unfold is_returned. now rewrite (Hret tk Htk w Hi).
Qed.

Lemma no_steps_left (retry : Z) (s : sched) :
  steps_left retry s = 0%nat -> forallb is_returned (workers s) = true.
Proof.
  unfold steps_left. intros H.
  assert (Hw : list_sum (map (worker_weight retry) (workers s)) = 0%nat) by lia.
  clear H. induction (workers s) as [|w ws IH]; [reflexivity|].
  rewrite map_cons, list_sum_cons in Hw. cbn [forallb].
  rewrite IH by lia. unfold worker_weight in Hw. unfold is_returned.
  destruct (w_state w); try reflexivity; lia.
Qed.

Lemma rounds_finish (n : nat) (cfg : config) (retry : Z) (rounds : list (list tick)) :
  forall s,
    batch_inv n s -> drained s ->
    Forall (fun r => covers (length (workers s)) r = true) rounds ->
    (steps_left retry s <= length rounds)%nat ->
    forallb is_returned (workers (run_ticks cfg retry s (concat rounds))) = true.
Proof.
  induction rounds as [|r rounds IH]; intros s Hinv Hd Hcov Hsteps.
  - cbn [concat run_ticks fold_left]. apply (no_steps_left retry). cbn in Hsteps. lia.
  - cbn [concat]. unfold run_ticks. rewrite fold_left_app.
    fold (run_ticks cfg retry s r).
    fold (run_ticks cfg retry (run_ticks cfg retry s r) (concat rounds)).
    apply Forall_cons_1 in Hcov as [Hr Hrounds].
    destruct (stretch_decreases n cfg retry r s Hinv) as [Hlt|[Heq Hret]].
    + destruct (run_keeps n cfg retry r s Hinv Hd) as (Hinv1 & Hd1 & Hlen1).
      apply IH; try assumption.
      * now rewrite Hlen1.
      * cbn [length] in Hsteps. lia.
    + rewrite Heq. rewrite all_returned_stable; now apply (covered_returned s r).
Qed.

Lemma map_lookup_seq {A B : Type} (f : A -> B) (d : A) (l : list A) :
  map (fun j => f (match l !! j with Some t => t | None => d end)) (seq 0 (length l))
  = map f l.
Proof.
  induction l as [|x l IH] using rev_ind; [reflexivity|].
  rewrite length_app. cbn [length]. rewrite Nat.add_1_r, seq_S, !map_app.
  cbn [map Nat.add]. f_equal.
  - rewrite <- IH. apply map_ext_in. intros j Hj. apply in_seq in Hj.
    rewrite lookup_app_l by lia. reflexivity.
  - rewrite lookup_app_r by lia. now rewrite Nat.sub_diag.
Qed.

Lemma steps_left_start (retry : Z) (g : throttle) (p : progress)
    (names : list string) (jobs : list task) :
  steps_left retry (batch_start g p names jobs) = initial_budget retry names jobs.
Proof.
  unfold steps_left, queue_weight, initial_budget, batch_start, task_of. proj_fields.
  rewrite (map_lookup_seq (fun t => budget retry (attempt_of t) + 3)%nat).
  rewrite Nat.add_comm. f_equal.
  induction names as [|c names IH]; [reflexivity|].
  rewrite !map_cons, list_sum_cons, IH. reflexivity.
Qed.

(* a batch under a fair schedule that is long enough is finished *)
Lemma fair_batch_finishes (cfg : config) (g : throttle) (p : progress)
    (names : list string) (jobs : list task) (rounds : list (list tick)) :
  names <> [] ->
  Forall (fun r => covers (length names) r = true) rounds ->
  (initial_budget (RETRY cfg) names jobs <= length rounds)%nat ->
  batch_finished (batch_state cfg g p names jobs (concat rounds)) = true.
Proof.
  intros Hnames Hcov Hbudget. unfold batch_state.
  set (s0 := batch_start g p names jobs).
  assert (Hinv0 : batch_inv (length jobs) s0) by apply batch_inv_start.
  assert (Hd0 : drained s0).
  { unfold drained, s0, batch_start. proj_fields.
    destruct names as [|c names]; [congruence|]. discriminate. }
  assert (Hw0 : length (workers s0) = length names)
    by (unfold s0, batch_start; proj_fields; apply length_map).
  assert (Hall : forallb is_returned
                   (workers (run_ticks cfg (RETRY cfg) s0 (concat rounds))) = true).
  { apply (rounds_finish (length jobs)); try assumption.
    - now rewrite Hw0.
    - unfold s0. now rewrite steps_left_start. }
  destruct (run_keeps (length jobs) cfg (RETRY cfg) (concat rounds) s0 Hinv0 Hd0)
    as (Hinv & Hd & _).
  unfold batch_finished. rewrite Hall, andb_true_r.
  apply Z.eqb_eq.
  rewrite (inv_unfinished _ _ Hinv), (Hd Hall). cbn [length].
  assert (Hbusy : busy (workers (run_ticks cfg (RETRY cfg) s0 (concat rounds))) = 0%nat).
  { unfold busy. revert Hall.
    induction (workers (run_ticks cfg (RETRY cfg) s0 (concat rounds))) as [|w ws IH];
      [reflexivity|].
    cbn [forallb]. intros Hall. apply andb_true_iff in Hall as [Hw Hws].
    rewrite map_cons, list_sum_cons, (IH Hws).
    unfold is_returned in Hw. unfold holding. destruct (w_state w); try discriminate.
    reflexivity. }
  rewrite Hbusy. reflexivity.
Qed.

(** X17: run_once returns.  Whatever docker, the file system and the clock
    answer, under any schedule made of stretches in each of which every
    worker thread of the pool runs at least once, a batch with a non-empty
    pool is finished -- q.join() returns and every worker has returned --
    after at most as many stretches as there are workers plus, for every
    job, three for each attempt it has left (RETRY + 1 for a job submitted
    without a _retry_count): a task that fails is put back at most RETRY
    times, so the loop of the workers cannot go on for ever. *)
Theorem run_once_returns (cfg : config) (g : throttle) (p : progress)
    (names : list string) (jobs : list task) (rounds : list (list tick)) :
  names <> [] ->
  Forall (fun r => covers (length names) r = true) rounds ->
  (initial_budget (RETRY cfg) names jobs <= length rounds)%nat ->
  exists st, run_once cfg g p names jobs (concat rounds) = Some st.
Proof.
  intros Hnames Hcov Hbudget.
  pose proof (fair_batch_finishes cfg g p names jobs rounds Hnames Hcov Hbudget)
    as Hfin.
  unfold batch_state in Hfin. unfold run_once.
  destruct names as [|c names]; [congruence|].
  rewrite Hfin. eexists. reflexivity.
Qed.

Lemma run_once_returns_witness :
  exists st,
    run_once (with_retry sample_cfg 1) throttle_init no_progress ["A"; "B"] three_jobs
      (concat (repeat (round_robin 2 0 env_fail) 20))
    = Some st.
Proof.
  apply (run_once_returns (with_retry sample_cfg 1) throttle_init no_progress
           ["A"; "B"] three_jobs (repeat (round_robin 2 0 env_fail) 20)).
  - discriminate.
  - repeat constructor.
  - vm_compute. lia.
Defined.

(* --------------------------------------------------------------------- *)
(*  prepare_pool_once: what a pool that is returned went through           *)
(* --------------------------------------------------------------------- *)

(* the commands of one call of check_and_create *)
Lemma check_and_create_run (e : pool_env) (n m : string) :
  In (DockerRun m) (fst (check_and_create e n)) <->
  m = n /\ exists cp, inspect_first e n = Ret cp /\ container_exists cp = None.
Proof.
  unfold check_and_create.
  destruct (inspect_first e n) as [cp|x].
  - destruct (container_exists cp) as [b|] eqn:Hex.
    + cbn. split.
      * intros [H|[]]. discriminate H.
      * intros [_ (cp' & [= <-] & H)]. congruence.
    + assert (Hin : In (DockerRun m) [DockerInspect n; DockerRun n] <-> m = n).
      { cbn. split.
        - intros [H|[H|[]]]; [discriminate H|now injection H].
        - intros ->. right. now left. }
      destruct (create_container e n); cbn [fst]; rewrite Hin;
        (split; [intros ->; split; [reflexivity|now exists cp]|now intros [-> _]]).
  - cbn. split.
    + intros [H|[]]. discriminate H.
    + intros [_ (cp & H & _)]. discriminate H.
Qed.

Lemma check_and_create_created (e : pool_env) (n : string) :
  snd (check_and_create e n) = true <->
  exists cp cp', inspect_first e n = Ret cp /\ container_exists cp = None
                 /\ docker_run e n = Ret cp' /\ returncode cp' = 0.
Proof.
  unfold check_and_create, create_container.
  destruct (inspect_first e n) as [cp|x].
  - destruct (container_exists cp) as [b|] eqn:Hex.
    + cbn. split; [discriminate|]. intros (c1 & c2 & [= <-] & H & _). congruence.
    + destruct (docker_run e n) as [cp'|x].
      * destruct (Z.eqb_spec (returncode cp') 0) as [Hrc|Hrc]; cbn.
        -- split; [|reflexivity]. intros _. now exists cp, cp'.
        -- split; [discriminate|]. intros (c1 & c2 & _ & _ & [= <-] & H). congruence.
      * cbn. split; [discriminate|]. intros (c1 & c2 & _ & _ & H & _). discriminate H.
  - cbn. split; [discriminate|]. intros (c1 & c2 & H & _). discriminate H.
Qed.

Lemma check_and_create_others (e : pool_env) (n : string) (a : pool_action) :
  In a (fst (check_and_create e n)) -> a = DockerInspect n \/ a = DockerRun n.
Proof.
  unfold check_and_create.
  destruct (inspect_first e n) as [cp|x]; [|cbn; intuition].
  destruct (container_exists cp); [cbn; intuition|].
  destruct (create_container e n); cbn; intuition.
Qed.

(* pass 2, when it goes through *)
Lemma start_stopped_finished (e : pool_env) (names : list string) (u : unit)
    (acts : list pool_action) :
  start_stopped e names = (Finished u, acts) ->
  Forall (fun n => exists cp, inspect_second e n = Ret cp
            /\ (container_running cp = true
                \/ exists cp', docker_start e n = Ret cp' /\ returncode cp' = 0))
    names
  /\ (forall a, In a acts ->
        (exists n, a = DockerInspect n)
        \/ exists n, a = DockerStart n /\ In n names
             /\ exists cp, inspect_second e n = Ret cp /\ container_running cp = false)
  /\ (forall n cp, In n names -> inspect_second e n = Ret cp ->
        container_running cp = false -> In (DockerStart n) acts).
Proof.
  revert acts. induction names as [|n names IH]; intros acts H.
  - cbn [start_stopped] in H. injection H as _ <-. split; [constructor|].
    split; [intros a Ha; inversion Ha|intros n cp Hn; inversion Hn].
  - cbn [start_stopped] in H.
    destruct (inspect_second e n) as [cp|x] eqn:Hins; [|discriminate H].
    destruct (container_running cp) eqn:Hrun.
    + destruct (start_stopped e names) as [r acts'] eqn:Hrest.
      injection H as -> <-. destruct (IH acts' eq_refl) as (Hall & Hacts & Hstart).
      split; [constructor; [exists cp; split; [exact Hins|now left]|exact Hall]|].
      split.
      * intros a [<-|Ha]; [left; now exists n|].
        destruct (Hacts a Ha) as [Hi|(m & -> & Hm & Hcp)]; [now left|].
        right. exists m. split; [reflexivity|]. split; [now right|exact Hcp].
      * intros m cp' [<-|Hm] Hcp' Hrun'; [congruence|].
        right. now apply (Hstart m cp').
    + unfold start_container in H.
      destruct (docker_start e n) as [cp'|x] eqn:Hst; [|discriminate H].
      destruct (Z.eqb_spec (returncode cp') 0) as [Hrc|Hrc]; cbn [negb] in H;
        [|discriminate H].
      destruct (start_stopped e names) as [r acts'] eqn:Hrest.
      injection H as -> <-. destruct (IH acts' eq_refl) as (Hall & Hacts & Hstart).
      split.
      { constructor; [|exact Hall]. exists cp. split; [exact Hins|]. right.
        now exists cp'. }
      split.
      * intros a [<-|[<-|Ha]]; [left; now exists n| |].
        -- right. exists n. split; [reflexivity|]. split; [now left|]. now exists cp.
        -- destruct (Hacts a Ha) as [Hi|(m & -> & Hm & Hcp)]; [now left|].
           right. exists m. split; [reflexivity|]. split; [now right|exact Hcp].
      * intros m cp0 [<-|Hm] Hcp0 Hrun0; [right; now left|].
        right. right. now apply (Hstart m cp0).
Qed.

(* pass 2, when it ends in sys.exit *)
Lemma start_stopped_exit (e : pool_env) (names : list string) (c : Z)
    (acts : list pool_action) :
  start_stopped e names = (SysExit c, acts) ->
  c = 2 /\ exists n cp cp',
    In n names /\ inspect_second e n = Ret cp /\ container_running cp = false
    /\ docker_start e n = Ret cp' /\ returncode cp' <> 0
    /\ last acts = Some (DockerStart n).
Proof.
  revert acts. induction names as [|n names IH]; intros acts H; [discriminate H|].
  cbn [start_stopped] in H.
  destruct (inspect_second e n) as [cp|x] eqn:Hins; [|discriminate H].
  assert (Hlater : forall acts' pre,
            start_stopped e names = (SysExit c, acts') ->
            c = 2 /\ exists n0 cp0 cp', In n0 (n :: names)
              /\ inspect_second e n0 = Ret cp0 /\ container_running cp0 = false
              /\ docker_start e n0 = Ret cp' /\ returncode cp' <> 0
              /\ last (pre ++ acts') = Some (DockerStart n0)).
  { intros acts' pre Hrest.
    destruct (IH acts' Hrest) as (Hc & m & cp0 & cp' & Hm & H1 & H2 & H3 & H4 & Hlast).
    split; [exact Hc|]. exists m, cp0, cp'. split; [now right|].
    repeat (split; [assumption|]).
    rewrite last_app, Hlast. reflexivity. }
  destruct (container_running cp) eqn:Hrun.
  - destruct (start_stopped e names) as [r acts'] eqn:Hrest.
    injection H as -> <-. apply (Hlater acts' [DockerInspect n] eq_refl).
  - unfold start_container in H.
    destruct (docker_start e n) as [cp'|x] eqn:Hst; [|discriminate H].
    destruct (Z.eqb_spec (returncode cp') 0) as [Hrc|Hrc]; cbn [negb] in H.
    + destruct (start_stopped e names) as [r acts'] eqn:Hrest.
      injection H as -> <-.
      apply (Hlater acts' [DockerInspect n; DockerStart n] eq_refl).
    + injection H as <- <-. split; [reflexivity|]. exists n, cp, cp'.
      split; [now left|]. repeat (split; [assumption|]). reflexivity.
Qed.

(* pass 3 never ends in sys.exit, and goes through created in order *)
Lemma disable_offload_all_acts (e : pool_env) (created : list string) :
  (forall c, fst (disable_offload_all e created) <> SysExit c)
  /\ (forall u, fst (disable_offload_all e created) = Finished u ->
        snd (disable_offload_all e created) = map DisableOffload created).
Proof.
  induction created as [|n created [IH1 IH2]]; [split; [discriminate|reflexivity]|].
  cbn [disable_offload_all]. unfold disable_offload_once.
  destruct (offload_exec e n) as [cp|x]; [|split; [discriminate|discriminate]].
  destruct (disable_offload_all e created) as [r acts]. cbn [fst snd] in *.
  split; [exact IH1|]. intros u Hr. cbn [map]. f_equal. now apply (IH2 u).
Qed.

(* what ends before the pool is built *)
Lemma prepare_pool_once_names (cfg : config) (e : pool_env) (finished : list string)
    (o : pool_outcome) (acts : list pool_action) :
  prepare_pool_once cfg e finished = (o, acts) ->
  (forall names, o <> PoolReady names) \/ o = PoolReady (build_container_names cfg)
                                           /\ build_container_names cfg <> [].
Proof.
  unfold prepare_pool_once.
  destruct (ensure_docker_available e); cbn [negb];
    [|intros [= <- _]; left; discriminate].
  destruct (host_code_exists e) as [b|x]; [|intros [= <- _]; left; discriminate].
  destruct (build_container_names cfg) as [|n names] eqn:Hnames;
    [intros [= <- _]; left; discriminate|].
  destruct (start_stopped e (n :: names)) as [r2 pass2].
  destruct r2 as [u|c|x]; try (intros [= <- _]; left; discriminate).
  destruct (disable_offload_all e (created_in e finished)) as [r3 pass3].
  destruct r3 as [u3|c|x]; intros [= <- _];
    [right; split; [reflexivity|discriminate]|left; discriminate|left; discriminate].
Qed.

(** X18: when prepare_pool_once returns, it returns the names of
    build_container_names, at least one, and for every one of them the
    docker inspect of pass 2 reported a running container or its docker
    start exited with status 0.  docker run was issued for exactly the
    names whose docker inspect of pass 1 failed, docker start for exactly
    the names pass 2 found not running, and the offload was switched off
    in exactly the containers this call created: those whose docker
    inspect of pass 1 failed and whose docker run exited with status 0. *)
Theorem prepare_pool_once_ready (cfg : config) (e : pool_env)
    (finished names : list string) (acts : list pool_action) :
  Permutation finished (build_container_names cfg) ->
  prepare_pool_once cfg e finished = (PoolReady names, acts) ->
  names = build_container_names cfg /\ names <> []
  /\ Forall (fun n => exists cp, inspect_second e n = Ret cp
               /\ (container_running cp = true
                   \/ exists cp', docker_start e n = Ret cp' /\ returncode cp' = 0))
       names
  /\ (forall n, In (DockerRun n) acts <->
        In n names
        /\ exists cp, inspect_first e n = Ret cp /\ container_exists cp = None)
  /\ (forall n, In (DockerStart n) acts <->
        In n names
        /\ exists cp, inspect_second e n = Ret cp /\ container_running cp = false)
  /\ (forall n, In (DisableOffload n) acts <->
        In n names
        /\ exists cp cp', inspect_first e n = Ret cp /\ container_exists cp = None
                          /\ docker_run e n = Ret cp' /\ returncode cp' = 0).
Proof.
  intros Hperm H.
  assert (Hfin : forall n, In n finished <-> In n (build_container_names cfg)).
  { intros n. split; apply Permutation_in; [exact Hperm|now symmetry]. }
  revert H. unfold prepare_pool_once.
  destruct (ensure_docker_available e); cbn [negb]; [|discriminate].
  destruct (host_code_exists e) as [b|x]; [|discriminate].
  destruct (build_container_names cfg) as [|n0 names0] eqn:Hnames; [discriminate|].
  set (all := n0 :: names0) in *.
  destruct (start_stopped e all) as [r2 pass2] eqn:H2.
  destruct r2 as [u|c|x]; try discriminate.
  pose proof (disable_offload_all_acts e (created_in e finished)) as [_ H3].
  destruct (disable_offload_all e (created_in e finished)) as [r3 pass3].
  destruct r3 as [u3|c|x]; try discriminate. cbn [fst snd pool_end] in *.
  intros [= <- <-]. rewrite (H3 u3 eq_refl).
  destruct (start_stopped_finished e all u pass2 H2) as (Hall & Hacts & Hstart).
  split; [reflexivity|]. split; [discriminate|]. split; [exact Hall|].
  assert (Hpass1 : forall a,
            In a (flat_map (fun n => fst (check_and_create e n)) finished) <->
            exists n, In n all /\ In a (fst (check_and_create e n))).
  { intros a. rewrite in_flat_map. split; intros (n & Hn & Ha); exists n;
      (split; [now apply Hfin|exact Ha]). }
  assert (Hpass3 : forall a,
            In a (map DisableOffload (created_in e finished)) <->
            exists n, a = DisableOffload n /\ In n all
                      /\ snd (check_and_create e n) = true).
  { intros a. rewrite in_map_iff. unfold created_in.
    split.
    - intros (n & <- & Hn). apply List.filter_In in Hn as [Hn Hc].
      exists n. split; [reflexivity|]. split; [now apply Hfin|exact Hc].
    - intros (n & -> & Hn & Hc). exists n. split; [reflexivity|].
      apply List.filter_In. split; [now apply Hfin|exact Hc]. }
  split; [|split]; intros n; cbn [In]; rewrite !in_app_iff; cbn [In];
    rewrite Hpass1, Hpass3.
  - split.
    + intros [H|[(m & Hm & Hin)|[Hin|[H|(m & H & _)]]]]; try discriminate H.
      * apply check_and_create_run in Hin as [-> Hcp]. now split.
      * destruct (Hacts _ Hin) as [(m & H)|(m & H & _)]; discriminate H.
    + intros [Hn Hcp]. right. left. exists n. split; [exact Hn|].
      now apply check_and_create_run.
  - split.
    + intros [H|[(m & Hm & Hin)|[Hin|[H|(m & H & _)]]]]; try discriminate H.
      * apply check_and_create_others in Hin as [H|H]; discriminate H.
      * destruct (Hacts _ Hin) as [(m & H)|(m & [= <-] & Hm & Hcp)];
          [discriminate H|now split].
    + intros [Hn (cp & Hcp & Hrun)]. right. right. left.
      now apply (Hstart n cp).
  - split.
    + intros [H|[(m & Hm & Hin)|[Hin|[H|(m & [= <-] & Hm & Hc)]]]];
        try discriminate H.
      * apply check_and_create_others in Hin as [H|H]; discriminate H.
      * destruct (Hacts _ Hin) as [(m & H)|(m & H & _)]; discriminate H.
      * split; [exact Hm|]. now apply check_and_create_created.
    + intros [Hn Hc]. right. right. right. right. exists n.
      split; [reflexivity|]. split; [exact Hn|]. now apply check_and_create_created.
Qed.

Lemma prepare_pool_once_ready_witness :
  In (DisableOffload "traffic1")
     (snd (prepare_pool_once sample_cfg (docker_up (String.eqb "traffic1"))
             ["traffic2"; "traffic0"; "traffic1"]))
  /\ ~ In (DockerRun "traffic0")
       (snd (prepare_pool_once sample_cfg (docker_up (String.eqb "traffic1"))
               ["traffic2"; "traffic0"; "traffic1"])).
Proof.
  destruct (prepare_pool_once_ready sample_cfg (docker_up (String.eqb "traffic1"))
              ["traffic2"; "traffic0"; "traffic1"]
              ["traffic0"; "traffic1"; "traffic2"]
              (snd (prepare_pool_once sample_cfg (docker_up (String.eqb "traffic1"))
                      ["traffic2"; "traffic0"; "traffic1"])))
    as (_ & _ & _ & Hrun & _ & Hoff).
  - vm_compute.
    apply (perm_trans (l' := ["traffic0"; "traffic2"; "traffic1"]));
      [apply perm_swap|apply perm_skip, perm_swap].
  - vm_compute. reflexivity.
  - split.
    + apply Hoff. split; [right; now left|].
      eexists _, _. vm_compute. repeat split; reflexivity.
    + intros Hin. apply Hrun in Hin as [_ (cp & Hcp & Hex)].
      vm_compute in Hcp. injection Hcp as <-. discriminate Hex.
Defined.

(** X19: how prepare_pool_once fails.  Without a usable docker it ends in
    sys.exit(2) after docker version alone.  With CONTAINER_COUNT zero or
    negative it raises IndexError (names[0] of the empty list) before any
    container is inspected, created or started.  It ends in sys.exit only
    with status 2, and then docker was not usable or the last command was
    the docker start of a container pass 2 found not running, which exited
    with another status than 0: a docker run that fails in pass 1 does not
    end the call, the SystemExit stays in the thread of the pool. *)
Theorem prepare_pool_once_failures (cfg : config) (e : pool_env)
    (finished : list string) :
  (ensure_docker_available e = false ->
   prepare_pool_once cfg e finished = (PoolExit 2, [DockerVersion]))
  /\ (ensure_docker_available e = true -> CONTAINER_COUNT cfg <= 0 ->
      forall b, host_code_exists e = Ret b ->
      prepare_pool_once cfg e finished = (PoolIndexError, [DockerVersion]))
  /\ (forall c acts,
        prepare_pool_once cfg e finished = (PoolExit c, acts) ->
        c = 2
        /\ (ensure_docker_available e = false
            \/ exists n cp cp',
                 In n (build_container_names cfg)
                 /\ inspect_second e n = Ret cp /\ container_running cp = false
                 /\ docker_start e n = Ret cp' /\ returncode cp' <> 0
                 /\ last acts = Some (DockerStart n))).
Proof.
  split; [|split].
  - intros Hd. unfold prepare_pool_once. now rewrite Hd.
  - intros Hd Hcount b Hb. unfold prepare_pool_once. rewrite Hd, Hb. cbn [negb].
    unfold build_container_names.
    replace (Z.to_nat (CONTAINER_COUNT cfg)) with 0%nat by lia. reflexivity.
  - intros c acts. unfold prepare_pool_once.
    destruct (ensure_docker_available e); cbn [negb];
      [|intros [= <- _]; split; [reflexivity|now left]].
    destruct (host_code_exists e) as [b|x]; [|discriminate].
    destruct (build_container_names cfg) as [|n0 names0] eqn:Hnames; [discriminate|].
    destruct (start_stopped e (n0 :: names0)) as [r2 pass2] eqn:H2.
    destruct r2 as [u|c2|x].
    + pose proof (disable_offload_all_acts e (created_in e finished)) as [H3 _].
      destruct (disable_offload_all e (created_in e finished)) as [r3 pass3].
      destruct r3 as [u3|c3|x]; cbn [pool_end]; try discriminate.
      now specialize (H3 c3).
    + cbn [pool_end]. intros [= <- <-].
      apply start_stopped_exit in H2
        as (Hc & n & cp & cp' & Hn & H1 & Hr & Hs & Hrc & Hlast).
      split; [exact Hc|]. right. exists n, cp, cp'.
      repeat (split; [assumption|]).
      change (DockerVersion
              :: flat_map (fun n => fst (check_and_create e n)) finished ++ pass2)
        with ((DockerVersion
               :: flat_map (fun n => fst (check_and_create e n)) finished) ++ pass2).
      rewrite last_app, Hlast. reflexivity.
    + discriminate.
Qed.

(* docker run fails for the three containers of the pool: the call goes on
   to pass 2 and ends at the first docker start *)
Example prepare_pool_once_run_fails :
  prepare_pool_once sample_cfg docker_run_fails ["traffic0"; "traffic1"; "traffic2"]
  = (PoolExit 2,
     [DockerVersion;
      DockerInspect "traffic0"; DockerRun "traffic0";
      DockerInspect "traffic1"; DockerRun "traffic1";
      DockerInspect "traffic2"; DockerRun "traffic2";
      DockerInspect "traffic0"; DockerStart "traffic0"]).
Proof. vm_compute. reflexivity. Qed.

(* --------------------------------------------------------------------- *)
(*  run: the totals over the batches                                       *)
(* --------------------------------------------------------------------- *)

(* what a batch that is finished adds up to *)
Lemma batch_finished_totals (cfg : config) (g : throttle) (p : progress)
    (names : list string) (jobs : list task) (ticks : list tick) :
  let s := batch_state cfg g p names jobs ticks in
  batch_finished s = true ->
  adds_up (ok (batch_stats s), fail (batch_stats s), length jobs)
  /\ _global_ok (global_progress s) = _global_ok p + ok (batch_stats s)
  /\ _global_fail (global_progress s) = _global_fail p + fail (batch_stats s).
Proof.
  intros s Hfin.
  pose proof (batch_state_inv cfg g p names jobs ticks) as Hinv. fold s in Hinv.
  assert (Hpi : progress_inv p s).
  { apply (progress_inv_run (length jobs)); [apply batch_inv_start|].
    constructor; unfold batch_start; proj_fields; try reflexivity; lia. }
  destruct Hpi as [Hok Hfail _].
  destruct (batch_finished_idle _ _ Hinv Hfin) as [Hq Hbusy].
  pose proof (count_bools (all_outcomes (trace s))) as Hcount.
  pose proof (inv_ok _ _ Hinv) as Hok'. pose proof (inv_fail _ _ Hinv) as Hfail'.
  pose proof (inv_total _ _ Hinv) as Htot. rewrite Hq, Hbusy in Htot.
  cbn [length] in Htot. unfold count_outcomes in Hok', Hfail'.
  unfold adds_up. cbn [fst snd]. repeat split; try assumption; lia.
Qed.

Lemma summaries_app (a b : list run_line) :
  summaries (a ++ b) = summaries a ++ summaries b.
Proof. unfold summaries. apply flat_map_app. Qed.

Lemma batch_report_summaries (n : Z) (k : nat) (s : sched) :
  summaries (batch_report n k s) = [(ok (batch_stats s), fail (batch_stats s), k)].
Proof.
  unfold batch_report, summaries. cbn [flat_map summary_of app]. f_equal.
  assert (Hsamples : forall l : list (string * string * string),
            flat_map summary_of
              (map (fun x => RSample (fst (fst x)) (snd (fst x)) (snd x)) l) = []).
  { induction l as [|y l IH]; [reflexivity|exact IH]. }
  destruct (errors (batch_stats s)) as [|x l]; [reflexivity|].
  cbn [flat_map summary_of app]. apply Hsamples.
Qed.

(* lines that are no summary add nothing *)
Lemma run_adds_logged (st : run_state) (lines : list run_line) :
  summaries lines = [] -> run_adds st (run_logged st lines) [].
Proof.
  intros Hl. constructor; unfold run_logged;
    cbn [r_log r_batch_num r_progress map sum_Z fold_right length Z.of_nat].
  - now rewrite summaries_app, Hl.
  - constructor.
  - lia.
  - lia.
  - lia.
Qed.

Lemma sum_Z_app (a b : list Z) : sum_Z (a ++ b) = sum_Z a + sum_Z b.
Proof.
  unfold sum_Z. induction a as [|x a IH]; [reflexivity|].
  cbn [app fold_right]. rewrite IH. lia.
Qed.

Lemma run_adds_trans (st st1 st2 : run_state) (a b : list (Z * Z * nat)) :
  run_adds st st1 a -> run_adds st1 st2 b -> run_adds st st2 (a ++ b).
Proof.
  intros [A1 A2 A3 A4 A5] [B1 B2 B3 B4 B5].
  constructor.
  - rewrite B1, A1. now rewrite app_assoc.
  - apply Forall_app. now split.
  - rewrite B3, A3, length_app. lia.
  - rewrite B4, A4, map_app, sum_Z_app. lia.
  - rewrite B5, A5, map_app, sum_Z_app. lia.
Qed.

(* the loop, from any state on: one summary line per batch run *)
Lemma run_loop_totals (cfg : config) (names : list string) (rounds : list round) :
  names <> [] ->
  forall st st',
    run_loop cfg names st rounds = Some st' ->
    exists new,
      run_adds st st' new
      /\ map snd new = map (@length task) (batches_run rounds).
Proof.
  intros Hnames. induction rounds as [|r rounds IH]; intros st st' H; [discriminate H|].
  cbn [run_loop batches_run] in H |- *.
  destruct (fetch_jobs r) as [[|t jobs]|e].
  - injection H as <-. exists []. split; [now apply run_adds_logged|reflexivity].
  - destruct names as [|c names]; [congruence|].
    set (s := batch_state cfg (r_gate st) (r_progress st) (c :: names) (t :: jobs)
                (schedule r)) in *.
    destruct (batch_finished s) eqn:Hfin; [|discriminate H].
    destruct (batch_finished_totals cfg (r_gate st) (r_progress st) (c :: names)
                (t :: jobs) (schedule r) Hfin) as (Hsum & Hok & Hfail).
    fold s in Hsum, Hok, Hfail.
    set (st1 := {| r_gate := gate s; r_progress := global_progress s;
                   r_batch_num := r_batch_num st + 1;
                   r_log := r_log st ++ RBatch (r_batch_num st + 1) (length (t :: jobs))
                              :: batch_report (r_batch_num st + 1)
                                   (length (t :: jobs)) s |}) in *.
    assert (Hst1 : run_adds st st1
                     [(ok (batch_stats s), fail (batch_stats s), length (t :: jobs))]).
    { constructor; unfold st1;
        cbn [r_log r_batch_num r_progress map sum_Z fold_right length fst snd].
      - rewrite summaries_app. f_equal.
        change (RBatch ?n ?k :: ?l) with ([RBatch n k] ++ l).
        rewrite summaries_app, batch_report_summaries. reflexivity.
      - constructor; [exact Hsum|constructor].
      - lia.
      - lia.
      - lia. }
    destruct (clear_raises r) as [e|].
    + injection H as <-. eexists. split.
      * apply (run_adds_trans _ _ _ _ [] Hst1). now apply run_adds_logged.
      * reflexivity.
    + destruct (should_continue r).
      * destruct (IH st1 st' H) as (more & Hmore & Hlen).
        eexists. split; [apply (run_adds_trans _ _ _ _ more Hst1 Hmore)|].
        cbn [app map snd]. now rewrite Hlen.
      * injection H as <-. eexists. split.
        -- apply (run_adds_trans _ _ _ _ [] Hst1).
           replace st1 with (run_logged st1 []) at 2; [now apply run_adds_logged|].
           unfold run_logged, st1. cbn [r_gate r_progress r_batch_num r_log].
           now rewrite app_nil_r.
        -- reflexivity.
  - injection H as <-. exists []. split; [now apply run_adds_logged|reflexivity].
Qed.

Lemma summaries_total (lines : list (Z * Z * nat)) (batches : list (list task)) :
  Forall adds_up lines -> map snd lines = map (@length task) batches ->
  sum_Z (map (fun x => fst (fst x)) lines) + sum_Z (map (fun x => snd (fst x)) lines)
  = Z.of_nat (length (concat batches)).
Proof.
  revert batches. induction lines as [|x lines IH]; intros [|b batches] Hall Hlen;
    try discriminate Hlen; [reflexivity|].
  apply Forall_cons_1 in Hall as [[Hx _] Hall]. injection Hlen as Hb Hlen.
  specialize (IH batches Hall Hlen). unfold sum_Z in *.
  cbn [map fold_right concat]. rewrite length_app. lia.
Qed.

(** X20: the final summary of run counts every job of every batch once.
    When run gets to its final summary, the loop has logged one summary
    line per batch it ran, in order, with the number of jobs fetch_jobs
    returned as total; on every line success + fail = total; batch_num is
    the number of batches; _global_ok and _global_fail are the sums of the
    successes and of the failures of the lines, and the total the final
    summary prints, _global_ok + _global_fail, is the number of jobs of all
    batches. *)
Theorem run_counts_every_job (cfg : config) (e : pool_env)
    (finished : list string) (g : throttle) (rounds : list round)
    (st : run_state) :
  run cfg e finished g rounds = Some (RunSummary st) ->
  let lines := summaries (r_log st) in
  map snd lines = map (@length task) (batches_run rounds)
  /\ Forall adds_up lines
  /\ r_batch_num st = Z.of_nat (length (batches_run rounds))
  /\ _global_ok (r_progress st) = sum_Z (map (fun x => fst (fst x)) lines)
  /\ _global_fail (r_progress st) = sum_Z (map (fun x => snd (fst x)) lines)
  /\ total_done (r_progress st)
     = Z.of_nat (length (concat (batches_run rounds))).
Proof.
  intros H lines. unfold run in H.
  destruct (prepare_pool_once cfg e finished) as [o acts] eqn:Hpool.
  destruct (prepare_pool_once_names cfg e finished o acts Hpool) as [Hno|[-> Hnames]].
  { cbn [fst] in H. destruct o; try discriminate H. now destruct (Hno names). }
  cbn [fst] in H.
  destruct (run_loop cfg (build_container_names cfg) _ rounds) as [st'|] eqn:Hloop;
    [|discriminate H].
  injection H as ->.
  destruct (run_loop_totals cfg _ rounds Hnames _ _ Hloop)
    as (new & [Hlog Hsums Hnum Hok Hfail] & Hlen).
  cbn [r_log r_batch_num r_progress _global_ok _global_fail summaries flat_map app]
    in Hlog, Hnum, Hok, Hfail.
  fold lines in Hlog. subst new.
  assert (Hbatches : length lines = length (batches_run rounds)).
  { rewrite <- (length_map snd lines), Hlen. apply length_map. }
  split; [exact Hlen|]. split; [exact Hsums|]. split; [lia|].
  split; [lia|]. split; [lia|].
  unfold total_done. rewrite <- (summaries_total lines _ Hsums Hlen). lia.
Qed.

Lemma run_counts_every_job_witness :
  exists st,
    run sample_cfg (docker_up (fun _ => true)) ["traffic0"; "traffic1"; "traffic2"]
      throttle_init two_batches = Some (RunSummary st)
    /\ summaries (r_log st) = [(3, 0, 3%nat); (0, 1, 1%nat)]
    /\ total_done (r_progress st) = 4.
Proof.
  eexists. split; [vm_compute; reflexivity|]. split; [vm_compute; reflexivity|].
  etransitivity.
  - apply (run_counts_every_job sample_cfg (docker_up (fun _ => true))
             ["traffic0"; "traffic1"; "traffic2"] throttle_init two_batches).
    vm_compute. reflexivity.
  - vm_compute. reflexivity.
Defined.

(* the loop ends within the rounds when their schedules are fair and one
   of them is the last *)
Lemma run_loop_returns (cfg : config) (names : list string) (rounds : list round) :
  names <> [] ->
  Forall (fair_round cfg names) rounds ->
  existsb last_round rounds = true ->
  forall st, exists st', run_loop cfg names st rounds = Some st'.
Proof.
  intros Hnames. induction rounds as [|r rounds IH]; intros Hfair Hlast st;
    [discriminate Hlast|].
  apply Forall_cons_1 in Hfair as [Hr Hfair].
  cbn [existsb] in Hlast. cbn [run_loop].
  unfold fair_round in Hr. unfold last_round in Hlast.
  destruct (fetch_jobs r) as [[|t jobs]|e]; [now eexists| |now eexists].
  destruct Hr as (stretches & -> & Hcov & Hbudget).
  rewrite (fair_batch_finishes cfg (r_gate st) (r_progress st) names (t :: jobs)
             stretches Hnames Hcov Hbudget).
  destruct names as [|c names]; [congruence|].
  destruct (clear_raises r) as [e|]; [now eexists|].
  destruct (should_continue r); [|now eexists].
  cbn [negb orb] in Hlast. now apply IH.
Qed.

(** X21: run returns.  Whatever docker and the file system answer, run
    gets to its final summary or ends where prepare_pool_once ended,
    provided that some round ends the loop -- fetch_jobs returns no job or
    raises, clear_host_code_subdirs raises or should_continue answers
    False -- and that in every round with jobs the pool runs under a
    schedule of stretches in each of which every worker runs at least
    once, as many as the batch can take steps. *)
Theorem run_returns (cfg : config) (e : pool_env) (finished : list string)
    (g : throttle) (rounds : list round) :
  Forall (fair_round cfg (build_container_names cfg)) rounds ->
  existsb last_round rounds = true ->
  exists r, run cfg e finished g rounds = Some r.
Proof.
  intros Hfair Hlast. unfold run.
  destruct (prepare_pool_once cfg e finished) as [o acts] eqn:Hpool.
  destruct (prepare_pool_once_names cfg e finished o acts Hpool) as [Hno|[-> Hnames]].
  - cbn [fst]. destruct o; try (eexists; reflexivity). now destruct (Hno names).
  - cbn [fst].
    destruct (run_loop_returns cfg _ rounds Hnames Hfair Hlast
                {| r_gate := g;
                   r_progress := {| _global_ok := 0; _global_fail := 0;
                                    _global_task_time := 0 |};
                   r_batch_num := 0; r_log := [] |}) as [st' ->].
    eexists. reflexivity.
Qed.

Lemma run_returns_witness :
  exists r,
    run sample_cfg (docker_up (fun _ => true)) ["traffic0"; "traffic1"; "traffic2"]
      throttle_init two_batches = Some r.
Proof.
  apply (run_returns sample_cfg (docker_up (fun _ => true))
           ["traffic0"; "traffic1"; "traffic2"] throttle_init two_batches).
  - repeat constructor.
    + exists (repeat (round_robin 3 0 env_ok) 57).
      split; [reflexivity|]. split; [|vm_compute; lia].
      apply List.Forall_forall. intros x Hx. apply repeat_spec in Hx. now subst x.
    + exists (repeat (round_robin 3 50 env_fail) 21).
      split; [reflexivity|]. split; [|vm_compute; lia].
      apply List.Forall_forall. intros x Hx. apply repeat_spec in Hx. now subst x.
  - reflexivity.
Defined.

(* --------------------------------------------------------------------- *)
(*  Who executes a task                                                    *)
(* --------------------------------------------------------------------- *)





